(** * WALL-E chat client: the streaming response consumer of [sendMessage]

    A shallow embedding of [static/js/app.js] (function [sendMessage] and the
    functions it calls) together with the parts of the JavaScript platform
    the function relies on: UTF-16 strings, [TextDecoder], [JSON.parse],
    property access, truthiness and string concatenation. The repository
    holds a second copy of [sendMessage] whose helpers are written in
    place; its loop is the same, its [catch] block is [catch_in_place].
    What the page draws (the DOM, the markdown renderer) is not modelled.

    Layout:
    - [Text]        JavaScript strings as lists of UTF-16 code units;
    - [TextDecoder] the UTF-8 decoder of the Encoding Standard;
    - [JSON]        [JSON.parse] and the value operations used on its result;
    - [App]         the application state and [sendMessage];
    - [Spec], [Samples] the events of the consumer, sample worlds;
    - [Handlers]    the handlers of the chat list: pin, rate, rename;
    - [SecondCopy]  the second copy of [sendMessage];
    - [Player]      the track handlers of the music player;
    - [Further], [Pages] predicates on pages and sample pages;
    - the properties of the consumer, then further properties of the
      page. *)

From Stdlib Require Import ZArith NArith List Ascii String Lia Bool.
From Stdlib.Strings Require Import Byte.
From stdpp Require Import base option list gmap.

Local Open Scope N_scope.

(** ** JavaScript strings *)

Module Text.

(** A JavaScript string is a sequence of 16-bit code units. *)
Abbreviation jsstring := (list N).

(** A string literal of the source whose characters are all ASCII. *)
Definition lit (s : string) : jsstring :=
  map N_of_ascii (list_ascii_of_string s).

(** The same, for literals of the wire format: in the argument an
    apostrophe stands for the double quote (code unit 34) and a vertical
    bar for the line feed (code unit 10). *)
Definition js (s : string) : jsstring :=
  map (fun c => if N.eqb c 39 then 34 else if N.eqb c 124 then 10 else c)
      (lit s).

Definition jsstring_eqb (a b : jsstring) : bool :=
  bool_decide (a = b).

(** [s.startsWith(p)] *)
Fixpoint startsWith (s p : jsstring) : bool :=
  match p, s with
  | [], _ => true
  | _ :: _, [] => false
  | a :: p', b :: s' => N.eqb a b && startsWith s' p'
  end.

(** [s.slice(n)] for a non-negative [n] *)
Definition slice (n : nat) (s : jsstring) : jsstring := drop n s.

(** [s.substring(0, n)] *)
Definition substring0 (n : nat) (s : jsstring) : jsstring := take n s.

(** [s.split('\n')]: the segments between line feeds; never empty. *)
Fixpoint split_nl (s : jsstring) : list jsstring :=
  match s with
  | [] => [[]]
  | c :: s' =>
      if N.eqb c 10 then [] :: split_nl s'
      else match split_nl s' with
           | l :: ls => (c :: l) :: ls
           | [] => [[c]]
           end
  end.

(** WhiteSpace and LineTerminator code units, as stripped by
    [String.prototype.trim]. *)
Definition is_trim_space (c : N) : bool :=
  (9 <=? c) && (c <=? 13)
  || N.eqb c 32 || N.eqb c 160 || N.eqb c 5760
  || (8192 <=? c) && (c <=? 8202)
  || N.eqb c 8232 || N.eqb c 8233 || N.eqb c 8239 || N.eqb c 8287
  || N.eqb c 12288 || N.eqb c 65279.

Fixpoint trimStart (s : jsstring) : jsstring :=
  match s with
  | c :: s' => if is_trim_space c then trimStart s' else s
  | [] => []
  end.

(** [s.trim()] *)
Definition trim (s : jsstring) : jsstring :=
  rev (trimStart (rev (trimStart s))).

(** Decimal digits of a natural number, most significant first, as
    [String(n)] prints an integer. *)
Fixpoint digits_fuel (fuel : nat) (n : N) (acc : jsstring) : jsstring :=
  match fuel with
  | O => acc
  | S f =>
      let acc' := (48 + n mod 10) :: acc in
      if n <? 10 then acc' else digits_fuel f (n / 10) acc'
  end.

Definition decimal (n : N) : jsstring :=
  digits_fuel (S (N.to_nat (N.log2 n))) n [].

End Text.

Import Text.

(** ** TextDecoder *)

Module TextDecoder.

(** State of the UTF-8 decoder of the Encoding Standard: the code point
    under construction, the number of continuation bytes still needed and
    the range allowed for the next byte. [bytes_needed = 0] is the initial
    state. *)
Record utf8_state := {
  code_point : N;
  bytes_needed : nat;
  lower_boundary : N;
  upper_boundary : N
}.

Definition utf8_init : utf8_state :=
  {| code_point := 0; bytes_needed := 0;
     lower_boundary := 128; upper_boundary := 191 |}.

Definition replacement : N := 65533.

(** The decoder's handler on a byte when no continuation byte is pending. *)
Definition utf8_lead (b : N) : list N * utf8_state :=
  if b <=? 127 then ([b], utf8_init)
  else if (194 <=? b) && (b <=? 223) then
    ([], {| code_point := N.land b 31; bytes_needed := 1;
            lower_boundary := 128; upper_boundary := 191 |})
  else if (224 <=? b) && (b <=? 239) then
    ([], {| code_point := N.land b 15; bytes_needed := 2;
            lower_boundary := if N.eqb b 224 then 160 else 128;
            upper_boundary := if N.eqb b 237 then 159 else 191 |})
  else if (240 <=? b) && (b <=? 244) then
    ([], {| code_point := N.land b 7; bytes_needed := 3;
            lower_boundary := if N.eqb b 240 then 144 else 128;
            upper_boundary := if N.eqb b 244 then 143 else 191 |})
  else ([replacement], utf8_init).

(** The handler on a byte. A byte outside the allowed range ends the
    pending sequence with U+FFFD and is then handled again from the
    initial state. *)
Definition utf8_step (st : utf8_state) (b : N) : list N * utf8_state :=
  match bytes_needed st with
  | O => utf8_lead b
  | S k =>
      if (lower_boundary st <=? b) && (b <=? upper_boundary st) then
        let cp := N.lor (N.shiftl (code_point st) 6) (N.land b 63) in
        match k with
        | O => ([cp], utf8_init)
        | S _ => ([], {| code_point := cp; bytes_needed := k;
                         lower_boundary := 128; upper_boundary := 191 |})
        end
      else
        let '(out, st') := utf8_lead b in (replacement :: out, st')
  end.

(** End of the input queue: a pending sequence yields one U+FFFD. *)
Definition utf8_flush (st : utf8_state) : list N :=
  match bytes_needed st with
  | O => []
  | S _ => [replacement]
  end.

(** The code points produced for a byte sequence from state [st], and the
    state reached. *)
Fixpoint utf8_run (st : utf8_state) (bs : list byte) : list N * utf8_state :=
  match bs with
  | [] => ([], st)
  | b :: bs' =>
      let '(o1, st1) := utf8_step st (Byte.to_N b) in
      let '(o2, st2) := utf8_run st1 bs' in
      (o1 ++ o2, st2)
  end.

(** A whole input decoded at once, end of queue included. *)
Definition utf8_decode (bs : list byte) : list N :=
  let '(out, st) := utf8_run utf8_init bs in out ++ utf8_flush st.

(** With [ignoreBOM] false, a U+FEFF that comes first in the output is
    dropped. *)
Definition strip_bom (cps : list N) : list N :=
  match cps with
  | c :: rest => if N.eqb c 65279 then rest else cps
  | [] => []
  end.

(** A code point as UTF-16 code units. *)
Definition utf16 (cp : N) : jsstring :=
  if cp <? 65536 then [cp]
  else let c := cp - 65536 in
       [55296 + N.shiftr c 10; 56320 + N.land c 1023].

(** [decoder.decode(value)] for [decoder = new TextDecoder()]. The call
    passes no [stream] option, so every call starts from a fresh decoder
    and flushes at the end of [value]. *)
Definition decode (value : list byte) : jsstring :=
  flat_map utf16 (strip_bom (utf8_decode value)).

(** The bytes of an ASCII-only literal of the wire format. *)
Definition bytes (s : string) : list byte :=
  map (fun c => match Byte.of_N c with Some b => b | None => x00 end) (js s).

End TextDecoder.

Import TextDecoder.

(** ** JSON values and the Number type *)

Module JSON.

(** A Number value: an IEEE 754 double. A finite non-zero double is
    [mant * 2^expo] with [2^52 <= mant < 2^53], or with [expo = -1074] and
    [0 < mant < 2^52] for the subnormals. JSON has no NaN. *)
Inductive number :=
  | NumZero (neg : bool)
  | NumFinite (neg : bool) (mant : N) (expo : Z)
  | NumInfinity (neg : bool).

Definition pow10 (e : Z) : N := 10 ^ Z.to_N e.
Definition pow2 (e : Z) : N := 2 ^ Z.to_N e.

(** The exact comparison of [a * 10^t] with [b * 2^p]. *)
Definition cmp_dec_bin (a : N) (t : Z) (b : N) (p : Z) : comparison :=
  (a * pow10 t * pow2 (- p) ?= b * pow2 p * pow10 (- t)).

(** The double nearest to [m * 10^e10], ties to even (the rounding of
    numeric literals). *)
Definition round_to_double (neg : bool) (m : N) (e10 : Z) : number :=
  if N.eqb m 0 then NumZero neg else
  let num := m * pow10 e10 in
  let den := pow10 (- e10) in
  let l0 := (Z.of_N (N.log2 num) - Z.of_N (N.log2 den))%Z in
  let l := if (den * pow2 l0 <=? num * pow2 (- l0)) then l0 else (l0 - 1)%Z in
  let q := Z.max (l - 52) (-1074) in
  let a := num * pow2 (- q) in
  let b := den * pow2 q in
  let m0 := a / b in
  let r := a mod b in
  let up := match 2 * r ?= b with
            | Gt => true
            | Eq => N.odd m0
            | Lt => false
            end in
  let m1 := if up then m0 + 1 else m0 in
  let '(m2, q2) := if N.eqb m1 (2 ^ 53) then (2 ^ 52, (q + 1)%Z) else (m1, q) in
  if N.eqb m2 0 then NumZero neg
  else if (971 <? q2)%Z then NumInfinity neg
  else NumFinite neg m2 q2.

(** *** Number::toString *)

(** The least [j] from [j0] on with [x * 10^j >= 1], for [x = xn / xd]. *)
Fixpoint small_exponent (fuel : nat) (xn xd : N) (j : Z) : Z :=
  match fuel with
  | O => j
  | S f => if xd <=? xn * pow10 j then j else small_exponent f xn xd (j + 1)
  end.

(** [n] with [10^(n-1) <= mant * 2^expo < 10^n]. *)
Definition decimal_exponent (mant : N) (expo : Z) : Z :=
  let xn := mant * pow2 expo in
  let xd := pow2 (- expo) in
  if xd <=? xn then Z.of_nat (length (decimal (xn / xd)))
  else (1 - small_exponent 400 xn xd 0)%Z.

(** Whether [s * 10^t] rounds to the double [mant * 2^expo]: it lies
    between the midpoints to the neighbouring doubles, the midpoints
    included when [mant] is even. Bounds are in units of [2^(expo-2)]. *)
Definition rounds_to (mant : N) (expo : Z) (s : N) (t : Z) : bool :=
  let below := if N.eqb mant (2 ^ 52) && (-1074 <? expo)%Z then 1 else 2 in
  let lo := 4 * mant - below in
  let hi := 4 * mant + 2 in
  let clo := cmp_dec_bin s t lo (expo - 2) in
  let chi := cmp_dec_bin s t hi (expo - 2) in
  if N.even mant
  then negb (bool_decide (clo = Lt)) && negb (bool_decide (chi = Gt))
  else bool_decide (clo = Gt) && bool_decide (chi = Lt).

(** The digits [s] and exponent [n] of Number::toString for [k] digits, if
    some [k]-digit decimal rounds to the double: of the two [k]-digit
    decimals around it the one that rounds to it, the closer one when both
    do, the even one when they are equally close. *)
Definition shortest_at (mant : N) (expo : Z) (n0 : Z) (k : Z) : option (N * Z) :=
  let t := (n0 - k)%Z in
  let s_lo := (mant * pow2 expo * pow10 (- t)) / (pow2 (- expo) * pow10 t) in
  let s_hi := s_lo + 1 in
  let norm s := if N.eqb s (pow10 k) then (pow10 (k - 1), (n0 + 1)%Z) else (s, n0) in
  match rounds_to mant expo s_lo t, rounds_to mant expo s_hi t with
  | true, true =>
      match cmp_dec_bin (2 * s_lo + 1) t mant (expo + 1) with
      | Gt => Some (norm s_lo)
      | Lt => Some (norm s_hi)
      | Eq => Some (norm (if N.even s_lo then s_lo else s_hi))
      end
  | true, false => Some (norm s_lo)
  | false, true => Some (norm s_hi)
  | false, false => None
  end.

(** The least number of digits for which a decimal rounds to the double. *)
Fixpoint shortest_from (fuel : nat) (mant : N) (expo : Z) (n0 : Z) (k : Z)
  : N * Z * Z :=
  match fuel with
  | O => (mant, k, n0)
  | S f =>
      match shortest_at mant expo n0 k with
      | Some (s, n) => (s, k, n)
      | None => shortest_from f mant expo n0 (k + 1)
      end
  end.

Definition zeros (n : Z) : jsstring := repeat 48 (Z.to_nat n).

(** The text of a positive finite double with digits [s] ([k] of them) and
    exponent [n]. *)
Definition format_digits (s : N) (k n : Z) : jsstring :=
  let ds := decimal s in
  if (k <=? n)%Z && (n <=? 21)%Z then ds ++ zeros (n - k)
  else if (0 <? n)%Z && (n <=? 21)%Z then
    take (Z.to_nat n) ds ++ [46] ++ drop (Z.to_nat n) ds
  else if (-6 <? n)%Z && (n <=? 0)%Z then [48; 46] ++ zeros (- n) ++ ds
  else
    let e := (n - 1)%Z in
    let sign := if (e <? 0)%Z then 45 else 43 in
    let ex := [101; sign] ++ decimal (Z.to_N (Z.abs e)) in
    match ds with
    | [d] => [d] ++ ex
    | d :: more => [d; 46] ++ more ++ ex
    | [] => ex
    end.

Definition number_to_string (x : number) : jsstring :=
  match x with
  | NumZero _ => lit "0"
  | NumInfinity neg => (if neg then [45] else []) ++ lit "Infinity"
  | NumFinite neg mant expo =>
      let '(s, k, n) :=
        shortest_from 17 mant expo (decimal_exponent mant expo) 1 in
      (if neg then [45] else []) ++ format_digits s k n
  end.

(** *** Values *)

#[local] Set Warnings "-register-all".

Inductive json :=
  | JNull
  | JBool (b : bool)
  | JNumber (x : number)
  | JString (s : jsstring)
  | JArray (elements : list json)
  | JObject (members : list (jsstring * json)).

(** *** JSON.parse *)

Inductive res (A : Type) :=
  | Ok (a : A) (rest : jsstring)
  | Err
  | OutOfFuel.
Arguments Ok {A} a rest.
Arguments Err {A}.
Arguments OutOfFuel {A}.

(** JSONWhiteSpace: tab, line feed, carriage return, space. *)
Definition is_ws (c : N) : bool :=
  N.eqb c 9 || N.eqb c 10 || N.eqb c 13 || N.eqb c 32.

Fixpoint skip_ws (s : jsstring) : jsstring :=
  match s with
  | c :: s' => if is_ws c then skip_ws s' else s
  | [] => []
  end.

Definition is_digit (c : N) : bool := (48 <=? c) && (c <=? 57).

Definition hex_value (c : N) : option N :=
  if is_digit c then Some (c - 48)
  else if (97 <=? c) && (c <=? 102) then Some (c - 87)
  else if (65 <=? c) && (c <=? 70) then Some (c - 55)
  else None.

Definition hex4 (a b c d : N) : option N :=
  match hex_value a, hex_value b, hex_value c, hex_value d with
  | Some x, Some y, Some z, Some w => Some (((x * 16 + y) * 16 + z) * 16 + w)
  | _, _, _, _ => None
  end.

Definition cons_fst (c : N) (r : option (jsstring * jsstring))
  : option (jsstring * jsstring) :=
  match r with
  | Some (str, rest) => Some (c :: str, rest)
  | None => None
  end.

(** The character a one-letter escape stands for. *)
Definition unescape (e : N) : option N :=
  if N.eqb e 34 || N.eqb e 47 || N.eqb e 92 then Some e
  else if N.eqb e 98 then Some 8
  else if N.eqb e 102 then Some 12
  else if N.eqb e 110 then Some 10
  else if N.eqb e 114 then Some 13
  else if N.eqb e 116 then Some 9
  else None.

(** The characters of a JSONString after its opening quote, up to and
    including the closing quote: a quote ends the string; a backslash
    starts an escape ([u] and four hexadecimal digits, or one letter); a
    control character is refused. *)
Fixpoint parse_string (s : jsstring) : option (jsstring * jsstring) :=
  match s with
  | [] => None
  | c :: rest =>
      if N.eqb c 34 then Some ([], rest)
      else if N.eqb c 92 then
        match rest with
        | [] => None
        | e :: rest1 =>
            if N.eqb e 117 then
              match rest1 with
              | a :: b :: c' :: d :: rest2 =>
                  match hex4 a b c' d with
                  | Some u => cons_fst u (parse_string rest2)
                  | None => None
                  end
              | _ => None
              end
            else
              match unescape e with
              | Some x => cons_fst x (parse_string rest1)
              | None => None
              end
        end
      else if c <? 32 then None
      else cons_fst c (parse_string rest)
  end.

(** The longest run of decimal digits at the head of [s]. *)
Fixpoint span_digits (s : jsstring) : jsstring * jsstring :=
  match s with
  | c :: s' =>
      if is_digit c then let '(ds, rest) := span_digits s' in (c :: ds, rest)
      else ([], s)
  | [] => ([], [])
  end.

Definition digits_value (ds : jsstring) : N :=
  fold_left (fun acc c => acc * 10 + (c - 48)) ds 0.

(** JSONNumber: an optional minus sign; an integer part, which is a single
    zero or a run of digits that starts with a non-zero one; an optional
    fraction, a point and at least one digit; an optional exponent, [e] or
    [E], an optional sign and at least one digit. *)
Definition parse_number (s : jsstring) : option (number * jsstring) :=
  let '(neg, s1) := match s with 45 :: r => (true, r) | _ => (false, s) end in
  let '(int, s2) := span_digits s1 in
  match int with
  | [] => None
  | d :: more =>
      if N.eqb d 48 && negb (bool_decide (more = [])) then
        (* a leading zero ends the integer part *)
        Some (NumZero neg, drop 1 s1)
      else
        let '(frac, s3) :=
          match s2 with
          | 46 :: r => let '(fs, r') := span_digits r in
                       match fs with [] => ([], s2) | _ => (fs, r') end
          | _ => ([], s2)
          end in
        let '(ex, s4) :=
          match s3 with
          | c :: r =>
              if N.eqb c 101 || N.eqb c 69 then
                let '(eneg, r1) :=
                  match r with
                  | 45 :: r' => (true, r')
                  | 43 :: r' => (false, r')
                  | _ => (false, r)
                  end in
                let '(es, r2) := span_digits r1 in
                match es with
                | [] => (0%Z, s3)
                | _ => let v := Z.of_N (digits_value es) in
                       ((if eneg then - v else v)%Z, r2)
                end
              else (0%Z, s3)
          | [] => (0%Z, s3)
          end in
        Some (round_to_double neg (digits_value (int ++ frac))
                (ex - Z.of_nat (length frac)), s4)
  end.

(** Whether [s] begins with the code unit [c]. *)
Definition head_is (c : N) (s : jsstring) : bool :=
  match s with
  | x :: _ => N.eqb x c
  | [] => false
  end.

(** A JSONValue at the head of [s] (white space already skipped), the
    elements of an array after its first white space, the members of an
    object likewise. Each call spends one unit of [fuel]. *)
Fixpoint parse_value (fuel : nat) (s : jsstring) : res json :=
  match fuel with
  | O => OutOfFuel
  | S f =>
      if head_is 123 s then
        let r := skip_ws (drop 1 s) in
        if head_is 125 r then Ok (JObject []) (drop 1 r)
        else parse_members f r []
      else if head_is 91 s then
        let r := skip_ws (drop 1 s) in
        if head_is 93 r then Ok (JArray []) (drop 1 r)
        else parse_elements f r []
      else if head_is 34 s then
        match parse_string (drop 1 s) with
        | Some (str, r) => Ok (JString str) r
        | None => Err
        end
      else if startsWith s (lit "true") then Ok (JBool true) (drop 4 s)
      else if startsWith s (lit "false") then Ok (JBool false) (drop 5 s)
      else if startsWith s (lit "null") then Ok JNull (drop 4 s)
      else
        match parse_number s with
        | Some (x, r) => Ok (JNumber x) r
        | None => Err
        end
  end

with parse_elements (fuel : nat) (s : jsstring) (acc : list json) : res json :=
  match fuel with
  | O => OutOfFuel
  | S f =>
      match parse_value f s with
      | Ok v r =>
          let r' := skip_ws r in
          if head_is 44 r' then parse_elements f (skip_ws (drop 1 r')) (v :: acc)
          else if head_is 93 r' then Ok (JArray (rev (v :: acc))) (drop 1 r')
          else Err
      | Err => Err
      | OutOfFuel => OutOfFuel
      end
  end

with parse_members (fuel : nat) (s : jsstring) (acc : list (jsstring * json))
  : res json :=
  match fuel with
  | O => OutOfFuel
  | S f =>
      if head_is 34 s then
        match parse_string (drop 1 s) with
        | Some (key, r1) =>
            let r1' := skip_ws r1 in
            if head_is 58 r1' then
              match parse_value f (skip_ws (drop 1 r1')) with
              | Ok v r3 =>
                  let r3' := skip_ws r3 in
                  if head_is 44 r3' then
                    parse_members f (skip_ws (drop 1 r3')) ((key, v) :: acc)
                  else if head_is 125 r3' then
                    Ok (JObject (rev ((key, v) :: acc))) (drop 1 r3')
                  else Err
              | Err => Err
              | OutOfFuel => OutOfFuel
              end
            else Err
        | None => Err
        end
      else Err
  end.

(** JSONText: one value between optional white space. *)
Definition parse_text (fuel : nat) (text : jsstring) : res json :=
  match parse_value fuel (skip_ws text) with
  | Ok v r => match skip_ws r with [] => Ok v [] | _ => Err end
  | Err => Err
  | OutOfFuel => OutOfFuel
  end.

(** [JSON.parse(text)]; [None] is a thrown SyntaxError. *)
Definition JSON_parse (text : jsstring) : option json :=
  match parse_text (2 * length text + 1) text with
  | Ok v _ => Some v
  | _ => None
  end.

(** *** Operations on parsed values *)

(** A JavaScript value as the consumer sees it: a parsed JSON value or
    [undefined]. *)
Definition jsvalue := option json.

(** The value of the last member named [key]: [JSON.parse] lets a later
    duplicate overwrite an earlier one. *)
Fixpoint own_property (key : jsstring) (members : list (jsstring * json))
  : jsvalue :=
  match members with
  | [] => None
  | (k, v) :: more =>
      match own_property key more with
      | Some v' => Some v'
      | None => if jsstring_eqb k key then Some v else None
      end
  end.

(** [parsed.key] for a property name that no built-in prototype defines and
    that is neither an index nor [length] (the consumer reads [done] and
    [content]). [None] is the TypeError of reading a property of [null]. *)
Definition get (parsed : json) (key : jsstring) : option jsvalue :=
  match parsed with
  | JNull => None
  | JObject members => Some (own_property key members)
  | _ => Some None
  end.

(** ToBoolean *)
Definition truthy (v : jsvalue) : bool :=
  match v with
  | None => false
  | Some JNull => false
  | Some (JBool b) => b
  | Some (JNumber (NumZero _)) => false
  | Some (JNumber _) => true
  | Some (JString s) => negb (jsstring_eqb s [])
  | Some (JArray _) => true
  | Some (JObject _) => true
  end.

Definition has_own (key : jsstring) (members : list (jsstring * json)) : bool :=
  match own_property key members with Some _ => true | None => false end.

(** The string that [text + v] appends for a string [text]: ToString of
    ToPrimitive of [v]. An array is joined with commas, [null] elements
    printing as the empty string; an object prints as [[object Object]]
    unless it has an own [toString] member, which is not callable and
    leaves no way to a primitive: [None] is that TypeError. *)
Fixpoint to_string (v : json) : option jsstring :=
  match v with
  | JNull => Some (lit "null")
  | JBool b => Some (lit (if b then "true" else "false"))
  | JNumber x => Some (number_to_string x)
  | JString s => Some s
  | JArray elements =>
      (fix join (l : list json) : option jsstring :=
         match l with
         | [] => Some []
         | e :: more =>
             let item := match e with JNull => Some [] | _ => to_string e end in
             match item, more with
             | Some i, [] => Some i
             | Some i, _ :: _ =>
                 match join more with
                 | Some r => Some (i ++ [44] ++ r)
                 | None => None
                 end
             | None, _ => None
             end
         end) elements
  | JObject members =>
      if has_own (lit "toString") members then None
      else Some (lit "[object Object]")
  end.

End JSON.

Import JSON.

(** ** The application *)

Module App.

Inductive Role := user | assistant.

#[global] Instance Role_eq_dec : EqDecision Role.
Proof. solve_decision. Defined.

(** A message object: [{role, content, timestamp, liked}]. The timestamp is
    kept as the instant read from the clock (the source stores its ISO 8601
    text). *)
Record message := {
  role : Role;
  content : jsstring;
  timestamp : N;
  liked : option bool
}.

(** Message objects are shared: the streaming message is referenced from
    [state.currentStreamMessage] and, once pushed, from [chat.messages].
    They live in a store and are referred to by their position in it. *)
Abbreviation loc := nat.

(** A chat object; [messages] refers to message objects. *)
Record chat := {
  id : jsstring;
  title : jsstring;
  messages : list loc;
  createdAt : N;
  model : jsstring;
  pinned : bool
}.

(** What the consumer hands to the page: a piece of the reply appended to
    [state.currentStreamResponse] and shown, or the end of the reply. *)
Inductive StreamEvent :=
  | ContentDelta (text : jsstring)
  | Completion.

#[global] Instance StreamEvent_eq_dec : EqDecision StreamEvent.
Proof. solve_decision. Defined.

(** The calls to [console.error]. *)
Inductive console_entry :=
  | ErrorParsingStreamData
  | SendMessageFailed (msg : jsstring)
  | ErrorSavingChat
  | ErrorCreatingChat
  | ErrorDeletingChatFromBackend
  | ErrorDeletingChat.

Inductive http_method := POST | PUT.

(** The requests sent to the server. A chat is sent as [JSON.stringify]
    prints it at that moment: with the messages it refers to. Of the body
    of a chat request the prompt, the model and the history are kept
    ([stream] is always [true]; [max_tokens] comes from the configuration
    of the models, which is not modelled). *)
Inductive request :=
  | SaveChat (method : http_method) (c : chat) (msgs : list message)
  | DeleteChat (chatId : jsstring)
  | ChatRequest (prompt model : jsstring) (chat_history : list (Role * jsstring)).

(** How the body of a streamed response ends: [reader.read()] reports
    [done], or it rejects. *)
Inductive stream_end :=
  | EndOfStream
  | ReadFails (msg : jsstring).

(** The result of [fetch] on the chat endpoint: a rejection, or a response
    with its status and the chunks its body reader will deliver. A
    response with a null body status has no body: its [body] is [null]
    and the chunks are of no account. *)
Inductive fetch_result :=
  | FetchFails (msg : jsstring)
  | Response (status : N) (body : list (list byte)) (fin : stream_end).

(** The world around the page: the clock, whether the chat store accepts
    the request issued as the [n]-th of the session, what the chat
    endpoint answers to the request issued as the [n]-th, and the message
    of the TypeError that the engine throws when [getReader] is read off a
    [null] body. A successful save answers with the chat it was sent. *)
Record env := {
  clock : nat -> N;
  store_ok : nat -> bool;
  chat_api : nat -> fetch_result;
  getReader_of_null : jsstring
}.

(** The [state] object of the source (the fields [sendMessage] and the
    functions it calls touch), the two form controls it reads, with the
    values of the options of the model selector, and the effects it has
    had. *)
Record state := {
  currentChatId : option jsstring;
  chats : gmap jsstring chat;
  isWaitingForResponse : bool;
  currentFile : bool;
  currentStreamResponse : jsstring;
  isStreaming : bool;
  currentStreamMessage : option loc;
  textInput : jsstring;
  modelSelector : jsstring;
  modelOptions : list jsstring;
  availableModels : list jsstring;
  objects : list message;
  ticks : nat;
  requests : list request;
  console : list console_entry;
  alerts : nat;
  events : list StreamEvent
}.

Definition set_currentChatId (v : option jsstring) (st : state) : state :=
  {| currentChatId := v; chats := chats st;
     isWaitingForResponse := isWaitingForResponse st;
     currentFile := currentFile st;
     currentStreamResponse := currentStreamResponse st;
     isStreaming := isStreaming st;
     currentStreamMessage := currentStreamMessage st;
     textInput := textInput st; modelSelector := modelSelector st;
     modelOptions := modelOptions st;
     availableModels := availableModels st;
     objects := objects st; ticks := ticks st; requests := requests st;
     console := console st; alerts := alerts st; events := events st |}.

Definition set_chats (v : gmap jsstring chat) (st : state) : state :=
  {| currentChatId := currentChatId st; chats := v;
     isWaitingForResponse := isWaitingForResponse st;
     currentFile := currentFile st;
     currentStreamResponse := currentStreamResponse st;
     isStreaming := isStreaming st;
     currentStreamMessage := currentStreamMessage st;
     textInput := textInput st; modelSelector := modelSelector st;
     modelOptions := modelOptions st;
     availableModels := availableModels st;
     objects := objects st; ticks := ticks st; requests := requests st;
     console := console st; alerts := alerts st; events := events st |}.

(** [state.isWaitingForResponse = b; state.isStreaming = b] *)
Definition set_busy (b : bool) (st : state) : state :=
  {| currentChatId := currentChatId st; chats := chats st;
     isWaitingForResponse := b;
     currentFile := currentFile st;
     currentStreamResponse := currentStreamResponse st;
     isStreaming := b;
     currentStreamMessage := currentStreamMessage st;
     textInput := textInput st; modelSelector := modelSelector st;
     modelOptions := modelOptions st;
     availableModels := availableModels st;
     objects := objects st; ticks := ticks st; requests := requests st;
     console := console st; alerts := alerts st; events := events st |}.

Definition set_currentFile (v : bool) (st : state) : state :=
  {| currentChatId := currentChatId st; chats := chats st;
     isWaitingForResponse := isWaitingForResponse st;
     currentFile := v;
     currentStreamResponse := currentStreamResponse st;
     isStreaming := isStreaming st;
     currentStreamMessage := currentStreamMessage st;
     textInput := textInput st; modelSelector := modelSelector st;
     modelOptions := modelOptions st;
     availableModels := availableModels st;
     objects := objects st; ticks := ticks st; requests := requests st;
     console := console st; alerts := alerts st; events := events st |}.

Definition set_currentStreamResponse (v : jsstring) (st : state) : state :=
  {| currentChatId := currentChatId st; chats := chats st;
     isWaitingForResponse := isWaitingForResponse st;
     currentFile := currentFile st;
     currentStreamResponse := v;
     isStreaming := isStreaming st;
     currentStreamMessage := currentStreamMessage st;
     textInput := textInput st; modelSelector := modelSelector st;
     modelOptions := modelOptions st;
     availableModels := availableModels st;
     objects := objects st; ticks := ticks st; requests := requests st;
     console := console st; alerts := alerts st; events := events st |}.

Definition set_currentStreamMessage (v : option loc) (st : state) : state :=
  {| currentChatId := currentChatId st; chats := chats st;
     isWaitingForResponse := isWaitingForResponse st;
     currentFile := currentFile st;
     currentStreamResponse := currentStreamResponse st;
     isStreaming := isStreaming st;
     currentStreamMessage := v;
     textInput := textInput st; modelSelector := modelSelector st;
     modelOptions := modelOptions st;
     availableModels := availableModels st;
     objects := objects st; ticks := ticks st; requests := requests st;
     console := console st; alerts := alerts st; events := events st |}.

Definition set_textInput (v : jsstring) (st : state) : state :=
  {| currentChatId := currentChatId st; chats := chats st;
     isWaitingForResponse := isWaitingForResponse st;
     currentFile := currentFile st;
     currentStreamResponse := currentStreamResponse st;
     isStreaming := isStreaming st;
     currentStreamMessage := currentStreamMessage st;
     textInput := v; modelSelector := modelSelector st;
     modelOptions := modelOptions st;
     availableModels := availableModels st;
     objects := objects st; ticks := ticks st; requests := requests st;
     console := console st; alerts := alerts st; events := events st |}.

Definition set_modelSelector (v : jsstring) (st : state) : state :=
  {| currentChatId := currentChatId st; chats := chats st;
     isWaitingForResponse := isWaitingForResponse st;
     currentFile := currentFile st;
     currentStreamResponse := currentStreamResponse st;
     isStreaming := isStreaming st;
     currentStreamMessage := currentStreamMessage st;
     textInput := textInput st; modelSelector := v;
     modelOptions := modelOptions st;
     availableModels := availableModels st;
     objects := objects st; ticks := ticks st; requests := requests st;
     console := console st; alerts := alerts st; events := events st |}.

Definition set_objects (v : list message) (st : state) : state :=
  {| currentChatId := currentChatId st; chats := chats st;
     isWaitingForResponse := isWaitingForResponse st;
     currentFile := currentFile st;
     currentStreamResponse := currentStreamResponse st;
     isStreaming := isStreaming st;
     currentStreamMessage := currentStreamMessage st;
     textInput := textInput st; modelSelector := modelSelector st;
     modelOptions := modelOptions st;
     availableModels := availableModels st;
     objects := v; ticks := ticks st; requests := requests st;
     console := console st; alerts := alerts st; events := events st |}.

Definition set_ticks (v : nat) (st : state) : state :=
  {| currentChatId := currentChatId st; chats := chats st;
     isWaitingForResponse := isWaitingForResponse st;
     currentFile := currentFile st;
     currentStreamResponse := currentStreamResponse st;
     isStreaming := isStreaming st;
     currentStreamMessage := currentStreamMessage st;
     textInput := textInput st; modelSelector := modelSelector st;
     modelOptions := modelOptions st;
     availableModels := availableModels st;
     objects := objects st; ticks := v; requests := requests st;
     console := console st; alerts := alerts st; events := events st |}.

Definition set_requests (v : list request) (st : state) : state :=
  {| currentChatId := currentChatId st; chats := chats st;
     isWaitingForResponse := isWaitingForResponse st;
     currentFile := currentFile st;
     currentStreamResponse := currentStreamResponse st;
     isStreaming := isStreaming st;
     currentStreamMessage := currentStreamMessage st;
     textInput := textInput st; modelSelector := modelSelector st;
     modelOptions := modelOptions st;
     availableModels := availableModels st;
     objects := objects st; ticks := ticks st; requests := v;
     console := console st; alerts := alerts st; events := events st |}.

Definition set_console (v : list console_entry) (st : state) : state :=
  {| currentChatId := currentChatId st; chats := chats st;
     isWaitingForResponse := isWaitingForResponse st;
     currentFile := currentFile st;
     currentStreamResponse := currentStreamResponse st;
     isStreaming := isStreaming st;
     currentStreamMessage := currentStreamMessage st;
     textInput := textInput st; modelSelector := modelSelector st;
     modelOptions := modelOptions st;
     availableModels := availableModels st;
     objects := objects st; ticks := ticks st; requests := requests st;
     console := v; alerts := alerts st; events := events st |}.

Definition set_alerts (v : nat) (st : state) : state :=
  {| currentChatId := currentChatId st; chats := chats st;
     isWaitingForResponse := isWaitingForResponse st;
     currentFile := currentFile st;
     currentStreamResponse := currentStreamResponse st;
     isStreaming := isStreaming st;
     currentStreamMessage := currentStreamMessage st;
     textInput := textInput st; modelSelector := modelSelector st;
     modelOptions := modelOptions st;
     availableModels := availableModels st;
     objects := objects st; ticks := ticks st; requests := requests st;
     console := console st; alerts := v; events := events st |}.

Definition set_events (v : list StreamEvent) (st : state) : state :=
  {| currentChatId := currentChatId st; chats := chats st;
     isWaitingForResponse := isWaitingForResponse st;
     currentFile := currentFile st;
     currentStreamResponse := currentStreamResponse st;
     isStreaming := isStreaming st;
     currentStreamMessage := currentStreamMessage st;
     textInput := textInput st; modelSelector := modelSelector st;
     modelOptions := modelOptions st;
     availableModels := availableModels st;
     objects := objects st; ticks := ticks st; requests := requests st;
     console := console st; alerts := alerts st; events := v |}.

(** The models as [loadAvailableModels] leaves them:
    [state.availableModels] and the options of the selector, one for each
    model. *)
Definition set_models (models : list jsstring) (st : state) : state :=
  {| currentChatId := currentChatId st; chats := chats st;
     isWaitingForResponse := isWaitingForResponse st;
     currentFile := currentFile st;
     currentStreamResponse := currentStreamResponse st;
     isStreaming := isStreaming st;
     currentStreamMessage := currentStreamMessage st;
     textInput := textInput st; modelSelector := modelSelector st;
     modelOptions := models;
     availableModels := models;
     objects := objects st; ticks := ticks st; requests := requests st;
     console := console st; alerts := alerts st; events := events st |}.

(** The page as it loads: the initial value of [state], empty controls. *)
Definition initial : state :=
  {| currentChatId := None; chats := ∅;
     isWaitingForResponse := false; currentFile := false;
     currentStreamResponse := []; isStreaming := false;
     currentStreamMessage := None;
     textInput := []; modelSelector := [];
     modelOptions := []; availableModels := [];
     objects := []; ticks := 0%nat; requests := []; console := [];
     alerts := 0%nat; events := [] |}.

(** *** Calls that change the state and may throw *)

(** The result of running a function of the source to its end: it returns
    (an async function: its promise is fulfilled) or throws (its promise is
    rejected), and leaves a state either way. *)
Inductive outcome (A : Type) :=
  | Returns (a : A) (st : state)
  | Throws (st : state).
Arguments Returns {A} a st.
Arguments Throws {A} st.

Definition M (A : Type) : Type := state -> outcome A.

Definition ret {A} (a : A) : M A := fun st => Returns a st.

Definition bind {A B} (c : M A) (k : A -> M B) : M B :=
  fun st =>
    match c st with
    | Returns a st' => k a st'
    | Throws st' => Throws st'
    end.

Notation "x <- c ;; k" := (bind c (fun x => k))
  (at level 90, c at next level, right associativity).
Notation "c ;;; k" := (bind c (fun _ => k))
  (at level 90, right associativity).

Definition gets {A} (f : state -> A) : M A := fun st => Returns (f st) st.

Definition modify (f : state -> state) : M unit := fun st => Returns tt (f st).

(** [try { c } catch (e) { h }] *)
Definition try_catch {A} (c h : M A) : M A :=
  fun st =>
    match c st with
    | Returns a st' => Returns a st'
    | Throws st' => h st'
    end.

(** The state a call leaves, however it ends. *)
Definition final {A} (o : outcome A) : state :=
  match o with
  | Returns _ st => st
  | Throws st => st
  end.

(** [Date.now()] and [new Date()]: the next reading of the clock. *)
Definition read_clock (e : env) : M N :=
  fun st => Returns (clock e (ticks st)) (set_ticks (S (ticks st)) st).

Definition console_error (x : console_entry) : M unit :=
  modify (fun st => set_console (console st ++ [x]) st).

Definition alert : M unit :=
  modify (fun st => set_alerts (S (alerts st)) st).

(** A new message object. *)
Definition new_message (m : message) : M loc :=
  fun st => Returns (length (objects st)) (set_objects (objects st ++ [m]) st).

Definition with_content (text : jsstring) (m : message) : message :=
  {| role := role m; content := text; timestamp := timestamp m;
     liked := liked m |}.

(** [chat.messages.push(l)] *)
Definition push_message (l : loc) (c : chat) : chat :=
  {| id := id c; title := title c; messages := messages c ++ [l];
     createdAt := createdAt c; model := model c; pinned := pinned c |}.

Definition with_title (t : jsstring) (c : chat) : chat :=
  {| id := id c; title := t; messages := messages c;
     createdAt := createdAt c; model := model c; pinned := pinned c |}.

Definition with_model (m : jsstring) (c : chat) : chat :=
  {| id := id c; title := title c; messages := messages c;
     createdAt := createdAt c; model := m; pinned := pinned c |}.

(** The messages a chat refers to, as they are now. *)
Definition snapshot (st : state) (c : chat) : list message :=
  omap (fun l => objects st !! l) (messages c).

(** ToBoolean of [state.currentChatId]: [null] and the empty string are
    falsy. *)
Definition truthy_id (cid : option jsstring) : bool :=
  match cid with
  | Some (_ :: _) => true
  | _ => false
  end.

(** [state.chats.get(state.currentChatId)] *)
Definition current_chat (st : state) : option chat :=
  match currentChatId st with
  | Some key => chats st !! key
  | None => None
  end.

(** *** The chat store *)

(** [saveChatToBackend(chat)]: a PUT for a chat the page knows, a POST
    otherwise; a failure is logged and thrown again. *)
Definition saveChatToBackend (e : env) (c : chat) : M chat :=
  fun st =>
    let method :=
      if bool_decide (is_Some (chats st !! id c)) then PUT else POST in
    let st1 :=
      set_requests (requests st ++ [SaveChat method c (snapshot st c)]) st in
    if store_ok e (length (requests st)) then Returns c st1
    else Throws (set_console (console st1 ++ [ErrorSavingChat]) st1).

(** [deleteChatFromBackend(chatId)] *)
Definition deleteChatFromBackend (e : env) (chatId : jsstring) : M unit :=
  fun st =>
    let st1 := set_requests (requests st ++ [DeleteChat chatId]) st in
    if store_ok e (length (requests st)) then Returns tt st1
    else Throws (set_console (console st1 ++ [ErrorDeletingChatFromBackend]) st1).

(** [select.value = v] on the model selector: the first option whose
    value is [v] is selected; when there is none, no option is selected
    and the value read back is the empty string. *)
Definition select_value (options : list jsstring) (v : jsstring) : jsstring :=
  if bool_decide (v ∈ options) then v else [].

(** [chat.model || state.availableModels[0]], as a string: without a
    model of the chat and without a first model it is [undefined], which
    the assignment to [select.value] turns into a string. *)
Definition model_or_first (c : chat) (models : list jsstring) : jsstring :=
  match model c with
  | [] => match models with
          | m :: _ => m
          | [] => lit "undefined"
          end
  | _ :: _ => model c
  end.

(** [renderCurrentChat()]: of what it does, the assignment to the model
    selector; the rest draws the chat. *)
Definition renderCurrentChat : M unit :=
  cid <- gets currentChatId ;;
  if truthy_id cid then
    found <- gets current_chat ;;
    match found with
    | Some c =>
        modify (fun st =>
          set_modelSelector
            (select_value (modelOptions st)
               (model_or_first c (availableModels st))) st)
    | None => ret tt
    end
  else ret tt.

(** [createNewChat()] *)
Definition createNewChat (e : env) : M unit :=
  t <- read_clock e ;;
  let chatId := lit "chat_" ++ decimal t in
  created <- read_clock e ;;
  selected <- gets modelSelector ;;
  let c := {| id := chatId; title := lit "New Chat"; messages := [];
              createdAt := created; model := selected; pinned := false |} in
  try_catch
    (savedChat <- saveChatToBackend e c ;;
     modify (fun st =>
       set_currentChatId (Some chatId)
         (set_chats (<[chatId := savedChat]> (chats st)) st)) ;;;
     renderCurrentChat)
    (console_error ErrorCreatingChat ;;; alert).

(** [deleteChat(chatId)], the user having confirmed. The call of
    [renderCurrentChat] after the current chat was deleted finds no
    current chat and assigns nothing. *)
Definition deleteChat (e : env) (chatId : jsstring) : M unit :=
  try_catch
    (deleteChatFromBackend e chatId ;;;
     modify (fun st =>
       let st1 := set_chats (delete chatId (chats st)) st in
       if bool_decide (currentChatId st1 = Some chatId)
       then set_currentChatId None st1 else st1))
    (console_error ErrorDeletingChat ;;; alert).

(** The [change] listener of the model selector, the user having picked
    [m]: the current chat, if there is one, takes the model and is saved
    (the save is not awaited). *)
Definition selectModel (e : env) (m : jsstring) : M unit :=
  modify (set_modelSelector m) ;;;
  cid <- gets currentChatId ;;
  found <- gets current_chat ;;
  match cid, found with
  | Some k, Some c =>
      if truthy_id cid then
        let c1 := with_model m c in
        modify (fun st => set_chats (<[k := c1]> (chats st)) st) ;;;
        saveChatToBackend e c1 ;;;
        ret tt
      else ret tt
  | _, _ => ret tt
  end.

(** [addMessageToChat(role, content)] *)
Definition addMessageToChat (e : env) (r : Role) (text : jsstring) : M unit :=
  cid <- gets currentChatId ;;
  (if truthy_id cid then ret tt else createNewChat e) ;;;
  key <- gets currentChatId ;;
  found <- gets current_chat ;;
  match key, found with
  | Some k, Some c =>
      t <- read_clock e ;;
      l <- new_message {| role := r; content := text; timestamp := t;
                          liked := None |} ;;
      let c1 := push_message l c in
      let c2 :=
        if bool_decide (r = user) && bool_decide (length (messages c1) = 1%nat)
        then with_title
               (substring0 30 text
                  ++ (if (30 <? length text)%nat then lit "..." else []))
               c1
        else c1 in
      modify (fun st => set_chats (<[k := c2]> (chats st)) st) ;;;
      saveChatToBackend e c2 ;;;
      ret tt
  | _, _ => ret tt
  end.

(** [buildChatHistory()]: all messages of the current chat but the last. *)
Definition buildChatHistory (st : state) : list (Role * jsstring) :=
  if truthy_id (currentChatId st) then
    match current_chat st with
    | Some c =>
        (fun m => (role m, content m))
          <$> omap (fun l => objects st !! l) (removelast (messages c))
    | None => []
    end
  else [].

(** [updateStreamingMessage(content, messageElement)]: the streaming
    message, if there is one, gets the new content (the element it is shown
    in exists since [renderStreamingMessage] made it). *)
Definition updateStreamingMessage (text : jsstring) : M unit :=
  modify (fun st =>
    match currentStreamMessage st with
    | Some l => set_objects (alter (with_content text) l (objects st)) st
    | None => st
    end).

(** [handleSendMessageError(error)], [msg] being [error.message]. *)
Definition handleSendMessageError (e : env) (msg : jsstring) : M unit :=
  let text := lit "Connection error: " ++ msg in
  console_error (SendMessageFailed msg) ;;;
  modify (set_busy false) ;;;
  current <- gets currentStreamMessage ;;
  match current with
  | Some l =>
      modify (fun st => set_objects (alter (with_content text) l (objects st)) st) ;;;
      updateStreamingMessage text ;;;
      key <- gets currentChatId ;;
      found <- gets current_chat ;;
      match key, found with
      | Some k, Some c =>
          let c1 := push_message l c in
          modify (fun st => set_chats (<[k := c1]> (chats st)) st) ;;;
          saveChatToBackend e c1 ;;;
          ret tt
      | _, _ => ret tt
      end ;;;
      modify (set_currentStreamMessage None)
  | None => addMessageToChat e assistant text
  end ;;;
  modify (set_currentStreamResponse []).

(** The [catch] block of the second copy of [sendMessage] in the
    repository, which is written in place: it logs nothing, looks the chat
    up only under a truthy [state.currentChatId], and adds no message when
    there is no streaming message. *)
Definition catch_in_place (e : env) (msg : jsstring) : M unit :=
  let text := lit "Connection error: " ++ msg in
  modify (set_busy false) ;;;
  current <- gets currentStreamMessage ;;
  match current with
  | Some l =>
      modify (fun st => set_objects (alter (with_content text) l (objects st)) st) ;;;
      updateStreamingMessage text ;;;
      cid <- gets currentChatId ;;
      if truthy_id cid then
        found <- gets current_chat ;;
        match cid, found with
        | Some k, Some c =>
            let c1 := push_message l c in
            modify (fun st => set_chats (<[k := c1]> (chats st)) st) ;;;
            saveChatToBackend e c1 ;;;
            ret tt
        | _, _ => ret tt
        end
      else ret tt
  | None => ret tt
  end ;;;
  modify (set_currentStreamMessage None) ;;;
  modify (set_currentStreamResponse []).

(** *** The consumer *)

(** How the body of the [for] loop over the lines ends: the next line is
    taken, or [sendMessage] returns. *)
Inductive flow := Continue | Return.

(** The statements of the [parsed.done] branch between the reset of the
    flags and the reset of the streaming message: the message is pushed to
    the current chat and the chat saved. *)
Definition finalize (e : env) : M unit :=
  cid <- gets currentChatId ;;
  current <- gets currentStreamMessage ;;
  match current with
  | Some l =>
      if truthy_id cid then
        found <- gets current_chat ;;
        match cid, found with
        | Some k, Some c =>
            let c1 := push_message l c in
            modify (fun st => set_chats (<[k := c1]> (chats st)) st) ;;;
            saveChatToBackend e c1 ;;;
            ret tt
        | _, _ => ret tt
        end
      else ret tt
  | None => ret tt
  end.

(** The body of the [try] in the loop, for a payload that parsed. *)
Definition on_parsed (e : env) (parsed : json) : M flow :=
  match get parsed (lit "done") with
  | None => fun st => Throws st
  | Some d =>
      if truthy d then
        modify (fun st => set_events (events st ++ [Completion]) (set_busy false st)) ;;;
        finalize e ;;;
        modify (fun st => set_currentStreamResponse [] (set_currentStreamMessage None st)) ;;;
        ret Return
      else
        match get parsed (lit "content") with
        | None => fun st => Throws st
        | Some c =>
            if truthy c then
              match c ≫= to_string with
              | Some text =>
                  modify (fun st =>
                    set_events (events st ++ [ContentDelta text])
                      (set_currentStreamResponse (currentStreamResponse st ++ text) st)) ;;;
                  response <- gets currentStreamResponse ;;
                  updateStreamingMessage response ;;;
                  ret Continue
              | None => fun st => Throws st
              end
            else ret Continue
        end
  end.

(** The body of the loop over the lines of a chunk. *)
Definition process_line (e : env) (line : jsstring) (st : state) : flow * state :=
  if negb (startsWith line (lit "data: ")) then (Continue, st)
  else
    let data := slice 6 line in
    if jsstring_eqb data [] || jsstring_eqb data (lit "[DONE]") then (Continue, st)
    else
      let attempt :=
        match JSON_parse data with
        | Some parsed => on_parsed e parsed st
        | None => Throws st
        end in
      match attempt with
      | Returns f st' => (f, st')
      | Throws st' =>
          (Continue, set_console (console st' ++ [ErrorParsingStreamData]) st')
      end.

(** A [for ... of] loop whose body may make the function return: the body
    runs on each element in turn until it returns. *)
Fixpoint for_each {A} (body : A -> state -> flow * state) (l : list A)
    (st : state) : flow * state :=
  match l with
  | [] => (Continue, st)
  | x :: more =>
      match body x st with
      | (Return, st') => (Return, st')
      | (Continue, st') => for_each body more st'
      end
  end.

(** [for (const line of lines) { ... }] *)
Definition process_lines (e : env) (lines : list jsstring) (st : state)
  : flow * state :=
  for_each (process_line e) lines st.

(** The body of the [while] loop for a chunk that was read. *)
Definition process_chunk (e : env) (value : list byte) (st : state)
  : flow * state :=
  let chunk := decode value in
  let lines := split_nl chunk in
  process_lines e lines st.

(** How the [while (true)] loop ends: [sendMessage] returns or the loop is
    left at the end of the stream, with the chunks the reader still holds;
    or [reader.read()] throws. *)
Inductive loop_end :=
  | Finished (by_return : bool) (unread : list (list byte)) (st : state)
  | ReadThrew (msg : jsstring) (st : state).

Fixpoint read_loop (e : env) (body : list (list byte)) (fin : stream_end)
    (st : state) : loop_end :=
  match body with
  | [] =>
      match fin with
      | EndOfStream => Finished false [] st
      | ReadFails msg => ReadThrew msg st
      end
  | value :: rest =>
      match process_chunk e value st with
      | (Return, st') => Finished true rest st'
      | (Continue, st') => read_loop e rest fin st'
      end
  end.

(** [response.ok] *)
Definition response_ok (status : N) : bool := (200 <=? status) && (status <=? 299).

(** The null body statuses of the Fetch Standard: [response.body] of a
    response with such a status is [null]. *)
Definition null_body_status (status : N) : bool :=
  N.eqb status 101 || N.eqb status 103 || N.eqb status 204
  || N.eqb status 205 || N.eqb status 304.

(** The [try] block of [sendMessage] and its [catch]. On a response
    without a body, [response.body.getReader()] throws a TypeError. The
    call of [handleSendMessageError] is not awaited: what it throws is not
    thrown by [sendMessage]. *)
Definition request_and_consume (e : env) (prompt : jsstring) : M unit :=
  fun st =>
    let history := buildChatHistory st in
    let selected := modelSelector st in
    match (t <- read_clock e ;;
           l <- new_message {| role := assistant; content := [];
                               timestamp := t; liked := None |} ;;
           modify (set_currentStreamMessage (Some l))) st with
    | Throws st1 => Throws st1
    | Returns _ st1 =>
        let st2 :=
          set_requests (requests st1 ++ [ChatRequest prompt selected history]) st1 in
        let failed msg st' := Returns tt (final (handleSendMessageError e msg st')) in
        match chat_api e (length (requests st1)) with
        | FetchFails msg => failed msg st2
        | Response status body fin =>
            if response_ok status then
              if null_body_status status then failed (getReader_of_null e) st2
              else
                match read_loop e body fin st2 with
                | Finished _ _ st3 => Returns tt st3
                | ReadThrew msg st3 => failed msg st3
                end
            else failed (lit "HTTP error! status: " ++ decimal status) st2
        end
    end.

(** [sendMessage()] *)
Definition sendMessage (e : env) : M unit :=
  fun st =>
    let message := trim (textInput st) in
    if jsstring_eqb message [] || isWaitingForResponse st || isStreaming st
    then Returns tt st
    else
      (addMessageToChat e user message ;;;
       modify (set_textInput []) ;;;
       modify (set_currentFile false) ;;;
       modify (set_busy true) ;;;
       modify (set_currentStreamResponse []) ;;;
       request_and_consume e message) st.

End App.

Import App.

(** ** The vocabulary of the properties *)

Module Spec.

(** *** Chunks *)

(** The bytes of the chunk end where a character ends: the decoder is back
    in its initial state. *)
Definition at_boundary (c : list byte) : bool :=
  Nat.eqb (bytes_needed (snd (utf8_run utf8_init c))) 0.

(** The chunk decodes to a text that begins with a byte order mark. *)
Definition begins_with_bom (c : list byte) : bool :=
  bool_decide (head (utf8_decode c) = Some 65279).

(** The last byte of the chunk is a line feed. *)
Definition ends_with_lf (c : list byte) : bool :=
  match last c with
  | Some b => N.eqb (Byte.to_N b) 10
  | None => false
  end.

(** A split that cuts no character: every chunk but the last ends at a
    character boundary and no chunk but the first begins with a byte order
    mark. *)
Definition char_aligned (chunks : list (list byte)) : bool :=
  forallb at_boundary (removelast chunks)
  && forallb (fun c => negb (begins_with_bom c)) (tail chunks).

(** A split that cuts no line: every chunk but the last ends with a line
    feed and no chunk but the first begins with a byte order mark. *)
Definition line_aligned (chunks : list (list byte)) : bool :=
  forallb ends_with_lf (removelast chunks)
  && forallb (fun c => negb (begins_with_bom c)) (tail chunks).

(** The bytes are one character: the decoder takes them for one code
    point and is left between two characters. *)
Definition one_character (bs : list byte) : bool :=
  Nat.eqb (length (fst (utf8_run utf8_init bs))) 1 && at_boundary bs.

(** A decoder that waits for continuation bytes. *)
Definition pending (st : utf8_state) : Prop :=
  (0 < bytes_needed st)%nat
  /\ 128 <= lower_boundary st /\ upper_boundary st <= 191.

(** A continuation byte. *)
Definition continuation (x : byte) : Prop :=
  128 <= Byte.to_N x /\ Byte.to_N x <= 191.

(** *** Events *)

(** The texts of the content deltas, concatenated. *)
Definition delta_text (evs : list StreamEvent) : jsstring :=
  flat_map (fun ev => match ev with ContentDelta t => t | Completion => [] end) evs.

Definition is_completion (ev : StreamEvent) : bool :=
  match ev with Completion => true | ContentDelta _ => false end.

(** The state the loop leaves, and the message of the error it threw. *)
Definition end_state (r : loop_end) : state :=
  match r with
  | Finished _ _ st => st
  | ReadThrew _ st => st
  end.

Definition thrown (r : loop_end) : option jsstring :=
  match r with
  | Finished _ _ _ => None
  | ReadThrew msg _ => Some msg
  end.


(** A frame: the line [data: ] followed by a payload. *)
Definition frame (payload : jsstring) : jsstring := lit "data: " ++ payload.

(** A payload that the consumer hands to [JSON.parse] and that fails to
    parse. *)
Definition malformed (payload : jsstring) : Prop :=
  payload <> [] /\ payload <> lit "[DONE]" /\ JSON_parse payload = None.

(** *** Frames, as the specification sorts them

    The sorting of a line follows the words of the specification (section
    4.1, steps 3 to 7): a line that does not begin with the marker is
    ignored; an empty payload or [[DONE]] is a sentinel; a payload that
    cannot be decoded is skipped with an error; a truthy [done] completes;
    a non-empty [content] is a delta; any other frame says nothing. *)
Inductive frame_kind :=
  | Ignored
  | Sentinel
  | Undecodable
  | Done
  | Delta (text : jsstring)
  | Quiet.

Definition classify (line : jsstring) : frame_kind :=
  if negb (startsWith line (lit "data: ")) then Ignored
  else
    let data := slice 6 line in
    if jsstring_eqb data [] || jsstring_eqb data (lit "[DONE]") then Sentinel
    else
      match JSON_parse data with
      | None => Undecodable
      | Some parsed =>
          match get parsed (lit "done"), get parsed (lit "content") with
          | Some d, Some c =>
              if truthy d then Done
              else if truthy c then
                match c ≫= to_string with
                | Some text => Delta text
                | None => Undecodable
                end
              else Quiet
          | _, _ => Undecodable
          end
      end.

(** The effect of a delta: the text is appended to the response and the
    streaming message shows the response. *)
Definition deliver (text : jsstring) (st : state) : state :=
  let response := currentStreamResponse st ++ text in
  let st1 :=
    set_events (events st ++ [ContentDelta text])
      (set_currentStreamResponse response st) in
  match currentStreamMessage st1 with
  | Some l => set_objects (alter (with_content response) l (objects st1)) st1
  | None => st1
  end.

(** The effect of a skipped frame: one error on the console. *)
Definition report (st : state) : state :=
  set_console (console st ++ [ErrorParsingStreamData]) st.

(** The effect of a completion. *)
Definition complete (e : env) (st : state) : flow * state :=
  match finalize e (set_events (events st ++ [Completion]) (set_busy false st)) with
  | Returns _ st' =>
      (Return, set_currentStreamResponse [] (set_currentStreamMessage None st'))
  | Throws st' => (Continue, report st')
  end.

(** Entries put on the console before those of [st]. *)
Definition log_before (c : list console_entry) (st : state) : state :=
  set_console (c ++ console st) st.

(** The requests to the chat endpoint among the requests sent. *)
Definition is_chat_request (r : request) : bool :=
  match r with ChatRequest _ _ _ => true | _ => false end.

Definition chat_requests (st : state) : list request :=
  List.filter is_chat_request (requests st).

(** There is a chat to persist the streaming message into, as the
    [parsed.done] branch tests it. *)
Definition can_persist (st : state) : bool :=
  truthy_id (currentChatId st)
  && bool_decide (is_Some (currentStreamMessage st))
  && bool_decide (is_Some (current_chat st)).

(** The completions emitted so far. *)
Definition completions (st : state) : nat :=
  length (List.filter is_completion (events st)).


(** The part of the state that belongs to the stream is the same in two
    states: the events, the two flags, the requests to the chat
    endpoint. *)
Definition same_stream (s s' : state) : Prop :=
  events s' = events s
  /\ isStreaming s' = isStreaming s
  /\ isWaitingForResponse s' = isWaitingForResponse s
  /\ chat_requests s' = chat_requests s.

(** A call that leaves the stream alone, however it ends. *)
Definition quiet {A} (c : M A) : Prop :=
  forall st, same_stream st (final (c st)).

(** The state in which [sendMessage] sends its request for [prompt]: the
    streaming message is made, empty, and the request is on its way. *)
Definition requesting (e : env) (prompt : jsstring) (st : state) : state :=
  let m := {| role := assistant; content := []; timestamp := clock e (ticks st);
              liked := None |} in
  set_requests
    (requests st ++ [ChatRequest prompt (modelSelector st) (buildChatHistory st)])
    (set_currentStreamMessage (Some (length (objects st)))
       (set_objects (objects st ++ [m]) (set_ticks (S (ticks st)) st))).

(** A frame that carries a piece of the reply: its payload parses to an
    object whose [done] is not truthy and whose [content] is the
    non-empty string [text]. *)
Definition content_frame (line text : jsstring) : Prop :=
  exists payload members,
    line = frame payload /\ payload <> [] /\ payload <> lit "[DONE]"
    /\ JSON_parse payload = Some (JObject members)
    /\ truthy (own_property (lit "done") members) = false
    /\ own_property (lit "content") members = Some (JString text)
    /\ text <> [].

(** The lines of a stream of content frames, some of them broken: a
    content frame with its text, a frame whose payload fails to parse, or
    the empty line that [split] leaves after a line feed. *)
Inductive line_sort :=
  | Content (text : jsstring)
  | Broken
  | Empty.

Definition sorted_as (line : jsstring) (s : line_sort) : Prop :=
  match s with
  | Content text => content_frame line text
  | Broken => exists payload, line = frame payload /\ malformed payload
  | Empty => line = []
  end.

(** The events and the console entries that are due for such lines. *)
Definition deltas_of (sorts : list line_sort) : list StreamEvent :=
  flat_map (fun s => match s with Content text => [ContentDelta text] | _ => [] end)
    sorts.

Definition errors_of (sorts : list line_sort) : list console_entry :=
  flat_map (fun s => match s with Broken => [ErrorParsingStreamData] | _ => [] end)
    sorts.

(** The lines of the chunks, each chunk decoded and split on its own. *)
Definition lines_of (body : list (list byte)) : list jsstring :=
  flat_map (fun c => split_nl (decode c)) body.

(** The place, among the requests of the session, of the request that
    [sendMessage] sends to the chat endpoint from [st]: the requests of
    the page and the saves of the prompt come before it. *)
Definition chat_request_number (e : env) (st : state) : nat :=
  length (requests (final (addMessageToChat e user (trim (textInput st)) st))).

(** *** Sessions *)

(** What the user does on the page: types in the input, picks a model,
    asks for a new chat, deletes a chat (and confirms), sends. The other
    handlers of the page (loading, renaming, pinning or rating a chat,
    attaching a file, the music player) are not among these actions; none
    of them assigns [state.isStreaming] or [state.isWaitingForResponse]. *)
Inductive action :=
  | TypeText (text : jsstring)
  | SelectModel (m : jsstring)
  | NewChat
  | Delete (chatId : jsstring)
  | Send.

Definition perform (e : env) (a : action) (st : state) : state :=
  match a with
  | TypeText text => set_textInput text st
  | SelectModel m => final (selectModel e m st)
  | NewChat => final (createNewChat e st)
  | Delete chatId => final (deleteChat e chatId st)
  | Send => final (sendMessage e st)
  end.

Definition session (e : env) (acts : list action) (st : state) : state :=
  fold_left (fun s a => perform e a s) acts st.

End Spec.

Import Spec.

(** ** Sample worlds, pages and streams *)

Module Samples.

Definition clock0 (n : nat) : N := 1700000000000 + N.of_nat n.

(** A world whose chat endpoint streams [body] and ends as [fin], and whose
    chat store refuses the requests numbered in [refused]. *)
Definition world (refused : list nat) (body : list (list byte))
    (fin : stream_end) : env :=
  {| clock := clock0;
     store_ok := fun n => negb (bool_decide (n ∈ refused));
     chat_api := fun _ => Response 200 body fin;
     getReader_of_null := lit "response.body is null" |}.

(** A world whose chat endpoint cannot be reached. *)
Definition offline (refused : list nat) : env :=
  {| clock := clock0;
     store_ok := fun n => negb (bool_decide (n ∈ refused));
     chat_api := fun _ => FetchFails (lit "Failed to fetch");
     getReader_of_null := lit "response.body is null" |}.

(** The page after it loaded and the user typed [text]. *)
Definition typed (text : jsstring) : state := set_textInput text initial.

(** The page while the reply to a first message streams: the state in
    which [sendMessage] enters its loop (it is also the state it leaves
    when the stream ends at once). *)
Definition streaming : state :=
  final (sendMessage (world [] [] EndOfStream) (typed (lit "hi"))).

(** The same world a day later. *)
Definition later (e : env) : env :=
  {| clock := fun n => clock e n + 86400000;
     store_ok := store_ok e;
     chat_api := chat_api e;
     getReader_of_null := getReader_of_null e |}.


(** The three chunks of the specification's example. *)
Definition hello_1 : list byte := bytes "data: {'content':'Hel".
Definition hello_2 : list byte := bytes "lo'}|".
Definition hello_3 : list byte := bytes "data: {'done':true}|".
Definition hello_chunks : list (list byte) := [hello_1; hello_2; hello_3].

(** The same stream cut after its lines. *)
Definition hello_lines : list (list byte) :=
  [bytes "data: {'content':'Hel'}|"; bytes "data: {'content':'lo'}|";
   bytes "data: {'done':true}|"].

(** A frame whose content is the two bytes of U+00E9, cut between them. *)
Definition cut_character : list (list byte) :=
  [bytes "data: {'content':'" ++ [xc3]; [xa9] ++ bytes "'}|"].

(** A completion followed by more of the stream. *)
Definition done_then_more : list (list byte) :=
  [bytes "data: {'done':true}|data: {'content':'late'}|";
   bytes "data: {'content':'r'}|"].

(** A world whose chat endpoint answers with one delta and ends the
    stream without a completion. *)
Definition answered : env :=
  world [] [bytes "data: {'content':'a'}|"] EndOfStream.

(** A world that streams [done_then_more] and whose store refuses the
    fourth request of the session: the save of the completed reply. *)
Definition refusing : env := world [3%nat] done_then_more EndOfStream.

(** Two frames in two chunks, the second chunk beginning with a byte order
    mark. *)
Definition bom_chunks : list (list byte) :=
  [bytes "data: {'content':'a'}|";
   [xef; xbb; xbf] ++ bytes "data: {'content':'b'}|"].

End Samples.

Import Samples.

(** ** More handlers of the chat list *)

Module Handlers.

Definition with_pinned (b : bool) (c : chat) : chat :=
  {| id := id c; title := title c; messages := messages c;
     createdAt := createdAt c; model := model c; pinned := b |}.

Definition with_liked (v : option bool) (m : message) : message :=
  {| role := role m; content := content m; timestamp := timestamp m;
     liked := v |}.

(** [updateSendButtonState()]: the value it gives to
    [elements.sendBtn.disabled]. *)
Definition updateSendButtonState (st : state) : bool :=
  let hasText := (0 <? length (trim (textInput st)))%nat in
  negb hasText || isWaitingForResponse st || isStreaming st.

(** [pinChat(chatId)] *)
Definition pinChat (e : env) (chatId : jsstring) : M unit :=
  found <- gets (fun st => chats st !! chatId) ;;
  match found with
  | Some c =>
      let c1 := with_pinned (negb (pinned c)) c in
      modify (fun st => set_chats (<[chatId := c1]> (chats st)) st) ;;;
      saveChatToBackend e c1 ;;;
      ret tt
  | None => ret tt
  end.

(** [chat.messages.find(msg => msg.timestamp === timestamp)]: the first
    message of the chat that bears the timestamp. *)
Definition find_by_timestamp (objs : list message) (t : N) (ls : list loc)
  : option loc :=
  List.find
    (fun l => match objs !! l with
              | Some m => N.eqb (timestamp m) t
              | None => false
              end) ls.

(** [rateMessage(timestamp, liked)], called by the thumbs of a message with
    [true] or [false]. *)
Definition rateMessage (e : env) (t : N) (v : bool) : M unit :=
  cid <- gets currentChatId ;;
  found <- gets current_chat ;;
  match cid, found with
  | Some _, Some c =>
      if truthy_id cid then
        target <- gets (fun st => find_by_timestamp (objects st) t (messages c)) ;;
        match target with
        | Some l =>
            modify (fun st =>
              set_objects (alter (with_liked (Some v)) l (objects st)) st) ;;;
            saveChatToBackend e c ;;;
            ret tt
        | None => ret tt
        end
      else ret tt
  | _, _ => ret tt
  end.

(** The rename dialog: [state.currentEditingChat], the value of its input
    and whether it is shown. *)
Record rename_modal := {
  currentEditingChat : option jsstring;
  renameInput : jsstring;
  renameModal_active : bool
}.

(** [renameChat(chatId)] *)
Definition renameChat (chatId : jsstring) (st : state) (d : rename_modal)
  : rename_modal :=
  match chats st !! chatId with
  | Some c =>
      {| currentEditingChat := Some chatId; renameInput := title c;
         renameModal_active := true |}
  | None => d
  end.

(** [closeRenameModal()] *)
Definition closeRenameModal (d : rename_modal) : rename_modal :=
  {| currentEditingChat := None; renameInput := renameInput d;
     renameModal_active := false |}.

(** [confirmRename()]; it returns the dialog it leaves. When the save
    throws, the dialog is as it was. *)
Definition confirmRename (e : env) (d : rename_modal) : M rename_modal :=
  (match currentEditingChat d with
   | Some k =>
       if truthy_id (Some k) then
         found <- gets (fun st => chats st !! k) ;;
         match found with
         | Some c =>
             let newTitle := trim (renameInput d) in
             if jsstring_eqb newTitle [] then ret tt
             else
               let c1 := with_title newTitle c in
               modify (fun st => set_chats (<[k := c1]> (chats st)) st) ;;;
               saveChatToBackend e c1 ;;;
               ret tt
         | None => ret tt
         end
       else ret tt
   | None => ret tt
   end) ;;;
  ret (closeRenameModal d).

End Handlers.

Import Handlers.

(** ** The second copy of [sendMessage]

    The repository holds the function a second time, with the helpers
    written in place: the history is built after the streaming message
    was made, and the [catch] block is [catch_in_place], which is part of
    the function: what it throws, the function throws; a response
    without a body gets there as in the first copy. The loops of the
    two copies differ in what they draw only (the second calls
    [addMessageTools] under the test for the chat and does not call
    [updateSendButtonState]): [read_loop] is the loop of both. *)

Module SecondCopy.

Definition request_and_consume_in_place (e : env) (prompt : jsstring) : M unit :=
  fun st =>
    match (t <- read_clock e ;;
           l <- new_message {| role := assistant; content := [];
                               timestamp := t; liked := None |} ;;
           modify (set_currentStreamMessage (Some l))) st with
    | Throws st1 => Throws st1
    | Returns _ st1 =>
        let chatHistory := buildChatHistory st1 in
        let selected := modelSelector st1 in
        let st2 :=
          set_requests (requests st1 ++ [ChatRequest prompt selected chatHistory]) st1 in
        match chat_api e (length (requests st1)) with
        | FetchFails msg => catch_in_place e msg st2
        | Response status body fin =>
            if response_ok status then
              if null_body_status status
              then catch_in_place e (getReader_of_null e) st2
              else
                match read_loop e body fin st2 with
                | Finished _ _ st3 => Returns tt st3
                | ReadThrew msg st3 => catch_in_place e msg st3
                end
            else catch_in_place e (lit "HTTP error! status: " ++ decimal status) st2
        end
    end.

Definition sendMessage_in_place (e : env) : M unit :=
  fun st =>
    let message := trim (textInput st) in
    if jsstring_eqb message [] || isWaitingForResponse st || isStreaming st
    then Returns tt st
    else
      (addMessageToChat e user message ;;;
       modify (set_textInput []) ;;;
       modify (set_currentFile false) ;;;
       modify (set_busy true) ;;;
       modify (set_currentStreamResponse []) ;;;
       request_and_consume_in_place e message) st.

End SecondCopy.

Import SecondCopy.

(** ** The music player *)

Module Player.

(** An entry of the library as the server lists it. *)
Record track := {
  filename : jsstring;
  size_bytes : N
}.

(** The fields of [state] and the elements of the page that the player's
    handlers assign. The audio element itself is not modelled, but for the
    file it was last given to play. *)
Record player := {
  availableMusicTracks : list track;
  currentTrackIndex : Z;
  musicModal_active : bool;
  miniPlayer_hidden : bool;
  minimizedPlayer_hidden : bool;
  currentTrackName : jsstring;
  minimizedTrackName : jsstring;
  trackStatus : jsstring;
  audio_src : option jsstring
}.



(** How a handler of the player ends: it returns, or it throws a
    TypeError. *)
Inductive result :=
  | Returned (p : player)
  | TypeError (p : player).

(** [tracks[i]]; [None] is [undefined]. *)
Definition item (tracks : list track) (i : Z) : option track :=
  if (i <? 0)%Z then None else tracks !! Z.to_nat i.







(** The state a handler leaves. *)
Definition player_of (r : result) : player :=
  match r with
  | Returned p => p
  | TypeError p => p
  end.


End Player.

Import Player.

(** ** The vocabulary of the further properties *)

Module Further.

(** A call that leaves [f] of the state as it was, however it ends. *)
Definition keeps {A B} (f : state -> B) (c : M A) : Prop :=
  forall st, f (final (c st)) = f st.

(** The two flags of the guard of [sendMessage]. *)
Definition flags (st : state) : bool * bool :=
  (isStreaming st, isWaitingForResponse st).

(** From [st0] on the streaming message [l] has held the response, which
    is what the deltas delivered since add up to; while the loop is
    [going], the page still refers to the message and to the response. *)
Definition holds_reply (st0 : state) (l : loc) (going : bool) (s : state) : Prop :=
  exists evs m,
    events s = events st0 ++ evs
    /\ objects s !! l = Some m
    /\ content m = currentStreamResponse st0 ++ delta_text evs
    /\ (going = true ->
        currentStreamMessage s = Some l
        /\ currentStreamResponse s = currentStreamResponse st0 ++ delta_text evs).

(** The role and content of the messages the current chat holds. *)
Definition history_before (st : state) : list (Role * jsstring) :=
  if truthy_id (currentChatId st) then
    match current_chat st with
    | Some c => (fun m => (role m, content m)) <$> snapshot st c
    | None => []
    end
  else [].

(** Since [st0] the flags were not assigned and no completion was
    emitted, or the flags are clear. *)
Definition untouched_or_clear (st0 s : state) : Prop :=
  (completions s = completions st0 /\ flags s = flags st0)
  \/ flags s = (false, false).

(** The statements of [addMessageToChat] after the test for a current
    chat. *)
Definition addMessageToChat_tail (e : env) (r : Role) (text : jsstring)
  : M unit :=
  key <- gets currentChatId ;;
  found <- gets current_chat ;;
  match key, found with
  | Some k, Some c =>
      t <- read_clock e ;;
      l <- new_message {| role := r; content := text; timestamp := t;
                          liked := None |} ;;
      let c1 := push_message l c in
      let c2 :=
        if bool_decide (r = user) && bool_decide (length (messages c1) = 1%nat)
        then with_title
               (substring0 30 text
                  ++ (if (30 <? length text)%nat then lit "..." else []))
               c1
        else c1 in
      modify (fun st => set_chats (<[k := c2]> (chats st)) st) ;;;
      saveChatToBackend e c2 ;;;
      ret tt
  | _, _ => ret tt
  end.

(** Since [st0] the page has no current chat and nothing went to the chat
    list or to its store; while the loop is [going] there is a streaming
    message. *)
Definition chatless (st0 : state) (going : bool) (s : state) : Prop :=
  currentChatId s = None
  /\ chats s = chats st0
  /\ requests s = requests st0
  /\ alerts s = alerts st0
  /\ length (objects s) = length (objects st0)
  /\ (going = true -> is_Some (currentStreamMessage s)).

(** The exchange on the chat [k], whose prompt is the message [lu] and
    whose reply is the message [la]: while the loop is [going], the chat
    list is as at [st0] and no completion was emitted since; when the loop
    was left by [return], the chat [k] has got the reply and the flags are
    clear. *)
Definition exchanging (st0 : state) (k : jsstring) (lu la : loc) (going : bool)
    (s : state) : Prop :=
  currentChatId s = Some k
  /\ objects s !! lu = objects st0 !! lu
  /\ role <$> objects s !! la = Some assistant
  /\ if going
     then chats s = chats st0 /\ currentStreamMessage s = Some la
          /\ completions s = completions st0
     else (exists c, chats st0 !! k = Some c
                     /\ chats s = <[k := push_message la c]> (chats st0))
          /\ flags s = (false, false) /\ currentStreamMessage s = None.



(** While the loop is [going] the page has a streaming message; its
    current chat is the one of [st0]. *)
Definition streaming_into (st0 : state) (going : bool) (s : state) : Prop :=
  currentChatId s = currentChatId st0
  /\ (going = true -> is_Some (currentStreamMessage s)).

(** Every chat of the page is stored under its own id, as
    [createNewChat] stores it. *)
Definition keyed (st : state) : Prop :=
  forall k c, chats st !! k = Some c -> id c = k.

(** The requests that create a chat on the server: the saves that
    [saveChatToBackend] sends with [POST]. *)
Definition is_post (r : request) : bool :=
  match r with SaveChat POST _ _ => true | _ => false end.

Definition posts (st : state) : nat :=
  length (List.filter is_post (requests st)).

(** Since [st0] no chat was created on the server and the chats are still
    under their ids; while the loop is [going] the page has a streaming
    message. *)
Definition saving_in_place (st0 : state) (going : bool) (s : state) : Prop :=
  keyed s /\ posts s = posts st0
  /\ (going = true -> is_Some (currentStreamMessage s)).

(** The events that are due for the lines of a stream in which no frame
    has a truthy [done]: the deltas of its content frames. *)
Definition deltas_before_failure (body : list (list byte)) : list StreamEvent :=
  flat_map (fun l => match classify l with
                     | Delta text => [ContentDelta text]
                     | _ => []
                     end) (lines_of body).

(** The send from [st] meets a transport failure whose error has the
    message [msg], after the events [evs]: its request fails, or the
    response is not ok or has no body, or a read of the body fails before
    a frame with a truthy [done] came. *)
Definition transport_failure (e : env) (st : state) (msg : jsstring)
    (evs : list StreamEvent) : Prop :=
  match chat_api e (chat_request_number e st) with
  | FetchFails m => msg = m /\ evs = []
  | Response status body fin =>
      if response_ok status then
        if null_body_status status then msg = getReader_of_null e /\ evs = []
        else fin = ReadFails msg
             /\ Forall (fun l => classify l <> Done) (lines_of body)
             /\ evs = deltas_before_failure body
      else msg = lit "HTTP error! status: " ++ decimal status /\ evs = []
  end.

(** The page on which the send has put its prompt, message [lu] of the
    chat [k], and made the streaming message, [la]. *)
Definition awaiting (k : jsstring) (c : chat) (lu la : loc) (prompt : jsstring)
    (s : state) : Prop :=
  currentChatId s = Some k /\ chats s !! k = Some c
  /\ currentStreamMessage s = Some la
  /\ (exists m0, objects s !! la = Some m0 /\ role m0 = assistant)
  /\ (exists mu, objects s !! lu = Some mu /\ role mu = user
                  /\ content mu = prompt)
  /\ lu <> la.

(** The value of the model selector when [sendMessage] makes its request:
    the value on the page, unless the send opens a chat; then
    [renderCurrentChat] assigns the selector the model of the new chat,
    which is the value on the page, or the first of the models when that
    value is empty. *)
Definition selector_at_request (e : env) (st : state) : jsstring :=
  if truthy_id (currentChatId st) then modelSelector st
  else if store_ok e (length (requests st)) then
    select_value (modelOptions st)
      (match modelSelector st with
       | [] => match availableModels st with
               | m :: _ => m
               | [] => lit "undefined"
               end
       | _ :: _ => modelSelector st
       end)
  else modelSelector st.

(** What a message says: its role, its content and its timestamp; the
    rating is apart. *)
Definition same_words (m m' : message) : Prop :=
  role m' = role m /\ content m' = content m /\ timestamp m' = timestamp m.

(** Every message of [st] is still a message of [s], and says the
    same. *)
Definition keeps_messages (st s : state) : Prop :=
  forall l m, objects st !! l = Some m ->
    exists m', objects s !! l = Some m' /\ same_words m m'.

(** The first [n] messages of [s] are those of [st0]; while the loop is
    [going] the streaming message is the one after them. *)
Definition streaming_after (n : nat) (st0 : state) (going : bool) (s : state)
  : Prop :=
  (forall l, (l < n)%nat -> objects s !! l = objects st0 !! l)
  /\ (going = true -> currentStreamMessage s = Some n).

(** The current chat, if the page has one, is a chat of the page. *)
Definition anchored (st : state) : Prop :=
  forall k, currentChatId st = Some k -> is_Some (chats st !! k).

(** What the user does on the page, the chat list included: an action, or
    a chat pinned, a message rated, a rename confirmed in the dialog
    [d]. *)
Inductive gesture :=
  | Act (a : action)
  | Pin (chatId : jsstring)
  | Rate (t : N) (v : bool)
  | Rename (d : rename_modal).

Definition respond (e : env) (g : gesture) (st : state) : state :=
  match g with
  | Act a => perform e a st
  | Pin chatId => final (pinChat e chatId st)
  | Rate t v => final (rateMessage e t v st)
  | Rename d => final (confirmRename e d st)
  end.

(** A visit of the page: the gestures of the user, each handler running
    to its end before the next gesture, as in a [session]. *)
Definition visit (e : env) (gs : list gesture) (st : state) : state :=
  fold_left (fun s g => respond e g s) gs st.

(** The gestures that may create a chat: a new chat, a message sent. *)
Definition asks_for_chat (g : gesture) : bool :=
  match g with
  | Act NewChat | Act Send => true
  | _ => false
  end.

(** The messages a chat refers to exist. *)
Definition refers_to_messages (st : state) (c : chat) : bool :=
  forallb (fun l => (l <? length (objects st))%nat) (messages c).

End Further.

Import Further.

(** ** More sample pages *)

Module Pages.

(** A world whose chat endpoint streams the greeting, line by line, and
    whose store refuses the requests numbered in [refused]. *)
Definition greeting (refused : list nat) : env :=
  world refused hello_lines EndOfStream.

(** The page after a first exchange: a chat that holds the prompt and the
    reply. *)
Definition answered_page : state :=
  final (sendMessage (greeting []) (typed (lit "hi"))).

(** The same page, the user having typed the next prompt. *)
Definition asking : state := set_textInput (lit " and then? ") answered_page.

(** A page whose models are loaded and whose selector shows none of
    them, on which the user typed a first message. *)
Definition unpicked : state :=
  set_models [lit "openai/gpt-4o-mini"] (typed (lit "hi")).

(** A world whose chat endpoint streams two deltas and then fails the
    read. *)
Definition breaking : env :=
  world [] [bytes "data: {'content':'Hel'}|"; bytes "data: {'content':'lo'}|"]
    (ReadFails (lit "network error")).

(** A page whose first chat the store refused to create: the reply
    streams into a message that belongs to no chat. *)
Definition orphaned : state :=
  final (sendMessage (world [0%nat] [] EndOfStream) (typed (lit "hi"))).

(** A page with a chat that holds no message yet. *)
Definition fresh_chat : state := final (createNewChat (greeting []) initial).

(** The chat of those pages. *)
Definition first_chat : jsstring := lit "chat_1700000000000".

(** The rename dialog, opened on that chat and given a new title. *)
Definition renaming : rename_modal :=
  {| currentEditingChat := Some first_chat;
     renameInput := lit "  Greetings ";
     renameModal_active := true |}.




End Pages.

Import Pages.

(** ** The fuel of the parser *)

Section Fuel.

Lemma skip_ws_length s : (length (skip_ws s) <= length s)%nat.
Proof.
  induction s as [|c s IH]; simpl; [lia|].
  destruct (is_ws c); simpl; lia.
Qed.

Lemma drop_length_le {A} n (s : list A) : (length (drop n s) <= length s)%nat.
Proof. rewrite length_drop. lia. Qed.

Lemma cons_fst_rest c r x rest :
  cons_fst c r = Some (x, rest) -> exists x', r = Some (x', rest).
Proof. destruct r as [[x' r']|]; simpl; [|done]. intros [= <- <-]. eauto. Qed.

Lemma parse_string_length n : forall s x r,
  (length s <= n)%nat -> parse_string s = Some (x, r) ->
  (length r <= length s)%nat.
Proof.
  induction n as [|n IH]; intros s x r Hn.
  - destruct s; [done|simpl in Hn; lia].
  - destruct s as [|c rest]; [done|]. simpl in Hn. cbn [parse_string].
    destruct (N.eqb c 34).
    { intros [= <- <-]. simpl. lia. }
    destruct (N.eqb c 92).
    + destruct rest as [|e rest1]; [done|]. simpl in Hn.
      destruct (N.eqb e 117).
      * destruct rest1 as [|a [|b [|c' [|d rest2]]]]; try done.
        destruct (hex4 a b c' d); [|done].
        intros (x' & H)%cons_fst_rest. apply IH in H; simpl in *; lia.
      * destruct (unescape e); [|done].
        intros (x' & H)%cons_fst_rest. apply IH in H; simpl in *; lia.
    + destruct (c <? 32); [done|].
      intros (x' & H)%cons_fst_rest. apply IH in H; simpl in *; lia.
Qed.

Lemma span_digits_length s : (length (snd (span_digits s)) <= length s)%nat.
Proof.
  induction s as [|c s IH]; simpl; [lia|].
  destruct (is_digit c); [|simpl; lia].
  destruct (span_digits s). simpl in *. lia.
Qed.

Lemma parse_number_length s x r :
  parse_number s = Some (x, r) -> (length r <= length s)%nat.
Proof.
  unfold parse_number.
  set (p := match s with 45 :: r0 => (true, r0) | _ => (false, s) end).
  assert (Hp : (length (snd p) <= length s)%nat).
  { subst p. destruct s as [|c s']; simpl; [lia|].
    destruct (N.eq_dec c 45) as [->|]; simpl; [lia|].
    repeat case_match; simpl; lia. }
  destruct p as [neg s1]. simpl in Hp.
  pose proof (span_digits_length s1) as H2.
  destruct (span_digits s1) as [int s2]. simpl in H2.
  destruct int as [|d more]; [done|].
  destruct (_ && _).
  { intros [= <- <-]. pose proof (drop_length_le 1 s1). lia. }
  set (q := match s2 with 46 :: r0 => _ | _ => _ end).
  assert (Hq : (length (snd q) <= length s2)%nat).
  { subst q. destruct s2 as [|c s2']; simpl; [lia|].
    destruct (N.eq_dec c 46) as [->|].
    - pose proof (span_digits_length s2') as H3.
      destruct (span_digits s2') as [fs r']. simpl in H3.
      destruct fs; simpl; lia.
    - repeat case_match; simpl; lia. }
  destruct q as [frac s3]. simpl in Hq.
  set (t := match s3 with [] => _ | _ :: _ => _ end).
  assert (Ht : (length (snd t) <= length s3)%nat).
  { subst t. destruct s3 as [|c r0]; simpl; [lia|].
    destruct (_ || _); [|simpl; lia].
    set (u := match r0 with 45 :: r' => _ | 43 :: r' => _ | _ => _ end).
    assert (Hu : (length (snd u) <= length r0)%nat).
    { subst u. destruct r0 as [|c0 r1]; simpl; [lia|].
      destruct (N.eq_dec c0 45) as [->|]; [simpl; lia|].
      destruct (N.eq_dec c0 43) as [->|]; [simpl; lia|].
      repeat case_match; simpl; lia. }
    destruct u as [eneg r1]. simpl in Hu.
    pose proof (span_digits_length r1) as H4.
    destruct (span_digits r1) as [es r2]. simpl in H4.
    destruct es; simpl; lia. }
  destruct t as [ex s4]. simpl in Ht.
  intros [= <- <-]. lia.
Qed.


Lemma head_is_drop c s : head_is c s = true -> (S (length (drop 1 s)) = length s)%nat.
Proof. destruct s; [done|]. simpl. by rewrite drop_0. Qed.

Lemma startsWith_length s p :
  startsWith s p = true -> (length p <= length s)%nat.
Proof.
  revert s. induction p as [|a p IH]; intros s; [simpl; lia|].
  destruct s as [|b s]; [done|]. simpl.
  intros [_ H]%andb_prop. apply IH in H. lia.
Qed.

(** What a parser leaves is no longer than what it was given. *)
Lemma parse_rest_length fuel :
  (forall s v r, parse_value fuel s = Ok v r -> (length r <= length s)%nat)
  /\ (forall s acc v r, parse_elements fuel s acc = Ok v r ->
        (length r <= length s)%nat)
  /\ (forall s acc v r, parse_members fuel s acc = Ok v r ->
        (length r <= length s)%nat).
Proof.
  induction fuel as [|f (IHv & IHe & IHm)]; [by repeat split|].
  split; [|split].
  - intros s v r. cbn [parse_value].
    destruct (head_is 123 s) eqn:H1.
    { apply head_is_drop in H1. pose proof (skip_ws_length (drop 1 s)) as L1.
      destruct (head_is 125 _) eqn:H2.
      - intros [= <- <-]. apply head_is_drop in H2. lia.
      - intros Hx%IHm. lia. }
    destruct (head_is 91 s) eqn:H2.
    { apply head_is_drop in H2. pose proof (skip_ws_length (drop 1 s)) as L2.
      destruct (head_is 93 _) eqn:H3.
      - intros [= <- <-]. apply head_is_drop in H3. lia.
      - intros Hx%IHe. lia. }
    destruct (head_is 34 s) eqn:H3.
    { apply head_is_drop in H3.
      destruct (parse_string (drop 1 s)) as [[str r']|] eqn:Hs; [|done].
      intros [= <- <-]. eapply parse_string_length in Hs; [|done]. lia. }
    destruct (startsWith s (lit "true")).
    { intros [= <- <-]. apply drop_length_le. }
    destruct (startsWith s (lit "false")).
    { intros [= <- <-]. apply drop_length_le. }
    destruct (startsWith s (lit "null")).
    { intros [= <- <-]. apply drop_length_le. }
    destruct (parse_number s) as [[x r']|] eqn:Hn; [|done].
    intros [= <- <-]. by apply parse_number_length in Hn.
  - intros s acc v r. cbn [parse_elements].
    destruct (parse_value f s) as [v' r'| |] eqn:Hv; [|done..].
    apply IHv in Hv. pose proof (skip_ws_length r') as L3.
    destruct (head_is 44 _) eqn:H1.
    { apply head_is_drop in H1. intros H2%IHe.
      pose proof (skip_ws_length (drop 1 (skip_ws r'))) as L4. lia. }
    destruct (head_is 93 _) eqn:H2; [|done].
    intros [= <- <-]. apply head_is_drop in H2. lia.
  - intros s acc v r. cbn [parse_members].
    destruct (head_is 34 s) eqn:H1; [|done]. apply head_is_drop in H1.
    destruct (parse_string (drop 1 s)) as [[key r1]|] eqn:Hs; [|done].
    eapply parse_string_length in Hs; [|done].
    pose proof (skip_ws_length r1) as L5.
    destruct (head_is 58 _) eqn:H2; [|done]. apply head_is_drop in H2.
    pose proof (skip_ws_length (drop 1 (skip_ws r1))) as L6.
    destruct (parse_value f _) as [v' r3| |] eqn:Hv; [|done..].
    apply IHv in Hv. pose proof (skip_ws_length r3) as L7.
    destruct (head_is 44 _) eqn:H3.
    { apply head_is_drop in H3. intros H4%IHm.
      pose proof (skip_ws_length (drop 1 (skip_ws r3))) as L8. lia. }
    destruct (head_is 125 _) eqn:H4; [|done].
    intros [= <- <-]. apply head_is_drop in H4. lia.
Qed.

(** With two units of fuel for each code unit, and one more, the parsers
    do not run out of fuel. *)
Lemma parse_fuel_enough fuel :
  (forall s, (2 * length s + 1 <= fuel)%nat -> parse_value fuel s <> OutOfFuel)
  /\ (forall s acc, (2 * length s + 2 <= fuel)%nat ->
        parse_elements fuel s acc <> OutOfFuel)
  /\ (forall s acc, (2 * length s + 2 <= fuel)%nat ->
        parse_members fuel s acc <> OutOfFuel).
Proof.
  induction fuel as [|f (IHv & IHe & IHm)].
  { repeat split; intros; lia. }
  destruct (parse_rest_length f) as (Lv & _ & _).
  split; [|split].
  - intros s Hs. cbn [parse_value].
    destruct (head_is 123 s) eqn:H1.
    { apply head_is_drop in H1. pose proof (skip_ws_length (drop 1 s)) as L9.
      destruct (head_is 125 _); [done|]. apply IHm. lia. }
    destruct (head_is 91 s) eqn:H2.
    { apply head_is_drop in H2. pose proof (skip_ws_length (drop 1 s)) as L10.
      destruct (head_is 93 _); [done|]. apply IHe. lia. }
    repeat case_match; done.
  - intros s acc Hs. cbn [parse_elements].
    destruct (parse_value f s) as [v' r'| |] eqn:Hv; [|done|].
    + apply Lv in Hv. pose proof (skip_ws_length r') as L11.
      destruct (head_is 44 _) eqn:H1.
      { apply head_is_drop in H1.
        pose proof (skip_ws_length (drop 1 (skip_ws r'))) as L12. apply IHe. lia. }
      by destruct (head_is 93 _).
    + exfalso. revert Hv. apply IHv. lia.
  - intros s acc Hs. cbn [parse_members].
    destruct (head_is 34 s) eqn:H1; [|done]. apply head_is_drop in H1.
    destruct (parse_string (drop 1 s)) as [[key r1]|] eqn:Hp; [|done].
    eapply parse_string_length in Hp; [|done].
    pose proof (skip_ws_length r1) as L13.
    destruct (head_is 58 _) eqn:H2; [|done]. apply head_is_drop in H2.
    pose proof (skip_ws_length (drop 1 (skip_ws r1))) as L14.
    destruct (parse_value f _) as [v' r3| |] eqn:Hv; [|done|].
    + apply Lv in Hv. pose proof (skip_ws_length r3) as L15.
      destruct (head_is 44 _) eqn:H3.
      { apply head_is_drop in H3.
        pose proof (skip_ws_length (drop 1 (skip_ws r3))) as L16. apply IHm. lia. }
      by destruct (head_is 125 _).
    + exfalso. revert Hv. apply IHv. lia.
Qed.

(** [JSON_parse] answers [None] only for a text that is not JSON: the fuel
    it gives the parser is never used up. *)
Lemma JSON_parse_fuel text :
  parse_text (2 * length text + 1) text <> OutOfFuel.
Proof.
  unfold parse_text.
  destruct (parse_fuel_enough (2 * length text + 1)) as (Hv & _ & _).
  pose proof (skip_ws_length text) as Hl.
  specialize (Hv (skip_ws text)).
  destruct (parse_value _ (skip_ws text)) as [v r| |]; [by case_match|done|].
  apply Hv. lia.
Qed.

Lemma JSON_parse_None text :
  JSON_parse text = None <-> parse_text (2 * length text + 1) text = Err.
Proof.
  unfold JSON_parse. pose proof (JSON_parse_fuel text).
  destruct (parse_text _ text); split; done.
Qed.

End Fuel.

(** ** The decoder on split input *)

Section Decoder.

Lemma utf8_run_app st a b :
  utf8_run st (a ++ b) =
  (fst (utf8_run st a) ++ fst (utf8_run (snd (utf8_run st a)) b),
   snd (utf8_run (snd (utf8_run st a)) b)).
Proof.
  revert st. induction a as [|x a IH]; intros st; simpl.
  - by destruct (utf8_run st b).
  - destruct (utf8_step st (Byte.to_N x)) as [o1 st1].
    rewrite IH. destruct (utf8_run st1 a) as [o2 st2]. simpl.
    by rewrite app_assoc.
Qed.

Lemma utf8_lead_boundary b :
  bytes_needed (snd (utf8_lead b)) = 0%nat -> snd (utf8_lead b) = utf8_init.
Proof.
  unfold utf8_lead.
  repeat match goal with |- context [if ?c then _ else _] => destruct c end;
    simpl; congruence.
Qed.

Lemma utf8_step_boundary st b :
  bytes_needed (snd (utf8_step st b)) = 0%nat -> snd (utf8_step st b) = utf8_init.
Proof.
  unfold utf8_step. destruct (bytes_needed st) as [|k].
  - apply utf8_lead_boundary.
  - destruct (_ && _).
    + destruct k; simpl; congruence.
    + pose proof (utf8_lead_boundary b). destruct (utf8_lead b); simpl in *. done.
Qed.

Lemma utf8_run_boundary st a :
  (bytes_needed st = 0%nat -> st = utf8_init) ->
  bytes_needed (snd (utf8_run st a)) = 0%nat -> snd (utf8_run st a) = utf8_init.
Proof.
  revert st. induction a as [|x a IH]; intros st Hst; simpl; [done|].
  pose proof (utf8_step_boundary st (Byte.to_N x)) as Hs.
  destruct (utf8_step st (Byte.to_N x)) as [o1 st1]. simpl in Hs.
  specialize (IH st1 Hs). destruct (utf8_run st1 a) as [o2 st2]. done.
Qed.

Lemma at_boundary_init a :
  at_boundary a = true -> snd (utf8_run utf8_init a) = utf8_init.
Proof.
  unfold at_boundary. intros H%Nat.eqb_eq. by apply utf8_run_boundary.
Qed.

Lemma utf8_decode_boundary a :
  at_boundary a = true -> utf8_decode a = fst (utf8_run utf8_init a).
Proof.
  intros H%at_boundary_init. unfold utf8_decode.
  destruct (utf8_run utf8_init a) as [o s]. simpl in *. subst.
  apply app_nil_r.
Qed.

Lemma utf8_decode_app a b :
  at_boundary a = true -> utf8_decode (a ++ b) = utf8_decode a ++ utf8_decode b.
Proof.
  intros H. rewrite (utf8_decode_boundary a H).
  apply at_boundary_init in H.
  unfold utf8_decode at 1. rewrite utf8_run_app, H. simpl.
  unfold utf8_decode. destruct (utf8_run utf8_init b). by rewrite app_assoc.
Qed.

Lemma strip_bom_id cps : head cps <> Some 65279 -> strip_bom cps = cps.
Proof.
  destruct cps as [|c r]; simpl; [done|]. intros H.
  destruct (N.eqb_spec c 65279); congruence.
Qed.

Lemma strip_bom_app x y :
  head y <> Some 65279 -> strip_bom (x ++ y) = strip_bom x ++ y.
Proof.
  destruct x as [|c r]; simpl; [apply strip_bom_id|].
  intros _. by destruct (N.eqb c 65279).
Qed.

Lemma begins_with_bom_false c :
  begins_with_bom c = false -> head (utf8_decode c) <> Some 65279.
Proof. unfold begins_with_bom. by intros H%bool_decide_eq_false. Qed.

Lemma decode_app a b :
  at_boundary a = true -> begins_with_bom b = false ->
  decode (a ++ b) = decode a ++ decode b.
Proof.
  intros Ha Hb%begins_with_bom_false. unfold decode.
  rewrite utf8_decode_app, strip_bom_app, flat_map_app by done.
  by rewrite (strip_bom_id (utf8_decode b)).
Qed.

Lemma begins_with_bom_app a b :
  at_boundary a = true -> begins_with_bom a = false -> begins_with_bom b = false ->
  begins_with_bom (a ++ b) = false.
Proof.
  intros Ha Hna%begins_with_bom_false Hnb%begins_with_bom_false.
  unfold begins_with_bom. apply bool_decide_eq_false.
  rewrite utf8_decode_app by done.
  by destruct (utf8_decode a).
Qed.

Lemma begins_with_bom_concat chunks :
  forallb at_boundary (removelast chunks) = true ->
  forallb (fun c => negb (begins_with_bom c)) chunks = true ->
  begins_with_bom (concat chunks) = false.
Proof.
  induction chunks as [|c rest IH]; [done|].
  intros Hb Hn. simpl in Hn. apply andb_prop in Hn as [Hc Hn].
  apply negb_true_iff in Hc.
  destruct rest as [|c' rest'].
  - simpl. by rewrite app_nil_r.
  - change (removelast (c :: c' :: rest')) with (c :: removelast (c' :: rest')) in Hb.
    simpl in Hb. apply andb_prop in Hb as [Hcb Hb].
    change (concat (c :: c' :: rest')) with (c ++ concat (c' :: rest')).
    apply begins_with_bom_app; auto.
Qed.

Lemma decode_concat chunks :
  char_aligned chunks = true ->
  decode (concat chunks) = concat (map decode chunks).
Proof.
  unfold char_aligned. intros [Hb Hn]%andb_prop.
  induction chunks as [|c rest IH]; [done|].
  destruct rest as [|c' rest'].
  - simpl. by rewrite !app_nil_r.
  - change (removelast (c :: c' :: rest')) with (c :: removelast (c' :: rest')) in Hb.
    simpl in Hb. apply andb_prop in Hb as [Hcb Hb].
    change (tail (c :: c' :: rest')) with (c' :: rest') in Hn.
    change (concat (c :: c' :: rest')) with (c ++ concat (c' :: rest')).
    change (map decode (c :: c' :: rest')) with (decode c :: map decode (c' :: rest')).
    rewrite decode_app; auto.
    + simpl concat at 2. f_equal. apply IH; auto.
      simpl in Hn. apply andb_prop in Hn as [_ Hn]. done.
    + apply begins_with_bom_concat; auto.
Qed.

Lemma utf8_lead_cases b :
  (fst (utf8_lead b) <> [] /\ snd (utf8_lead b) = utf8_init)
  \/ (fst (utf8_lead b) = [] /\ pending (snd (utf8_lead b))).
Proof.
  unfold utf8_lead, pending.
  repeat match goal with |- context [if ?c then _ else _] => destruct c end;
    cbn [fst snd bytes_needed lower_boundary upper_boundary];
    first [left; split; [discriminate|reflexivity] | right; repeat split; lia].
Qed.

Lemma utf8_lead_continuation b :
  128 <= b -> b <= 191 -> utf8_lead b = ([replacement], utf8_init).
Proof.
  intros H1 H2. unfold utf8_lead.
  rewrite (proj2 (N.leb_gt _ _)) by lia.
  rewrite (proj2 (N.leb_gt 194 b)) by lia. cbn [andb].
  rewrite (proj2 (N.leb_gt 224 b)) by lia. cbn [andb].
  by rewrite (proj2 (N.leb_gt 240 b)) by lia.
Qed.

(** The handler on a byte while continuation bytes are awaited: the byte
    continues the character or completes it, or it is out of range. *)
Lemma utf8_step_pending st b :
  pending st ->
  (128 <= b /\ b <= 191
   /\ ((fst (utf8_step st b) = [] /\ pending (snd (utf8_step st b)))
       \/ (exists cp, fst (utf8_step st b) = [cp])
          /\ snd (utf8_step st b) = utf8_init))
  \/ (exists out, fst (utf8_step st b) = replacement :: out
        /\ ((out <> [] /\ snd (utf8_step st b) = utf8_init)
            \/ (out = [] /\ pending (snd (utf8_step st b))))).
Proof.
  intros (Hn & Hl & Hu). unfold utf8_step.
  destruct (bytes_needed st) as [|k]; [lia|].
  destruct ((lower_boundary st <=? b) && (b <=? upper_boundary st)) eqn:Hr.
  - left. apply andb_prop in Hr as [H1%N.leb_le H2%N.leb_le].
    split; [lia|]. split; [lia|].
    destruct k as [|k]; cbn [fst snd].
    + right. split; [by eexists|done].
    + left. split; [done|]. unfold pending.
      cbn [bytes_needed lower_boundary upper_boundary]. lia.
  - right. destruct (utf8_lead_cases b) as [[H1 H2]|[H1 H2]];
      destruct (utf8_lead b) as [out st']; cbn [fst snd] in *;
      exists out; split; auto.
Qed.

Lemma utf8_step_output st b :
  bytes_needed (snd (utf8_step st b)) = 0%nat -> fst (utf8_step st b) <> [].
Proof.
  unfold utf8_step. destruct (bytes_needed st) as [|k].
  - intros Hz. destruct (utf8_lead_cases b) as [[H1 _]|[H1 (H2 & _)]]; [done|lia].
  - destruct (_ && _).
    + destruct k; cbn [fst snd bytes_needed]; [done|lia].
    + destruct (utf8_lead b); done.
Qed.

Lemma utf8_run_cons st x bs :
  utf8_run st (x :: bs) =
  (fst (utf8_step st (Byte.to_N x)) ++ fst (utf8_run (snd (utf8_step st (Byte.to_N x))) bs),
   snd (utf8_run (snd (utf8_step st (Byte.to_N x))) bs)).
Proof.
  simpl. destruct (utf8_step st (Byte.to_N x)) as [o1 st1]. simpl.
  by destruct (utf8_run st1 bs).
Qed.

(** The decoder that ends between two characters has put out something
    for the last byte. *)
Lemma utf8_run_output bs st :
  bs <> [] -> bytes_needed (snd (utf8_run st bs)) = 0%nat ->
  fst (utf8_run st bs) <> [].
Proof.
  revert st. induction bs as [|x bs IH]; intros st Hne Hb; [done|].
  rewrite utf8_run_cons in Hb |- *. cbn [fst snd] in Hb |- *.
  destruct bs as [|y bs].
  - cbn [utf8_run fst snd] in Hb |- *. rewrite app_nil_r.
    by apply utf8_step_output.
  - intros [_ H]%app_eq_nil. revert H. by apply IH.
Qed.

Lemma utf8_run_silent bs st :
  fst (utf8_run st bs) = [] -> bytes_needed (snd (utf8_run st bs)) = 0%nat ->
  bs = [].
Proof.
  intros Ho Hb. destruct bs as [|x bs]; [done|].
  by destruct (utf8_run_output (x :: bs) st).
Qed.

(** The bytes that complete a character are continuation bytes, and the
    bytes before them leave the decoder waiting. *)
Lemma utf8_run_pending a b st :
  pending st -> b <> [] ->
  length (fst (utf8_run st (a ++ b))) = 1%nat ->
  bytes_needed (snd (utf8_run st (a ++ b))) = 0%nat ->
  fst (utf8_run st a) = [] /\ pending (snd (utf8_run st a))
  /\ Forall continuation b.
Proof.
  intros Hp Hb. revert st Hp.
  assert (Hend : forall st bs, pending st ->
            fst (utf8_run st bs) = [] ->
            bytes_needed (snd (utf8_run st bs)) = 0%nat -> False).
  { intros st bs (Hn & _) Ho Hz.
    pose proof (utf8_run_silent bs st Ho Hz) as ->.
    cbn [utf8_run snd] in Hz. lia. }
  assert (Hstep : forall st x bs, pending st ->
            length (fst (utf8_run st (x :: bs))) = 1%nat ->
            bytes_needed (snd (utf8_run st (x :: bs))) = 0%nat ->
            continuation x
            /\ ((fst (utf8_step st (Byte.to_N x)) = []
                 /\ pending (snd (utf8_step st (Byte.to_N x)))
                 /\ length (fst (utf8_run (snd (utf8_step st (Byte.to_N x))) bs)) = 1%nat
                 /\ bytes_needed (snd (utf8_run (snd (utf8_step st (Byte.to_N x))) bs)) = 0%nat)
                \/ bs = [])).
  { intros st x bs Hp Hlen Hz.
    rewrite utf8_run_cons in Hlen, Hz. cbn [fst snd] in Hlen, Hz.
    rewrite length_app in Hlen.
    destruct (utf8_step_pending st (Byte.to_N x) Hp)
      as [(H1 & H2 & [[Ho Hp']|[[cp Ho] Hi]])|(out & Ho & [[Hne Hi]|[-> Hp']])].
    - split; [done|]. left. rewrite Ho in Hlen |- *. cbn [length] in Hlen. auto.
    - split; [done|]. right. rewrite Ho in Hlen. cbn [length] in Hlen.
      apply (utf8_run_silent bs (snd (utf8_step st (Byte.to_N x)))); [|done].
      apply length_zero_iff_nil. lia.
    - rewrite Ho in Hlen. destruct out; [done|]. cbn [length] in Hlen. lia.
    - rewrite Ho in Hlen. cbn [length] in Hlen. exfalso.
      apply (Hend (snd (utf8_step st (Byte.to_N x))) bs Hp'); [|done].
      apply length_zero_iff_nil. lia. }
  induction a as [|x a IH]; intros st Hp Hlen Hz.
  - split; [done|]. split; [done|]. cbn [app] in Hlen, Hz.
    clear Hb. revert st Hp Hlen Hz.
    induction b as [|y b IHb]; intros st Hp Hlen Hz; [constructor|].
    destruct (Hstep st y b Hp Hlen Hz) as [Hy [(Ho & Hp' & Hl' & Hz')| ->]].
    + constructor; [done|]. by apply (IHb _ Hp').
    + constructor; [exact Hy|constructor].
  - change ((x :: a) ++ b) with (x :: (a ++ b)) in Hlen, Hz.
    destruct (Hstep st x (a ++ b) Hp Hlen Hz) as [Hx [(Ho & Hp' & Hl' & Hz')|Hnil]].
    + destruct (IH _ Hp' Hl' Hz') as (I1 & I2 & I3).
      rewrite utf8_run_cons. cbn [fst snd]. rewrite Ho, I1. done.
    + apply app_eq_nil in Hnil as [_ ->]. done.
Qed.

Lemma utf8_run_continuations b :
  Forall continuation b ->
  utf8_run utf8_init b = (repeat replacement (length b), utf8_init).
Proof.
  induction 1 as [|x b [H1 H2] _ IH]; [done|].
  rewrite utf8_run_cons.
  change (utf8_step utf8_init (Byte.to_N x)) with (utf8_lead (Byte.to_N x)).
  rewrite utf8_lead_continuation by done. cbn [fst snd]. by rewrite IH.
Qed.

Lemma decode_replacements n :
  flat_map utf16 (strip_bom (repeat replacement n)) = repeat replacement n.
Proof.
  assert (H : forall k, flat_map utf16 (repeat replacement k) = repeat replacement k).
  { induction k as [|k IH]; [done|]. cbn [repeat flat_map]. by rewrite IH. }
  destruct n as [|n]; [done|]. cbn [repeat strip_bom].
  change (N.eqb replacement 65279) with false. cbn iota. apply (H (S n)).
Qed.

Lemma decode_continuations b :
  Forall continuation b -> decode b = repeat replacement (length b).
Proof.
  intros H. unfold decode, utf8_decode. rewrite (utf8_run_continuations b H).
  cbn [utf8_flush utf8_init bytes_needed]. rewrite app_nil_r.
  apply decode_replacements.
Qed.

(** A character that is cut: the bytes before the cut, decoded on their
    own, give one replacement character, and the bytes after it are
    continuation bytes. *)
Lemma decode_split_character a b :
  a <> [] -> b <> [] -> one_character (a ++ b) = true ->
  decode a = [replacement] /\ Forall continuation b.
Proof.
  intros Ha Hb [Hlen%Nat.eqb_eq Hz%Nat.eqb_eq]%andb_prop.
  destruct a as [|x a]; [done|].
  change ((x :: a) ++ b) with (x :: (a ++ b)) in Hlen, Hz.
  rewrite utf8_run_cons in Hlen, Hz. cbn [fst snd] in Hlen, Hz.
  change (utf8_step utf8_init (Byte.to_N x)) with (utf8_lead (Byte.to_N x))
    in Hlen, Hz.
  assert (Hab : a ++ b <> []) by (intros [_ ->]%app_eq_nil; done).
  rewrite length_app in Hlen.
  destruct (utf8_lead_cases (Byte.to_N x)) as [[Ho Hi]|[Ho Hp]].
  - exfalso. apply Hab.
    apply (utf8_run_silent _ (snd (utf8_lead (Byte.to_N x)))); [|done].
    apply length_zero_iff_nil.
    destruct (fst (utf8_lead (Byte.to_N x))); [done|]. cbn [length] in Hlen. lia.
  - rewrite Ho in Hlen. cbn [length] in Hlen.
    destruct (utf8_run_pending a b _ Hp Hb Hlen Hz) as (R1 & (R2 & _) & R3).
    split; [|exact R3].
    unfold decode, utf8_decode. rewrite utf8_run_cons.
    change (utf8_step utf8_init (Byte.to_N x)) with (utf8_lead (Byte.to_N x)).
    cbn [fst snd]. rewrite Ho, R1. unfold utf8_flush.
    destruct (bytes_needed (snd (utf8_run (snd (utf8_lead (Byte.to_N x))) a)));
      [lia|reflexivity].
Qed.

End Decoder.

(** ** Lines that end where chunks end *)

Section Lines.

Lemma utf8_lead_lower b : 128 <= lower_boundary (snd (utf8_lead b)).
Proof.
  unfold utf8_lead.
  repeat match goal with |- context [if ?c then _ else _] => destruct c end;
    simpl; lia.
Qed.

Lemma utf8_step_lower st b : 128 <= lower_boundary (snd (utf8_step st b)).
Proof.
  unfold utf8_step. destruct (bytes_needed st) as [|k].
  - apply utf8_lead_lower.
  - destruct (_ && _).
    + destruct k; simpl; lia.
    + pose proof (utf8_lead_lower b). by destruct (utf8_lead b).
Qed.

Lemma utf8_run_lower st a : 128 <= lower_boundary st -> 128 <= lower_boundary (snd (utf8_run st a)).
Proof.
  revert st. induction a as [|x a IH]; intros st Hst; simpl; [done|].
  pose proof (utf8_step_lower st (Byte.to_N x)) as Hs.
  destruct (utf8_step st (Byte.to_N x)) as [o1 st1].
  specialize (IH st1 Hs). by destruct (utf8_run st1 a).
Qed.

(** A line feed byte ends any pending sequence and is decoded as itself. *)
Lemma utf8_step_lf st :
  128 <= lower_boundary st -> exists o, utf8_step st 10 = (o ++ [10], utf8_init).
Proof.
  intros Hst. unfold utf8_step. destruct (bytes_needed st) as [|k].
  - by exists [].
  - replace (lower_boundary st <=? 10) with false.
    + by exists [replacement].
    + symmetry. apply N.leb_gt. lia.
Qed.

Lemma last_Some_app {A} (l : list A) x : last l = Some x -> exists l', l = l' ++ [x].
Proof.
  intros H. destruct (last_Some l x) as [[l' ->] _]; eauto.
Qed.

Lemma ends_with_lf_run c :
  ends_with_lf c = true ->
  exists o, utf8_run utf8_init c = (o ++ [10], utf8_init).
Proof.
  unfold ends_with_lf. destruct (last c) as [b|] eqn:Hl; [|done].
  intros Hb%N.eqb_eq. apply last_Some_app in Hl as [c0 ->].
  rewrite utf8_run_app. simpl. rewrite Hb.
  destruct (utf8_step_lf (snd (utf8_run utf8_init c0))) as [o Ho].
  { apply utf8_run_lower. simpl. lia. }
  rewrite Ho. simpl. eexists. by rewrite app_nil_r, app_assoc.
Qed.

Lemma ends_with_lf_boundary c : ends_with_lf c = true -> at_boundary c = true.
Proof.
  intros [o Ho]%ends_with_lf_run. unfold at_boundary. by rewrite Ho.
Qed.

Lemma ends_with_lf_decode c :
  ends_with_lf c = true -> exists t, decode c = t ++ [10].
Proof.
  intros [o Ho]%ends_with_lf_run. unfold decode, utf8_decode. rewrite Ho.
  simpl. rewrite app_nil_r, strip_bom_app by (simpl; congruence).
  rewrite flat_map_app. by eexists.
Qed.

Lemma line_aligned_char_aligned chunks :
  line_aligned chunks = true -> char_aligned chunks = true.
Proof.
  unfold line_aligned, char_aligned. intros [H1 H2]%andb_prop.
  apply andb_true_intro. split; [|done].
  apply forallb_forall. intros c Hc.
  apply ends_with_lf_boundary. by apply (proj1 (forallb_forall _ _) H1).
Qed.

Lemma split_nl_nonempty s : split_nl s <> [].
Proof.
  destruct s as [|c s]; simpl; [done|].
  destruct (N.eqb c 10); [done|]. by destruct (split_nl s).
Qed.

Lemma split_nl_lf t u : split_nl (t ++ 10 :: u) = split_nl t ++ split_nl u.
Proof.
  induction t as [|c t IH]; simpl; [done|].
  destruct (N.eqb c 10).
  - by rewrite IH.
  - rewrite IH. pose proof (split_nl_nonempty t).
    by destruct (split_nl t).
Qed.

Lemma for_each_app {A} (body : A -> state -> flow * state) l1 l2 st :
  for_each body (l1 ++ l2) st =
  match for_each body l1 st with
  | (Return, st') => (Return, st')
  | (Continue, st') => for_each body l2 st'
  end.
Proof.
  revert st. induction l1 as [|x l1 IH]; intros st; simpl; [done|].
  destruct (body x st) as [[] st']; [apply IH|done].
Qed.

Lemma for_each_map {A B} (g : A -> B) (body : B -> state -> flow * state) l st :
  for_each body (map g l) st = for_each (fun x => body (g x)) l st.
Proof.
  revert st. induction l as [|x l IH]; intros st; simpl; [done|].
  destruct (body (g x) st) as [[] st']; [apply IH|done].
Qed.

Lemma for_each_single {A} (body : A -> state -> flow * state) x st :
  for_each body [x] st = body x st.
Proof. simpl. by destruct (body x st) as [[] st']. Qed.

Lemma process_line_blank e st : process_line e [] st = (Continue, st).
Proof. reflexivity. Qed.

(** Texts that end with a line feed, processed one after the other, are
    processed as their concatenation is. *)
Lemma process_lines_concat e texts st :
  Forall (fun t => exists t0, t = t0 ++ [10]) (removelast texts) ->
  process_lines e (split_nl (concat texts)) st =
  for_each (fun t => process_lines e (split_nl t)) texts st.
Proof.
  unfold process_lines. revert st.
  induction texts as [|t rest IH]; intros st Hall.
  - reflexivity.
  - destruct rest as [|t' rest'].
    + simpl concat. rewrite app_nil_r. by rewrite for_each_single.
    + change (removelast (t :: t' :: rest')) with (t :: removelast (t' :: rest')) in Hall.
      apply Forall_cons in Hall as [[t0 ->] Hall].
      change (concat ((t0 ++ [10]) :: t' :: rest'))
        with ((t0 ++ [10]) ++ concat (t' :: rest')).
      rewrite <- app_assoc. simpl app at 2.
      rewrite split_nl_lf, for_each_app.
      cbn [for_each].
      replace (split_nl (t0 ++ [10])) with (split_nl t0 ++ [[]])
        by (by rewrite split_nl_lf).
      rewrite for_each_app.
      destruct (for_each (process_line e) (split_nl t0) st) as [[] st']; [|done].
      rewrite for_each_single, process_line_blank.
      by apply IH.
Qed.

Lemma read_loop_for_each e body fin st :
  end_state (read_loop e body fin st) = snd (for_each (process_chunk e) body st)
  /\ thrown (read_loop e body fin st) =
     match fst (for_each (process_chunk e) body st), fin with
     | Continue, ReadFails msg => Some msg
     | _, _ => None
     end.
Proof.
  revert st. induction body as [|c rest IH]; intros st; simpl.
  - by destruct fin.
  - destruct (process_chunk e c st) as [[] st']; [apply IH|done].
Qed.

Lemma process_chunk_concat e chunks st :
  line_aligned chunks = true ->
  process_chunk e (concat chunks) st = for_each (process_chunk e) chunks st.
Proof.
  intros Hal. unfold process_chunk at 1.
  rewrite decode_concat by (by apply line_aligned_char_aligned).
  rewrite process_lines_concat.
  - rewrite for_each_map. reflexivity.
  - unfold line_aligned in Hal. apply andb_prop in Hal as [Hal _].
    clear -Hal. induction chunks as [|c rest IH]; [constructor|].
    destruct rest as [|c' rest']; [constructor|].
    change (removelast (c :: c' :: rest')) with (c :: removelast (c' :: rest')) in *.
    change (map decode (c :: c' :: rest')) with (decode c :: map decode (c' :: rest')).
    change (removelast (decode c :: map decode (c' :: rest')))
      with (decode c :: removelast (map decode (c' :: rest'))).
    simpl in Hal. apply andb_prop in Hal as [Hc Hal].
    constructor; [by apply ends_with_lf_decode | by apply IH].
Qed.

End Lines.

(** ** The loop body, frame by frame *)

Section Frames.

Ltac unfold_ops :=
  unfold finalize, saveChatToBackend, updateStreamingMessage,
    console_error, alert, read_clock, new_message, try_catch,
    bind, gets, modify, ret in *.

(** What the [parsed.done] branch leaves of the fields it does not mean to
    touch. *)
Lemma finalize_frame e st :
  let st' := final (finalize e st) in
  events st' = events st
  /\ isStreaming st' = isStreaming st
  /\ isWaitingForResponse st' = isWaitingForResponse st
  /\ currentStreamMessage st' = currentStreamMessage st
  /\ currentStreamResponse st' = currentStreamResponse st
  /\ currentChatId st' = currentChatId st
  /\ objects st' = objects st
  /\ textInput st' = textInput st.
Proof.
  unfold_ops. repeat case_match; simplify_eq; simpl; auto 10.
Qed.

(** The loop body does to a line what the specification says of its kind. *)
Lemma process_line_classify e line st :
  process_line e line st =
  match classify line with
  | Ignored | Sentinel | Quiet => (Continue, st)
  | Undecodable => (Continue, report st)
  | Delta text => (Continue, deliver text st)
  | Done => complete e st
  end.
Proof.
  unfold process_line, classify.
  destruct (negb (startsWith line (lit "data: "))); [done|].
  destruct (_ || _); [done|].
  destruct (JSON_parse (slice 6 line)) as [parsed|]; [|done].
  unfold on_parsed.
  destruct (get parsed (lit "done")) as [d|] eqn:Hd; [|done].
  assert (exists c, get parsed (lit "content") = Some c) as [c Hc].
  { destruct parsed; simpl in *; eauto; done. }
  rewrite Hc.
  destruct (truthy d).
  - unfold complete, bind, modify, ret.
    by destruct (finalize e _).
  - destruct (truthy c); [|done].
    destruct (c ≫= to_string) as [text|]; [|done].
    unfold deliver, updateStreamingMessage, bind, modify, gets, ret. simpl.
    by destruct (currentStreamMessage st).
Qed.


Lemma can_persist_true st :
  can_persist st = true <->
  exists k l c, currentChatId st = Some k /\ k <> [] /\
    currentStreamMessage st = Some l /\ chats st !! k = Some c.
Proof.
  unfold can_persist, current_chat, truthy_id. split.
  - destruct (currentChatId st) as [[|x k]|]; simpl; try done.
    destruct (currentStreamMessage st) as [l|]; simpl; try done.
    destruct (chats st !! (x :: k)) as [c|] eqn:Hc; simpl; try done.
    intros _. by exists (x :: k), l, c.
  - intros (k & l & c & -> & Hk & -> & Hc). rewrite Hc.
    by destruct k.
Qed.

(** Without a chat to persist into, the branch touches nothing. *)
Lemma finalize_nothing e st :
  can_persist st = false -> finalize e st = Returns tt st.
Proof.
  intros Hp. unfold finalize, bind, gets, ret.
  destruct (currentStreamMessage st) as [l|] eqn:Hl; [|done].
  destruct (truthy_id (currentChatId st)) eqn:Ht; [|done].
  destruct (current_chat st) as [c|] eqn:Hc; [|by destruct (currentChatId st)].
  unfold can_persist in Hp. by rewrite Ht, Hl, Hc in Hp.
Qed.

(** With one, the message is pushed to the chat and the chat is sent; the
    store's answer decides how the branch ends. *)
Lemma finalize_persists e st k l c :
  currentChatId st = Some k -> k <> [] ->
  currentStreamMessage st = Some l -> chats st !! k = Some c ->
  let c1 := push_message l c in
  let st1 := set_chats (<[k:=c1]> (chats st)) st in
  let st2 := set_requests
               (requests st ++
                [SaveChat (if bool_decide (is_Some (<[k:=c1]> (chats st) !! id c))
                           then PUT else POST) c1 (snapshot st c1)]) st1 in
  finalize e st =
  if store_ok e (length (requests st)) then Returns tt st2
  else Throws (set_console (console st ++ [ErrorSavingChat]) st2).
Proof.
  intros Hk Hne Hl Hc. unfold finalize, bind, gets, ret, modify, current_chat.
  destruct k as [|x k]; [done|].
  rewrite Hl, Hk. simpl. rewrite Hk, Hc. simpl.
  unfold saveChatToBackend. simpl.
  by destruct (store_ok e (length (requests st))).
Qed.

Lemma complete_events e st :
  events (snd (complete e st)) = events st ++ [Completion].
Proof.
  unfold complete.
  pose proof (finalize_frame e (set_events (events st ++ [Completion]) (set_busy false st)))
    as (He & _).
  by destruct (finalize e _).
Qed.

Lemma complete_busy e st :
  isStreaming (snd (complete e st)) = false
  /\ isWaitingForResponse (snd (complete e st)) = false.
Proof.
  unfold complete.
  pose proof (finalize_frame e (set_events (events st ++ [Completion]) (set_busy false st)))
    as (_ & H1 & H2 & _).
  by destruct (finalize e _).
Qed.

Lemma can_persist_set_events_busy ev b st :
  can_persist (set_events ev (set_busy b st)) = can_persist st.
Proof. reflexivity. Qed.

(** A completion makes [sendMessage] return unless there is a chat to
    persist into and the store refuses the save. *)
Lemma complete_flow e st :
  fst (complete e st) =
  if can_persist st && negb (store_ok e (length (requests st)))
  then Continue else Return.
Proof.
  unfold complete.
  destruct (can_persist st) eqn:Hp.
  - apply can_persist_true in Hp as (k & l & c & Hk & Hne & Hl & Hc).
    erewrite finalize_persists by eauto. simpl.
    by destruct (store_ok e (length (requests st))).
  - by rewrite finalize_nothing.
Qed.



Lemma deliver_frame text st :
  events (deliver text st) = events st ++ [ContentDelta text]
  /\ can_persist (deliver text st) = can_persist st
  /\ requests (deliver text st) = requests st
  /\ console (deliver text st) = console st
  /\ isStreaming (deliver text st) = isStreaming st
  /\ isWaitingForResponse (deliver text st) = isWaitingForResponse st.
Proof. unfold deliver. simpl. by destruct (currentStreamMessage st). Qed.

End Frames.

(** ** Splits of the stream *)

Section ChunkBoundaries.

(** C1, as amended. The consumer keeps no buffer between chunks: it
    decodes and splits each chunk on its own. For every stream and every
    split of it that cuts no line (each chunk but the last ends with a line
    feed, none but the first begins with a byte order mark), the loop
    leaves the state it leaves when the same bytes come as one chunk, and
    so the same concatenated delta text. *)
Theorem chunk_boundary_invariance_on_line_splits e chunks fin st :
  line_aligned chunks = true ->
  end_state (read_loop e chunks fin st)
    = end_state (read_loop e [concat chunks] fin st)
  /\ thrown (read_loop e chunks fin st)
     = thrown (read_loop e [concat chunks] fin st)
  /\ delta_text (events (end_state (read_loop e chunks fin st)))
     = delta_text (events (end_state (read_loop e [concat chunks] fin st))).
Proof.
  intros Hal.
  destruct (read_loop_for_each e chunks fin st) as [Hs Ht].
  destruct (read_loop_for_each e [concat chunks] fin st) as [Hs1 Ht1].
  rewrite for_each_single, process_chunk_concat in Hs1, Ht1 by done.
  rewrite Hs, Hs1, Ht, Ht1. done.
Qed.

(** The stream of the specification's example, cut after its lines. *)
Lemma chunk_boundary_invariance_on_line_splits_witness :
  line_aligned hello_lines = true
  /\ delta_text (events (end_state
       (read_loop (world [] [] EndOfStream) hello_lines EndOfStream streaming)))
     = delta_text (events (end_state
       (read_loop (world [] [] EndOfStream) [concat hello_lines] EndOfStream
          streaming))).
Proof.
  split; [reflexivity|].
  apply (chunk_boundary_invariance_on_line_splits
           (world [] [] EndOfStream) hello_lines EndOfStream streaming).
  reflexivity.
Defined.

(** C1 as stated fails: cut inside a line, the example stream loses its
    delta. *)
Lemma chunk_boundary_invariance_fails :
  delta_text (events (end_state
    (read_loop (world [] [] EndOfStream) hello_chunks EndOfStream streaming)))
  <> delta_text (events (end_state
    (read_loop (world [] [] EndOfStream) [concat hello_chunks] EndOfStream
       streaming))).
Proof. vm_compute. discriminate. Qed.

(** C3, as amended. Each chunk is decoded on its own, from a fresh decoder
    and flushed at its end. For every split that cuts no character (each
    chunk but the last ends at a character boundary, none but the first
    begins with a byte order mark), the texts decoded from the chunks make
    up the text decoded from the whole. A character of several bytes that
    the chunk boundaries cut is decoded as replacement characters: the
    bytes before the first cut give one, and each chunk of the bytes after
    it, however they are cut, gives one for each of its bytes. *)
Theorem decoding_on_character_splits :
  (forall chunks,
     char_aligned chunks = true ->
     concat (map decode chunks) = decode (concat chunks))
  /\ (forall a b parts,
        a <> [] -> b <> [] -> one_character (a ++ b) = true ->
        concat parts = b ->
        decode a = [replacement]
        /\ Forall (fun p => decode p = repeat replacement (length p)) parts).
Proof.
  split.
  - intros chunks H. symmetry. by apply decode_concat.
  - intros a b parts Ha Hb Hc Hparts.
    destruct (decode_split_character a b Ha Hb Hc) as [H1 H2].
    split; [exact H1|]. subst b. clear -H2.
    induction parts as [|p parts IH]; [constructor|].
    cbn [concat] in H2. apply Forall_app in H2 as [Hp Hrest].
    constructor; [by apply decode_continuations|by apply IH].
Qed.

(** U+00E9 and a letter in two chunks; the three bytes of U+20AC cut
    after each byte. *)
Lemma decoding_on_character_splits_witness :
  (char_aligned [[xc3; xa9]; [x41]] = true
   /\ concat (map decode [[xc3; xa9]; [x41]])
      = decode (concat [[xc3; xa9]; [x41]]))
  /\ (one_character ([xe2] ++ [x82; xac]) = true
      /\ decode [xe2] = [replacement]
      /\ Forall (fun p => decode p = repeat replacement (length p))
           [[x82]; [xac]]).
Proof.
  split.
  - split; [reflexivity|].
    apply (proj1 decoding_on_character_splits [[xc3; xa9]; [x41]]). reflexivity.
  - split; [reflexivity|].
    apply (proj2 decoding_on_character_splits [xe2] [x82; xac] [[x82]; [xac]]);
      [discriminate|discriminate|reflexivity|reflexivity].
Defined.

(** C3 as stated fails: the two bytes of U+00E9 in two chunks decode to two
    replacement characters, and the frame that carries them yields no
    delta. *)
Lemma decoding_is_not_stateful :
  concat (map decode [[xc3]; [xa9]]) <> decode (concat [[xc3]; [xa9]])
  /\ delta_text (events (end_state
       (read_loop (world [] [] EndOfStream) cut_character EndOfStream streaming)))
     <> delta_text (events (end_state
       (read_loop (world [] [] EndOfStream) [concat cut_character] EndOfStream
          streaming))).
Proof. split; vm_compute; discriminate. Qed.

End ChunkBoundaries.

(** ** The examples of the specification *)

Section Examples.

Lemma process_chunk_lines e c ls st :
  split_nl (decode c) = ls ->
  process_chunk e c st = for_each (process_line e) ls st.
Proof. intros <-. reflexivity. Qed.

Lemma process_line_kind e line k st :
  classify line = k ->
  process_line e line st =
  match k with
  | Ignored | Sentinel | Quiet => (Continue, st)
  | Undecodable => (Continue, report st)
  | Delta text => (Continue, deliver text st)
  | Done => complete e st
  end.
Proof. intros <-. apply process_line_classify. Qed.

Lemma for_each_continue {A} (body : A -> state -> flow * state) x more st st' :
  body x st = (Continue, st') ->
  for_each body (x :: more) st = for_each body more st'.
Proof. intros H. simpl. by rewrite H. Qed.

(** A chunk that is one completion frame and its line feed. *)
Lemma process_chunk_completion e c line st :
  split_nl (decode c) = [line; []] -> classify line = Done ->
  events (snd (process_chunk e c st)) = events st ++ [Completion]
  /\ process_chunk e c st = complete e st.
Proof.
  intros Hl Hk. rewrite (process_chunk_lines e c _ st Hl). cbn [for_each].
  rewrite (process_line_kind e line Done st Hk).
  pose proof (complete_events e st) as He.
  destruct (complete e st) as [[] st']; simpl in *; auto.
Qed.

(** C2, as amended. For the three chunks of the example the consumer
    emits exactly one Completion and no ContentDelta: the first chunk is a
    frame that fails to parse and is reported, the second is not a frame
    and is ignored, the third completes. *)
Theorem hello_in_three_chunks e fin st :
  process_chunk e hello_1 st = (Continue, report st)
  /\ process_chunk e hello_2 (report st) = (Continue, report st)
  /\ events (end_state (read_loop e hello_chunks fin st))
     = events st ++ [Completion].
Proof.
  assert (H1 : process_chunk e hello_1 st = (Continue, report st)).
  { rewrite (process_chunk_lines e hello_1 [js "data: {'content':'Hel"])
      by (vm_compute; reflexivity).
    rewrite for_each_single.
    by rewrite (process_line_kind e _ Undecodable) by (vm_compute; reflexivity). }
  assert (H2 : process_chunk e hello_2 (report st) = (Continue, report st)).
  { rewrite (process_chunk_lines e hello_2 [js "lo'}"; []])
      by (vm_compute; reflexivity).
    cbn [for_each].
    by rewrite (process_line_kind e _ Ignored) by (vm_compute; reflexivity). }
  split; [done|]. split; [done|].
  destruct (read_loop_for_each e hello_chunks fin st) as [-> _].
  unfold hello_chunks. cbn [for_each]. rewrite H1, H2.
  destruct (process_chunk_completion e hello_3 (js "data: {'done':true}") (report st))
    as [He _]; [vm_compute; reflexivity..|].
  destruct (process_chunk e hello_3 (report st)) as [[] st']; simpl in *; done.
Qed.

(** C2 as stated fails: no ContentDelta("Hello") is emitted. *)
Lemma hello_in_three_chunks_fails :
  events (end_state
    (read_loop (world [] [] EndOfStream) hello_chunks EndOfStream streaming))
  <> events streaming ++ [ContentDelta (lit "Hello"); Completion].
Proof. vm_compute. discriminate. Qed.

(** C4. A frame whose payload is empty or [[DONE]] changes nothing and the
    loop goes on with the lines after it; the frame [data: [DONE]]
    followed by the frame [data: {"done": true}] yields one Completion and
    no ContentDelta. *)
Theorem sentinel_frames_are_skipped e st more :
  process_line e (frame []) st = (Continue, st)
  /\ process_line e (frame (lit "[DONE]")) st = (Continue, st)
  /\ process_lines e (frame [] :: more) st = process_lines e more st
  /\ process_lines e (frame (lit "[DONE]") :: more) st = process_lines e more st
  /\ events (snd (process_lines e
       [js "data: [DONE]"; js "data: {'done': true}"] st))
     = events st ++ [Completion].
Proof.
  assert (H1 : process_line e (frame []) st = (Continue, st)) by reflexivity.
  assert (H2 : process_line e (frame (lit "[DONE]")) st = (Continue, st))
    by reflexivity.
  split; [done|]. split; [done|]. unfold process_lines.
  split; [by apply for_each_continue|]. split; [by apply for_each_continue|].
  rewrite (for_each_continue _ _ _ st st) by exact H2.
  rewrite for_each_single.
  rewrite (process_line_kind e _ Done) by (vm_compute; reflexivity).
  apply complete_events.
Qed.

End Examples.

(** ** Frames that fail to parse *)

Section Console.

(** The loop body never reads the console: entries put before its own stay
    before them and change nothing else. *)

Lemma report_log_before c st : report (log_before c st) = log_before c (report st).
Proof. unfold report, log_before. simpl. by rewrite app_assoc. Qed.

Lemma deliver_log_before c text st :
  deliver text (log_before c st) = log_before c (deliver text st).
Proof. unfold deliver, log_before. simpl. by destruct (currentStreamMessage st). Qed.

Lemma finalize_log_before e c st :
  finalize e (log_before c st) =
  match finalize e st with
  | Returns a st' => Returns a (log_before c st')
  | Throws st' => Throws (log_before c st')
  end.
Proof.
  destruct (can_persist st) eqn:Hp.
  - apply can_persist_true in Hp as (k & l & ch & Hk & Hne & Hl & Hc).
    rewrite (finalize_persists e st k l ch) by done.
    rewrite (finalize_persists e (log_before c st) k l ch) by done.
    simpl. destruct (store_ok e (length (requests st))); [done|].
    unfold log_before. simpl. by rewrite app_assoc.
  - rewrite (finalize_nothing e st Hp).
    by rewrite (finalize_nothing e (log_before c st)).
Qed.

Lemma complete_log_before e c st :
  complete e (log_before c st) =
  (fst (complete e st), log_before c (snd (complete e st))).
Proof.
  unfold complete.
  change (set_events (events (log_before c st) ++ [Completion])
            (set_busy false (log_before c st)))
    with (log_before c (set_events (events st ++ [Completion]) (set_busy false st))).
  rewrite finalize_log_before.
  destruct (finalize e _) as [[] st'|st']; simpl; [done|].
  by rewrite report_log_before.
Qed.

Lemma process_line_log_before e line c st :
  process_line e line (log_before c st) =
  (fst (process_line e line st), log_before c (snd (process_line e line st))).
Proof.
  rewrite !process_line_classify.
  destruct (classify line); simpl; try done.
  - by rewrite report_log_before.
  - apply complete_log_before.
  - by rewrite deliver_log_before.
Qed.

Lemma process_lines_log_before e lines c st :
  process_lines e lines (log_before c st) =
  (fst (process_lines e lines st), log_before c (snd (process_lines e lines st))).
Proof.
  unfold process_lines. revert st.
  induction lines as [|l more IH]; intros st; simpl; [done|].
  rewrite process_line_log_before.
  destruct (process_line e l st) as [[] st']; simpl; [apply IH|done].
Qed.

Lemma log_before_split st :
  st = log_before (console st) (set_console [] st).
Proof. destruct st. unfold log_before. simpl. by rewrite app_nil_r. Qed.

Lemma report_split st :
  report st = log_before (console st ++ [ErrorParsingStreamData]) (set_console [] st).
Proof. destruct st. unfold report, log_before. simpl. by rewrite app_nil_r. Qed.

Lemma set_console_log_before c st :
  set_console [] (log_before c st) = set_console [] st.
Proof. by destruct st. Qed.

Lemma startsWith_nil s : startsWith s [] = true.
Proof. by destruct s. Qed.

(** A frame that fails to parse is reported once and skipped. *)
Lemma process_line_malformed e payload st :
  malformed payload -> process_line e (frame payload) st = (Continue, report st).
Proof.
  intros (Hne & Hd & Hp). rewrite process_line_classify.
  unfold classify, frame. simpl.
  unfold jsstring_eqb. rewrite !bool_decide_eq_false_2 by done. simpl.
  by rewrite startsWith_nil, Hp.
Qed.

Lemma process_lines_one_more_entry e post c s0 :
  let a := process_lines e post (log_before (c ++ [ErrorParsingStreamData]) s0) in
  let b := process_lines e post (log_before c s0) in
  fst a = fst b
  /\ events (snd a) = events (snd b)
  /\ set_console [] (snd a) = set_console [] (snd b)
  /\ exists before after,
       console (snd a) = before ++ ErrorParsingStreamData :: after
       /\ console (snd b) = before ++ after.
Proof.
  cbn zeta. rewrite !process_lines_log_before. simpl.
  rewrite !set_console_log_before.
  split; [done|]. split; [done|]. split; [done|].
  eexists _, _. split; [|reflexivity]. by rewrite <- app_assoc.
Qed.

(** With a frame that fails to parse or without it, the lines around it
    are processed alike: the same events, the same end of the loop body,
    the same state but for the console, which holds exactly one more entry
    when the frame is reached. *)
Lemma malformed_frame_apart e pre post payload st :
  malformed payload ->
  let with_frame := process_lines e (pre ++ frame payload :: post) st in
  let without := process_lines e (pre ++ post) st in
  process_line e (frame payload) st = (Continue, report st)
  /\ fst with_frame = fst without
  /\ events (snd with_frame) = events (snd without)
  /\ set_console [] (snd with_frame) = set_console [] (snd without)
  /\ (fst (process_lines e pre st) = Continue ->
      exists before after,
        console (snd with_frame) = before ++ ErrorParsingStreamData :: after
        /\ console (snd without) = before ++ after).
Proof.
  intros Hm. cbn zeta.
  split; [by apply process_line_malformed|].
  unfold process_lines. rewrite !for_each_app.
  destruct (for_each (process_line e) pre st) as [[] s] eqn:Hpre; simpl;
    [|repeat split; done].
  rewrite (process_line_malformed e payload s Hm).
  pose proof (process_lines_one_more_entry e post (console s) (set_console [] s))
    as H.
  cbn zeta in H. rewrite <- report_split, <- log_before_split in H.
  unfold process_lines in H.
  destruct H as (H1 & H2 & H3 & H4). auto.
Qed.

Lemma content_frame_delta line text :
  content_frame line text -> classify line = Delta text.
Proof.
  intros (payload & members & -> & Hne & Hd & Hp & Hdone & Hc & Ht).
  unfold classify, frame. cbn [negb]. 
  change (startsWith (lit "data: " ++ payload) (lit "data: ")) with
    (startsWith payload []).
  rewrite startsWith_nil. cbn [negb].
  change (slice 6 (lit "data: " ++ payload)) with payload.
  unfold jsstring_eqb. rewrite !bool_decide_eq_false_2 by done. cbn [orb].
  rewrite Hp. cbn [get]. rewrite Hdone, Hc. cbn [truthy mbind option_bind to_string].
  unfold jsstring_eqb. by rewrite bool_decide_eq_false_2 by done.
Qed.

Lemma for_each_flat_map {A B} (g : A -> list B) (body : B -> state -> flow * state) l st :
  for_each (fun x => for_each body (g x)) l st = for_each body (flat_map g l) st.
Proof.
  revert st. induction l as [|x l IH]; intros st; [done|].
  cbn [for_each flat_map]. rewrite for_each_app.
  destruct (for_each body (g x) st) as [[] s]; [apply IH|done].
Qed.

Lemma process_lines_sorted e lines sorts st :
  Forall2 sorted_as lines sorts ->
  exists s,
    for_each (process_line e) lines st = (Continue, s)
    /\ events s = events st ++ deltas_of sorts
    /\ console s = console st ++ errors_of sorts.
Proof.
  intros H. revert st.
  induction H as [|line sort lines sorts Hl _ IH]; intros st.
  - exists st. by rewrite !app_nil_r.
  - cbn [for_each].
    assert (Hstep : exists s0,
      process_line e line st = (Continue, s0)
      /\ events s0 = events st ++ deltas_of [sort]
      /\ console s0 = console st ++ errors_of [sort]).
    { destruct sort as [text| |]; cbn [sorted_as] in Hl.
      - rewrite (process_line_kind e line (Delta text) st)
          by (by apply content_frame_delta).
        eexists. split; [reflexivity|].
        destruct (deliver_frame text st) as (E & _ & _ & C & _).
        rewrite E, C. cbn. by rewrite app_nil_r.
      - destruct Hl as (payload & -> & Hm).
        rewrite (process_line_malformed e payload st Hm).
        eexists. split; [reflexivity|]. cbn. by rewrite app_nil_r.
      - subst line. rewrite process_line_blank.
        eexists. split; [reflexivity|]. cbn. by rewrite !app_nil_r. }
    destruct Hstep as (s0 & -> & E0 & C0).
    destruct (IH s0) as (s & Hs & E & C).
    exists s. split; [exact Hs|].
    rewrite E, C, E0, C0.
    change (sort :: sorts) with ([sort] ++ sorts).
    unfold deltas_of, errors_of. rewrite !flat_map_app, !app_assoc. done.
Qed.

Lemma read_loop_to_the_end e body fin st s :
  for_each (process_chunk e) body st = (Continue, s) ->
  read_loop e body fin st =
  match fin with
  | EndOfStream => Finished false [] s
  | ReadFails msg => ReadThrew msg s
  end.
Proof.
  revert st. induction body as [|c rest IH]; intros st; cbn [for_each read_loop].
  - intros [= <-]. by destruct fin.
  - destruct (process_chunk e c st) as [[] s0]; [apply IH|done].
Qed.

(** C5. A frame that fails to parse is not fatal. In a stream of content
    frames, some of which fail to parse, that comes in any number of
    chunks, the loop delivers the text of every content frame, in order,
    and emits nothing else; it reports one error for each frame that fails
    to parse; and it goes on to the end of the stream, where it ends as
    the reader ends: nothing is thrown to the caller for a frame that
    fails to parse. *)
Theorem malformed_frame_is_skipped e body fin st sorts :
  Forall2 sorted_as (lines_of body) sorts ->
  exists s,
    read_loop e body fin st =
      match fin with
      | EndOfStream => Finished false [] s
      | ReadFails msg => ReadThrew msg s
      end
    /\ events s = events st ++ deltas_of sorts
    /\ console s = console st ++ errors_of sorts.
Proof.
  intros H.
  destruct (process_lines_sorted e (lines_of body) sorts st H) as (s & Hs & E & C).
  exists s. split; [|done].
  apply read_loop_to_the_end.
  unfold lines_of in Hs. rewrite <- for_each_flat_map in Hs. exact Hs.
Qed.

End Console.

(** ** Replaying a stream *)

Section Replay.

Variables e1 e2 : env.

Lemma can_persist_report st : can_persist (report st) = can_persist st.
Proof. reflexivity. Qed.





End Replay.

(** ** The busy flags *)

Section Busy.

Lemma completions_app st ev :
  length (List.filter is_completion (events st ++ [ev])) =
  (completions st + (if is_completion ev then 1 else 0))%nat.
Proof.
  unfold completions. rewrite List.filter_app, length_app. simpl.
  by destruct (is_completion ev).
Qed.

(** A line either leaves the flags and the completions as they are and
    lets the loop go on, or adds a completion. *)
Lemma process_line_busy e line st :
  let r := process_line e line st in
  (fst r = Continue /\ completions (snd r) = completions st
   /\ isStreaming (snd r) = isStreaming st
   /\ isWaitingForResponse (snd r) = isWaitingForResponse st)
  \/ completions (snd r) = S (completions st).
Proof.
  cbn zeta. rewrite process_line_classify.
  destruct (classify line); simpl; auto.
  - right. unfold completions. rewrite complete_events.
    rewrite completions_app. simpl. unfold completions. lia.
  - left. destruct (deliver_frame text st) as (E & _ & _ & _ & F1 & F2).
    unfold completions. rewrite E, completions_app. simpl.
    unfold completions. split; [done|]. split; [lia|]. done.
Qed.

Lemma for_each_busy {A} (body : A -> state -> flow * state) l st :
  (forall x s,
     (fst (body x s) = Continue /\ completions (snd (body x s)) = completions s
      /\ isStreaming (snd (body x s)) = isStreaming s
      /\ isWaitingForResponse (snd (body x s)) = isWaitingForResponse s)
     \/ (completions s < completions (snd (body x s)))%nat) ->
  let r := for_each body l st in
  (fst r = Continue /\ completions (snd r) = completions st
   /\ isStreaming (snd r) = isStreaming st
   /\ isWaitingForResponse (snd r) = isWaitingForResponse st)
  \/ (completions st < completions (snd r))%nat.
Proof.
  intros Hb. cbn zeta. revert st.
  induction l as [|x more IH]; intros st; simpl; [auto|].
  destruct (Hb x st) as [(Hf & Hc & H1 & H2)|Hlt];
    destruct (body x st) as [[] s]; simpl in *; try done; auto.
  - destruct (IH s) as [(Hf' & Hc' & H1' & H2')|Hlt'].
    + left. repeat split; congruence.
    + right. lia.
  - destruct (IH s) as [(Hf' & Hc' & H1' & H2')|Hlt']; right; lia.
Qed.

Lemma process_chunk_busy e c st :
  let r := process_chunk e c st in
  (fst r = Continue /\ completions (snd r) = completions st
   /\ isStreaming (snd r) = isStreaming st
   /\ isWaitingForResponse (snd r) = isWaitingForResponse st)
  \/ (completions st < completions (snd r))%nat.
Proof.
  unfold process_chunk, process_lines. apply for_each_busy.
  intros l s. destruct (process_line_busy e l s) as [H|H]; [by left|right; lia].
Qed.

(** A stream that ends without a completion leaves the flags as they
    were. *)
Lemma read_loop_busy e body st :
  let st' := end_state (read_loop e body EndOfStream st) in
  completions st' = completions st ->
  isStreaming st' = isStreaming st
  /\ isWaitingForResponse st' = isWaitingForResponse st.
Proof.
  cbn zeta. destruct (read_loop_for_each e body EndOfStream st) as [-> _].
  intros Hc.
  destruct (for_each_busy (process_chunk e) body st) as [(_ & _ & H1 & H2)|Hlt].
  - intros c s. apply process_chunk_busy.
  - done.
  - lia.
Qed.

Lemma filter_chat_requests_save rs method c msgs :
  List.filter is_chat_request (rs ++ [SaveChat method c msgs])
  = List.filter is_chat_request rs.
Proof. rewrite List.filter_app. simpl. apply app_nil_r. Qed.

Lemma filter_chat_requests_delete rs k :
  List.filter is_chat_request (rs ++ [DeleteChat k])
  = List.filter is_chat_request rs.
Proof. rewrite List.filter_app. simpl. apply app_nil_r. Qed.

(** What the other handlers leave alone. *)

Lemma same_stream_refl st : same_stream st st.
Proof. by repeat split. Qed.

Lemma same_stream_trans s1 s2 s3 :
  same_stream s1 s2 -> same_stream s2 s3 -> same_stream s1 s3.
Proof.
  intros (A1 & A2 & A3 & A4) (B1 & B2 & B3 & B4).
  repeat split; congruence.
Qed.

Lemma quiet_ret {A} (a : A) : quiet (ret a).
Proof. intros st. apply same_stream_refl. Qed.

Lemma quiet_bind {A B} (c : M A) (k : A -> M B) :
  quiet c -> (forall a, quiet (k a)) -> quiet (bind c k).
Proof.
  intros Hc Hk st. unfold bind. specialize (Hc st).
  destruct (c st) as [a st'|st']; simpl in *; [|done].
  eapply same_stream_trans; [exact Hc|apply Hk].
Qed.

Lemma quiet_try_catch {A} (c h : M A) :
  quiet c -> quiet h -> quiet (try_catch c h).
Proof.
  intros Hc Hh st. unfold try_catch. specialize (Hc st).
  destruct (c st) as [a st'|st']; simpl in *; [done|].
  eapply same_stream_trans; [exact Hc|apply Hh].
Qed.

Lemma quiet_gets {A} (f : state -> A) : quiet (gets f).
Proof. intros st. apply same_stream_refl. Qed.

Lemma quiet_modify (f : state -> state) :
  (forall st, same_stream st (f st)) -> quiet (modify f).
Proof. intros Hf st. apply Hf. Qed.

Lemma quiet_read_clock e : quiet (read_clock e).
Proof. intros st. by repeat split. Qed.

Lemma quiet_new_message m : quiet (new_message m).
Proof. intros st. by repeat split. Qed.

Lemma quiet_console_error x : quiet (console_error x).
Proof. intros st. by repeat split. Qed.

Lemma quiet_alert : quiet alert.
Proof. intros st. by repeat split. Qed.

Lemma quiet_saveChatToBackend e c : quiet (saveChatToBackend e c).
Proof.
  intros st. unfold saveChatToBackend.
  destruct (store_ok e (length (requests st))); simpl;
    repeat split; try done; apply filter_chat_requests_save.
Qed.

Lemma quiet_deleteChatFromBackend e k : quiet (deleteChatFromBackend e k).
Proof.
  intros st. unfold deleteChatFromBackend.
  destruct (store_ok e (length (requests st))); simpl;
    repeat split; try done; apply filter_chat_requests_delete.
Qed.

Create HintDb quiet.
#[local] Hint Resolve quiet_ret quiet_gets quiet_read_clock quiet_new_message
  quiet_console_error quiet_alert quiet_saveChatToBackend
  quiet_deleteChatFromBackend : quiet.

Ltac quiet_steps :=
  repeat first
    [ apply quiet_bind; [|intros ?]
    | apply quiet_try_catch
    | apply quiet_modify; intros ?; by repeat split
    | progress auto with quiet ].

Lemma quiet_renderCurrentChat : quiet renderCurrentChat.
Proof.
  unfold renderCurrentChat.
  repeat first [progress quiet_steps | case_match].
Qed.

Lemma quiet_createNewChat e : quiet (createNewChat e).
Proof.
  unfold createNewChat. repeat first [progress quiet_steps | case_match].
Qed.

Lemma quiet_deleteChat e k : quiet (deleteChat e k).
Proof.
  unfold deleteChat. quiet_steps.
  apply quiet_modify. intros st. by case_bool_decide.
Qed.

Lemma quiet_selectModel e m : quiet (selectModel e m).
Proof.
  unfold selectModel. quiet_steps. repeat case_match; quiet_steps.
Qed.

Lemma quiet_addMessageToChat e r text : quiet (addMessageToChat e r text).
Proof.
  unfold addMessageToChat. quiet_steps.
  - case_match; auto with quiet. apply quiet_createNewChat.
  - repeat case_match; quiet_steps.
Qed.

(** [sendMessage] with a flag set returns at once. *)
Lemma sendMessage_when_busy e st :
  isStreaming st = true \/ isWaitingForResponse st = true ->
  sendMessage e st = Returns tt st.
Proof.
  intros H. unfold sendMessage.
  destruct H as [-> | ->]; by rewrite ?orb_true_r.
Qed.

Lemma perform_when_busy e a st :
  isStreaming st = true -> isWaitingForResponse st = true ->
  isStreaming (perform e a st) = true
  /\ isWaitingForResponse (perform e a st) = true
  /\ chat_requests (perform e a st) = chat_requests st.
Proof.
  intros H1 H2. destruct a; simpl; auto.
  - destruct (quiet_selectModel e m st) as (_ & F1 & F2 & F3).
    by rewrite F1, F2, F3.
  - destruct (quiet_createNewChat e st) as (_ & F1 & F2 & F3).
    by rewrite F1, F2, F3.
  - destruct (quiet_deleteChat e chatId st) as (_ & F1 & F2 & F3).
    by rewrite F1, F2, F3.
  - rewrite sendMessage_when_busy by auto. done.
Qed.

Lemma session_when_busy e acts st :
  isStreaming st = true -> isWaitingForResponse st = true ->
  isStreaming (session e acts st) = true
  /\ isWaitingForResponse (session e acts st) = true
  /\ chat_requests (session e acts st) = chat_requests st.
Proof.
  unfold session. revert st.
  induction acts as [|a acts IH]; intros st H1 H2; simpl; [done|].
  destruct (perform_when_busy e a st H1 H2) as (P1 & P2 & P3).
  destruct (IH _ P1 P2) as (Q1 & Q2 & Q3). by rewrite Q1, Q2, Q3.
Qed.


Lemma read_loop_end_of_stream e body st :
  exists b unread,
    read_loop e body EndOfStream st
    = Finished b unread (end_state (read_loop e body EndOfStream st)).
Proof.
  revert st. induction body as [|c rest IH]; intros st; simpl; [by eexists _, _|].
  destruct (process_chunk e c st) as [[] s]; [apply IH|by eexists _, _].
Qed.

(** How [sendMessage] gets to [handleSendMessageError]: the request fails,
    the response is not ok or has no body, or a read fails; each time the
    handler runs once, on a state that holds the streaming message. *)
Lemma transport_failures_run_the_handler e prompt st :
  let st2 := requesting e prompt st in
  let handled msg s := Returns tt (final (handleSendMessageError e msg s)) in
  request_and_consume e prompt st =
  match chat_api e (length (requests st)) with
  | FetchFails msg => handled msg st2
  | Response status body fin =>
      if response_ok status then
        if null_body_status status then handled (getReader_of_null e) st2
        else
          match read_loop e body fin st2 with
          | Finished _ _ st3 => Returns tt st3
          | ReadThrew msg st3 => handled msg st3
          end
      else handled (lit "HTTP error! status: " ++ decimal status) st2
  end.
Proof. reflexivity. Qed.

Lemma requesting_has_message e prompt st :
  currentStreamMessage (requesting e prompt st) = Some (length (objects st))
  /\ (exists m, objects (requesting e prompt st) !! length (objects st) = Some m
        /\ role m = assistant /\ content m = [])
  /\ currentChatId (requesting e prompt st) = currentChatId st
  /\ chats (requesting e prompt st) = chats st
  /\ events (requesting e prompt st) = events st.
Proof.
  unfold requesting. simpl. split; [done|]. split; [|done].
  eexists. rewrite lookup_app_r, Nat.sub_diag by done. simpl. done.
Qed.

(** [sendMessage] past its guard. *)
Lemma sendMessage_past_guard e st :
  isStreaming st = false -> isWaitingForResponse st = false ->
  trim (textInput st) <> [] ->
  sendMessage e st =
  match addMessageToChat e user (trim (textInput st)) st with
  | Returns _ s1 =>
      request_and_consume e (trim (textInput st))
        (set_currentStreamResponse []
           (set_busy true (set_currentFile false (set_textInput [] s1))))
  | Throws s1 => Throws s1
  end.
Proof.
  intros Hs Hw Hmsg. unfold sendMessage. rewrite Hs, Hw.
  unfold jsstring_eqb. rewrite bool_decide_eq_false_2 by done.
  cbn [orb]. unfold bind at 1.
  by destruct (addMessageToChat e user (trim (textInput st)) st) as [[] s1|s1].
Qed.

(** C10. When [sendMessage] passes its guard and its request gets a
    response with a body whose reader reports the end of the stream before
    any frame with a truthy [done] was processed (no completion was
    emitted), it returns with both flags still set; from then on, whatever
    the user does, the flags stay set, no request goes to the chat
    endpoint, and every call of [sendMessage] returns at once and changes
    nothing. *)
Theorem stream_end_without_done_blocks_the_session e st st' status body :
  isStreaming st = false -> isWaitingForResponse st = false ->
  trim (textInput st) <> [] ->
  chat_api e (chat_request_number e st) = Response status body EndOfStream ->
  response_ok status = true -> null_body_status status = false ->
  sendMessage e st = Returns tt st' ->
  completions st' = completions st ->
  (isStreaming st' = true /\ isWaitingForResponse st' = true)
  /\ forall e' acts,
       let s := session e' acts st' in
       isStreaming s = true /\ isWaitingForResponse s = true
       /\ chat_requests s = chat_requests st'
       /\ sendMessage e' s = Returns tt s.
Proof.
  intros Hs Hw Hmsg Hresp Hok Hbody Hret Hcomp.
  assert (Hflags : isStreaming st' = true /\ isWaitingForResponse st' = true).
  { rewrite (sendMessage_past_guard e st Hs Hw Hmsg) in Hret.
    destruct (quiet_addMessageToChat e user (trim (textInput st)) st)
      as (E1 & _ & _).
    unfold chat_request_number in Hresp.
    destruct (addMessageToChat e user (trim (textInput st)) st) as [[] s1|s1];
      [|done].
    cbn [final] in E1, Hresp.
    rewrite transport_failures_run_the_handler in Hret. cbn zeta in Hret.
    cbn [requests set_currentStreamResponse set_busy set_currentFile
         set_textInput] in Hret.
    rewrite Hresp, Hok, Hbody in Hret.
    match type of Hret with
    | context [read_loop e body EndOfStream ?s0] =>
        destruct (read_loop_end_of_stream e body s0) as (b & unread & Hr);
        pose proof (read_loop_busy e body s0) as Hb;
        rewrite Hr in Hret
    end.
    injection Hret as <-. cbn zeta in Hb. apply Hb.
    rewrite Hcomp. unfold completions, requesting. cbn [events set_requests
      set_currentStreamMessage set_objects set_ticks set_currentStreamResponse
      set_busy set_currentFile set_textInput].
    by rewrite E1. }
  split; [done|]. intros e' acts. cbn zeta.
  destruct Hflags as [F1 F2].
  destruct (session_when_busy e' acts st' F1 F2) as (Q1 & Q2 & Q3).
  repeat split; try done. apply sendMessage_when_busy. auto.
Qed.

End Busy.

(** ** Transport failures *)

Section Failure.

Lemma truthy_id_Some k : k <> [] -> truthy_id (Some k) = true.
Proof. by destruct k. Qed.

Lemma alter_content_lookup text l (objs : list message) m0 :
  objs !! l = Some m0 ->
  alter (with_content text) l (alter (with_content text) l objs) !! l
  = Some (with_content text m0).
Proof.
  intros H. rewrite !list_lookup_alter_eq, H. done.
Qed.

(** On a page that has a current chat [handleSendMessageError] emits no
    event, reports the failure once, clears both flags, and appends to the
    current chat a message of the assistant whose content is the text
    [Connection error: ] followed by the error's message, then sends the
    chat to the store; the chat gets the streaming message just as the
    completion branch would give it. *)
Lemma handler_persists_the_failure e msg st k c :
  currentChatId st = Some k -> k <> [] -> chats st !! k = Some c ->
  (forall l, currentStreamMessage st = Some l ->
     exists m0, objects st !! l = Some m0 /\ role m0 = assistant) ->
  let st' := final (handleSendMessageError e msg st) in
  let text := lit "Connection error: " ++ msg in
  events st' = events st
  /\ (exists rest, console st' = console st ++ SendMessageFailed msg :: rest
        /\ forall m, SendMessageFailed m ∉ rest)
  /\ isStreaming st' = false /\ isWaitingForResponse st' = false
  /\ (exists l m method,
        chats st' !! k = Some (push_message l c)
        /\ objects st' !! l = Some m
        /\ role m = assistant /\ content m = text
        /\ requests st' = requests st ++
             [SaveChat method (push_message l c)
                (snapshot st' (push_message l c))])
  /\ (forall l, currentStreamMessage st = Some l ->
        chats st' = chats (final (finalize e st))).
Proof.
  intros Hk Hne Hc Hobj st' text. subst st' text.
  assert (Hfin : forall l, currentStreamMessage st = Some l ->
            chats (final (finalize e st)) = <[k:=push_message l c]> (chats st)).
  { intros l Hl. rewrite (finalize_persists e st k l c) by done.
    by destruct (store_ok e (length (requests st))). }
  revert Hfin. generalize (final (finalize e st)). intros fin_st Hfin.
  unfold handleSendMessageError. cbn zeta.
  generalize (lit "Connection error: " ++ msg). intros text.
  destruct (currentStreamMessage st) as [l|] eqn:Hl.
  - destruct (Hobj l eq_refl) as (m0 & Hm0 & Hrole).
    specialize (Hfin l eq_refl).
    unfold bind, modify, gets, console_error, updateStreamingMessage,
      current_chat, ret, saveChatToBackend.
    simpl.
    repeat (first [rewrite Hl | rewrite Hk | rewrite Hc]; simpl).
    destruct (store_ok e (length (requests st))); simpl.
    + split; [done|]. split.
      { exists []. split; [done|]. intros m Hin. by apply not_elem_of_nil in Hin. }
      split; [done|]. split; [done|]. split; [|by intros ? [= <-]].
      eexists l, (with_content text m0), _.
      rewrite lookup_insert_eq.
      rewrite (alter_content_lookup _ _ _ _ Hm0).
      repeat split; try done.
    + split; [done|]. split.
      { exists [ErrorSavingChat]. split; [by rewrite <- app_assoc|].
        intros m Hin. apply list_elem_of_singleton in Hin. done. }
      split; [done|]. split; [done|]. split; [|by intros ? [= <-]].
      eexists l, (with_content text m0), _.
      rewrite lookup_insert_eq.
      rewrite (alter_content_lookup _ _ _ _ Hm0).
      repeat split; try done.
  - unfold addMessageToChat.
    unfold bind, modify, gets, console_error, current_chat, ret, read_clock,
      new_message, saveChatToBackend.
    destruct k as [|k0 k1]; [done|].
    simpl.
    repeat (first [rewrite Hl | rewrite Hk | rewrite Hc]; simpl).
    destruct (store_ok e (length (requests st))); simpl.
    + split; [done|]. split.
      { exists []. split; [done|]. intros m Hin. by apply not_elem_of_nil in Hin. }
      split; [done|]. split; [done|]. split; [|done].
      eexists (length (objects st)), _, _.
      rewrite lookup_insert_eq.
      rewrite lookup_app_r, Nat.sub_diag by done. simpl.
      repeat split; try done.
    + split; [done|]. split.
      { exists [ErrorSavingChat]. split; [by rewrite <- app_assoc|].
        intros m Hin. apply list_elem_of_singleton in Hin. done. }
      split; [done|]. split; [done|]. split; [|done].
      eexists (length (objects st)), _, _.
      rewrite lookup_insert_eq.
      rewrite lookup_app_r, Nat.sub_diag by done. simpl.
      repeat split; try done.
Qed.

(** Without a current chat the handler shows the error in the streaming
    message and persists nothing: no chat changes and no request is sent. *)
Lemma transport_failure_without_chat e msg st l :
  currentStreamMessage st = Some l -> current_chat st = None ->
  let st' := final (handleSendMessageError e msg st) in
  chats st' = chats st /\ requests st' = requests st
  /\ currentStreamMessage st' = None.
Proof.
  intros Hl Hc. cbn zeta. unfold handleSendMessageError. cbn zeta.
  generalize (lit "Connection error: " ++ msg). intros text.
  unfold bind, modify, gets, console_error, updateStreamingMessage, ret.
  simpl. repeat (first [rewrite Hl | rewrite Hc]; simpl).
  assert (Hc' : forall o1 o2 b c0,
    current_chat
      (set_objects o1 (set_objects o2 (set_busy b (set_console c0 st)))) = None)
    by (intros; exact Hc).
  rewrite !Hc'. by destruct (currentChatId st).
Qed.

End Failure.

(** ** The two copies of the catch block *)

Section Copies.

(** X8. With a streaming message and a current chat, the [catch] block
    of the second copy of [sendMessage] leaves the state that
    [handleSendMessageError] leaves, but for the console, where it reports
    no failed send. *)
Lemma catch_in_place_agrees e msg st k l c :
  currentChatId st = Some k -> k <> [] -> chats st !! k = Some c ->
  currentStreamMessage st = Some l ->
  set_console [] (final (catch_in_place e msg st))
  = set_console [] (final (handleSendMessageError e msg st))
  /\ Forall (fun x => forall m, x <> SendMessageFailed m)
       (drop (length (console st)) (console (final (catch_in_place e msg st)))).
Proof.
  intros Hk Hne Hc Hl.
  unfold catch_in_place, handleSendMessageError. cbn zeta.
  generalize (lit "Connection error: " ++ msg). intros text.
  unfold bind, modify, gets, console_error, updateStreamingMessage,
    current_chat, ret, saveChatToBackend.
  destruct k as [|k0 k1]; [done|].
  simpl.
  repeat (first [rewrite Hl | rewrite Hk | rewrite Hc]; simpl).
  destruct (store_ok e (length (requests st))); simpl.
  - split; [done|]. rewrite drop_all. constructor.
  - split; [done|]. rewrite drop_app_length. by repeat constructor.
Qed.

End Copies.

(** ** Sessions, replays and completions *)

Section Session.

(** The example of the specification, a frame in each chunk: both deltas
    are delivered and one error is logged. *)
Lemma malformed_frame_is_skipped_witness :
  exists s,
    read_loop (world [] [] EndOfStream)
      [bytes "data: {'content':'a'}|"; bytes "data: {not json|";
       bytes "data: {'content':'b'}|"] EndOfStream streaming
    = Finished false [] s
    /\ events s = events streaming ++ [ContentDelta (lit "a"); ContentDelta (lit "b")]
    /\ console s = console streaming ++ [ErrorParsingStreamData].
Proof.
  apply (malformed_frame_is_skipped (world [] [] EndOfStream)
           [bytes "data: {'content':'a'}|"; bytes "data: {not json|";
            bytes "data: {'content':'b'}|"] EndOfStream streaming
           [Content (lit "a"); Empty; Broken; Empty; Content (lit "b"); Empty]).
  assert (Hl : lines_of [bytes "data: {'content':'a'}|"; bytes "data: {not json|";
                         bytes "data: {'content':'b'}|"]
               = [frame (js "{'content':'a'}"); []; frame (lit "{not json"); [];
                  frame (js "{'content':'b'}"); []])
    by (vm_compute; reflexivity).
  rewrite Hl.
  assert (Hc : forall t, t <> [] -> JSON_parse (js "{'content':'" ++ t ++ js "'}")
                 = Some (JObject [(lit "content", JString t)]) ->
               content_frame (frame (js "{'content':'" ++ t ++ js "'}")) t).
  { intros t Ht Hp. eexists _, _. split; [reflexivity|].
    split; [by destruct t|]. split; [by destruct t|]. split; [exact Hp|].
    split; [reflexivity|]. split; [reflexivity|exact Ht]. }
  repeat constructor.
  - apply (Hc (lit "a")); [discriminate|vm_compute; reflexivity].
  - exists (lit "{not json"). split; [reflexivity|].
    split; [discriminate|]. split; [discriminate|vm_compute; reflexivity].
  - apply (Hc (lit "b")); [discriminate|vm_compute; reflexivity].
Defined.

(** The same frames as the lines of one chunk. *)
Example malformed_between_two_deltas :
  let st' := snd (process_lines (world [] [] EndOfStream)
       [js "data: {'content':'a'}"; frame (lit "{not json");
        js "data: {'content':'b'}"] streaming) in
  events st' = [ContentDelta (lit "a"); ContentDelta (lit "b")]
  /\ console st' = [ErrorParsingStreamData].
Proof. vm_compute. done. Qed.

(** C8. With a flag set, a call of [sendMessage] returns at once: the
    state, and with it the list of requests sent, is as it was. *)
Theorem busy_send_is_ignored e st :
  isStreaming st = true \/ isWaitingForResponse st = true ->
  sendMessage e st = Returns tt st
  /\ requests (final (sendMessage e st)) = requests st.
Proof.
  intros H. rewrite (sendMessage_when_busy e st H). done.
Qed.

Lemma busy_send_is_ignored_witness :
  (isStreaming streaming = true \/ isWaitingForResponse streaming = true)
  /\ sendMessage answered (set_textInput (lit "again") streaming)
     = Returns tt (set_textInput (lit "again") streaming).
Proof.
  split; [left; reflexivity|].
  apply (busy_send_is_ignored answered (set_textInput (lit "again") streaming)).
  left; reflexivity.
Defined.





Lemma stream_end_without_done_blocks_the_session_witness :
  (trim (textInput (typed (lit "hi"))) <> []
   /\ sendMessage answered (typed (lit "hi"))
      = Returns tt (final (sendMessage answered (typed (lit "hi")))))
  /\ isStreaming (final (sendMessage answered (typed (lit "hi")))) = true
  /\ isWaitingForResponse (final (sendMessage answered (typed (lit "hi")))) = true.
Proof.
  assert (H1 : trim (textInput (typed (lit "hi"))) <> [])
    by (intros H; vm_compute in H; discriminate H).
  assert (H2 : sendMessage answered (typed (lit "hi"))
      = Returns tt (final (sendMessage answered (typed (lit "hi")))))
    by (vm_compute; reflexivity).
  split; [split; [exact H1|exact H2]|].
  refine (proj1 (stream_end_without_done_blocks_the_session answered
           (typed (lit "hi")) _ 200 [bytes "data: {'content':'a'}|"]
           eq_refl eq_refl H1 eq_refl eq_refl eq_refl H2 _)).
  vm_compute. reflexivity.
Defined.

(** C6 at the failing input: the store refuses the save of the completed
    reply; the loop goes on after the [done] frame, delivers the lines and
    the chunk that follow it and leaves nothing unread, with the flags
    already cleared. *)
Lemma completion_with_refused_save_goes_on :
  read_loop refusing done_then_more EndOfStream streaming
    = Finished false []
        (end_state (read_loop refusing done_then_more EndOfStream streaming))
  /\ events (end_state (read_loop refusing done_then_more EndOfStream streaming))
     = [Completion; ContentDelta (lit "late"); ContentDelta (lit "r")]
  /\ isStreaming
       (end_state (read_loop refusing done_then_more EndOfStream streaming))
     = false.
Proof. vm_compute. done. Qed.

Lemma for_each_return {A} (body : A -> state -> flow * state) x more st :
  fst (body x st) = Return -> for_each body (x :: more) st = body x st.
Proof. simpl. by destruct (body x st) as [[] s]. Qed.

(** X4. When the store accepts the save, or there is no chat to save,
    a completion ends the processing: the lines after it are not processed
    and the chunks after it are not read. *)
Lemma completion_ends_processing e c line more rest fin st :
  split_nl (decode c) = line :: more -> classify line = Done ->
  can_persist st = false \/ store_ok e (length (requests st)) = true ->
  read_loop e (c :: rest) fin st = Finished true rest (snd (complete e st))
  /\ events (snd (complete e st)) = events st ++ [Completion].
Proof.
  intros Hl Hk Hok. split; [|apply complete_events].
  simpl. rewrite (process_chunk_lines e c _ st Hl).
  assert (Hf : fst (complete e st) = Return).
  { rewrite complete_flow. by destruct Hok as [-> | ->]; rewrite ?andb_false_r. }
  rewrite for_each_return; rewrite (process_line_kind e line Done st Hk); [|done].
  by destruct (complete e st) as [[] s].
Qed.

End Session.

(** ** More of the specification's examples *)

Section More.

(** Why the split must not put a byte order mark at the head of a chunk:
    there it is dropped and the frame behind it is seen; inside a chunk it
    stays and hides the frame. *)
Example byte_order_mark_at_chunk_start :
  line_aligned bom_chunks = false
  /\ delta_text (events (end_state
       (read_loop answered bom_chunks EndOfStream streaming))) = lit "ab"
  /\ delta_text (events (end_state
       (read_loop answered [concat bom_chunks] EndOfStream streaming))) = lit "a".
Proof. vm_compute. done. Qed.

(** Lines that are not frames say nothing and do not disturb the frames
    around them. *)
Example keep_alive_lines :
  events (end_state (read_loop answered
    [bytes "|: ping|data: {'content':'a'}||event: x|data: {'done':true}|"]
    EndOfStream streaming))
  = [ContentDelta (lit "a"); Completion].
Proof. vm_compute. done. Qed.

End More.

(** ** Further properties of the page *)

Section Reply.

Lemma for_each_invariant {A} (I R : state -> Prop)
    (body : A -> state -> flow * state) l st :
  (forall x s, I s ->
     match body x s with (Continue, s') => I s' | (Return, s') => R s' end) ->
  I st ->
  match for_each body l st with (Continue, s') => I s' | (Return, s') => R s' end.
Proof.
  intros Hb. revert st. induction l as [|x more IH]; intros st Hi; simpl; [done|].
  specialize (Hb x st Hi). destruct (body x st) as [[] s]; [by apply IH|done].
Qed.

Lemma delta_text_snoc evs ev :
  delta_text (evs ++ [ev]) =
  delta_text evs ++ match ev with ContentDelta t => t | Completion => [] end.
Proof. unfold delta_text. rewrite flat_map_app. simpl. by rewrite app_nil_r. Qed.

Lemma process_line_holds_reply e st0 l line s :
  holds_reply st0 l true s ->
  match process_line e line s with
  | (Continue, s') => holds_reply st0 l true s'
  | (Return, s') => holds_reply st0 l false s'
  end.
Proof.
  intros (evs & m & He & Hm & Hc & Hg). destruct (Hg eq_refl) as [Hl Hr].
  rewrite process_line_classify.
  destruct (classify line) as [| | | |text|]; try (by exists evs, m).
  - (* a completion *)
    unfold complete.
    pose proof (finalize_frame e (set_events (events s ++ [Completion]) (set_busy false s)))
      as (F1 & _ & _ & F4 & F5 & _ & F7 & _).
    destruct (finalize e _) as [[] s'|s']; simpl in *.
    + exists (evs ++ [Completion]), m. rewrite delta_text_snoc, app_nil_r.
      simpl. rewrite F1, F7, He, app_assoc. done.
    + exists (evs ++ [Completion]), m. rewrite delta_text_snoc, app_nil_r.
      unfold report. simpl. rewrite F1, F7, F4, F5, He, app_assoc. done.
  - (* a delta *)
    unfold deliver. simpl. rewrite Hl. simpl.
    exists (evs ++ [ContentDelta text]), (with_content (currentStreamResponse s ++ text) m).
    simpl. rewrite delta_text_snoc, list_lookup_alter_eq, Hm, He, Hr, !app_assoc. done.
Qed.

Lemma read_loop_holds_reply e body fin st l :
  holds_reply st l true st ->
  holds_reply st l false (end_state (read_loop e body fin st)).
Proof.
  intros Hi. destruct (read_loop_for_each e body fin st) as [-> _].
  assert (Hw : forall s, holds_reply st l true s -> holds_reply st l false s).
  { intros s (evs & m & ? & ? & ? & _). by exists evs, m. }
  pose proof (for_each_invariant (holds_reply st l true) (holds_reply st l false)
                (process_chunk e) body st) as H.
  destruct (for_each (process_chunk e) body st) as [[] s']; simpl; [apply Hw|];
    apply H; try done.
  all: intros c s Hs; unfold process_chunk, process_lines;
    apply (for_each_invariant (holds_reply st l true) (holds_reply st l false));
    [intros line s0; apply process_line_holds_reply | done].
Qed.

(** X1. From a state in which the streaming message holds the response
    so far, the loop leaves in that message the response followed by the
    texts of the deltas it emitted, in their order: what the page shows
    and, at a completion, stores as the reply is the concatenation of the
    deltas. The events emitted before stay as they were. *)
Theorem reply_is_the_concatenation_of_the_deltas e body fin st l m0 :
  currentStreamMessage st = Some l ->
  objects st !! l = Some m0 ->
  content m0 = currentStreamResponse st ->
  let st' := end_state (read_loop e body fin st) in
  exists m,
    take (length (events st)) (events st') = events st
    /\ objects st' !! l = Some m
    /\ content m =
       currentStreamResponse st
         ++ delta_text (drop (length (events st)) (events st')).
Proof.
  intros Hl Hm Hc. cbn zeta.
  destruct (read_loop_holds_reply e body fin st l) as (evs & m & He & Hm' & Hc' & _).
  { exists [], m0. rewrite !app_nil_r. done. }
  exists m. rewrite He, take_app_length, drop_app_length. done.
Qed.

End Reply.

(** ** What a call leaves alone *)

Section Keeps.

Context {B : Type} (f : state -> B).

Lemma keeps_ret {A} (a : A) : keeps f (ret a).
Proof. by intros st. Qed.

Lemma keeps_gets {A} (g : state -> A) : keeps f (gets g).
Proof. by intros st. Qed.

Lemma keeps_bind {A C} (c : M A) (k : A -> M C) :
  keeps f c -> (forall a, keeps f (k a)) -> keeps f (bind c k).
Proof.
  intros Hc Hk st. unfold bind. specialize (Hc st).
  destruct (c st) as [a st'|st']; simpl in *; [|done].
  by rewrite Hk.
Qed.

Lemma keeps_try_catch {A} (c h : M A) :
  keeps f c -> keeps f h -> keeps f (try_catch c h).
Proof.
  intros Hc Hh st. unfold try_catch. specialize (Hc st).
  destruct (c st) as [a st'|st']; simpl in *; [done|].
  by rewrite Hh.
Qed.

Lemma keeps_modify (g : state -> state) :
  (forall st, f (g st) = f st) -> keeps f (modify g).
Proof. intros Hg st. apply Hg. Qed.

(** [f] does not depend on what the chat list and its store hold. *)
Hypothesis f_ticks : forall v st, f (set_ticks v st) = f st.
Hypothesis f_objects : forall v st, f (set_objects v st) = f st.
Hypothesis f_console : forall v st, f (set_console v st) = f st.
Hypothesis f_alerts : forall v st, f (set_alerts v st) = f st.
Hypothesis f_chats : forall v st, f (set_chats v st) = f st.
Hypothesis f_currentChatId : forall v st, f (set_currentChatId v st) = f st.
Hypothesis f_modelSelector : forall v st, f (set_modelSelector v st) = f st.
Hypothesis f_store : forall r st,
  is_chat_request r = false -> f (set_requests (requests st ++ [r]) st) = f st.

Ltac blind :=
  repeat first
    [ rewrite f_ticks | rewrite f_objects | rewrite f_console
    | rewrite f_alerts | rewrite f_chats | rewrite f_currentChatId
    | rewrite f_modelSelector | rewrite f_store by done ].

Lemma keeps_read_clock e : keeps f (read_clock e).
Proof. intros st. unfold read_clock. simpl. by blind. Qed.

Lemma keeps_new_message m : keeps f (new_message m).
Proof. intros st. unfold new_message. simpl. by blind. Qed.

Lemma keeps_console_error x : keeps f (console_error x).
Proof. intros st. unfold console_error, modify. simpl. by blind. Qed.

Lemma keeps_alert : keeps f alert.
Proof. intros st. unfold alert, modify. simpl. by blind. Qed.

Lemma keeps_saveChatToBackend e c : keeps f (saveChatToBackend e c).
Proof.
  intros st. unfold saveChatToBackend.
  destruct (store_ok e (length (requests st))); simpl; by blind.
Qed.

Lemma keeps_deleteChatFromBackend e k : keeps f (deleteChatFromBackend e k).
Proof.
  intros st. unfold deleteChatFromBackend.
  destruct (store_ok e (length (requests st))); simpl; by blind.
Qed.

Ltac keeps_steps :=
  repeat first
    [ apply keeps_ret | apply keeps_gets | apply keeps_read_clock
    | apply keeps_new_message | apply keeps_console_error | apply keeps_alert
    | apply keeps_saveChatToBackend | apply keeps_deleteChatFromBackend
    | apply keeps_bind; [|intros ?]
    | apply keeps_try_catch
    | apply keeps_modify; intros ?; by blind ].

Lemma keeps_renderCurrentChat : keeps f renderCurrentChat.
Proof.
  unfold renderCurrentChat. repeat first [progress keeps_steps | case_match].
Qed.

Lemma keeps_createNewChat e : keeps f (createNewChat e).
Proof.
  unfold createNewChat. repeat first [progress keeps_steps | case_match].
Qed.

Lemma keeps_deleteChat e k : keeps f (deleteChat e k).
Proof.
  unfold deleteChat. keeps_steps.
  apply keeps_modify. intros st. case_bool_decide; by blind.
Qed.

Lemma keeps_addMessageToChat_tail e r text :
  keeps f (addMessageToChat_tail e r text).
Proof.
  unfold addMessageToChat_tail. repeat first [progress keeps_steps | case_match].
Qed.

Lemma keeps_addMessageToChat e r text : keeps f (addMessageToChat e r text).
Proof.
  unfold addMessageToChat. keeps_steps.
  - case_match; [apply keeps_ret|apply keeps_createNewChat].
  - repeat first [progress keeps_steps | case_match].
Qed.

Lemma keeps_pinChat e k : keeps f (pinChat e k).
Proof. unfold pinChat. repeat first [progress keeps_steps | case_match]. Qed.

Lemma keeps_rateMessage e t v : keeps f (rateMessage e t v).
Proof.
  unfold rateMessage. repeat first [progress keeps_steps | case_match].
Qed.

Lemma keeps_confirmRename e d : keeps f (confirmRename e d).
Proof.
  unfold confirmRename. repeat first [progress keeps_steps | case_match].
Qed.

Lemma keeps_updateStreamingMessage text : keeps f (updateStreamingMessage text).
Proof.
  unfold updateStreamingMessage. apply keeps_modify. intros st.
  case_match; by blind.
Qed.

Lemma keeps_finalize e : keeps f (finalize e).
Proof. unfold finalize. repeat first [progress keeps_steps | case_match]. Qed.

(** [f] does not depend on the streaming message and the response
    either. *)
Hypothesis f_currentStreamMessage :
  forall v st, f (set_currentStreamMessage v st) = f st.
Hypothesis f_currentStreamResponse :
  forall v st, f (set_currentStreamResponse v st) = f st.

(** What the error handler does once it has cleared the flags. *)
Lemma keeps_handler_rest e text :
  keeps f
    (current <- gets currentStreamMessage ;;
     match current with
     | Some l =>
         modify (fun st => set_objects (alter (with_content text) l (objects st)) st) ;;;
         updateStreamingMessage text ;;;
         key <- gets currentChatId ;;
         found <- gets current_chat ;;
         match key, found with
         | Some k, Some c =>
             let c1 := push_message l c in
             modify (fun st => set_chats (<[k := c1]> (chats st)) st) ;;;
             saveChatToBackend e c1 ;;;
             ret tt
         | _, _ => ret tt
         end ;;;
         modify (set_currentStreamMessage None)
     | None => addMessageToChat e assistant text
     end ;;;
     modify (set_currentStreamResponse [])).
Proof.
  apply keeps_bind; [apply keeps_gets|]. intros current.
  apply keeps_bind; [|intros ?; apply keeps_modify; intros ?; apply f_currentStreamResponse].
  destruct current as [l|]; [|apply keeps_addMessageToChat].
  keeps_steps.
  - apply keeps_updateStreamingMessage.
  - repeat first [progress keeps_steps | case_match].
Qed.

(** [f] does not depend on the flags. *)
Hypothesis f_busy : forall v st, f (set_busy v st) = f st.

Lemma keeps_handleSendMessageError e msg : keeps f (handleSendMessageError e msg).
Proof.
  unfold handleSendMessageError. cbn zeta.
  apply keeps_bind; [apply keeps_console_error|]. intros _.
  apply keeps_bind; [apply keeps_modify; intros ?; apply f_busy|]. intros _.
  apply keeps_handler_rest.
Qed.

(** [f] does not depend on the events. *)
Hypothesis f_events : forall v st, f (set_events v st) = f st.

Lemma keeps_complete e st : f (snd (complete e st)) = f st.
Proof.
  unfold complete.
  pose proof (keeps_finalize e (set_events (events st ++ [Completion]) (set_busy false st))) as H.
  destruct (finalize e _) as [[] s|s]; simpl in *; unfold report;
    rewrite ?f_console, ?f_currentStreamResponse, ?f_currentStreamMessage, H;
    by rewrite f_events, f_busy.
Qed.

Lemma keeps_process_line e line st : f (snd (process_line e line st)) = f st.
Proof.
  rewrite process_line_classify.
  destruct (classify line); simpl; try done.
  - unfold report. apply f_console.
  - apply keeps_complete.
  - unfold deliver. simpl. case_match; simpl;
      by rewrite ?f_objects, f_events, f_currentStreamResponse.
Qed.

Lemma keeps_for_each {A} (body : A -> state -> flow * state) l st :
  (forall x s, f (snd (body x s)) = f s) ->
  f (snd (for_each body l st)) = f st.
Proof.
  intros Hb. revert st. induction l as [|x more IH]; intros st; simpl; [done|].
  specialize (Hb x st). destruct (body x st) as [[] s]; simpl in *; [|done].
  by rewrite IH.
Qed.

Lemma keeps_read_loop e body fin st :
  f (end_state (read_loop e body fin st)) = f st.
Proof.
  destruct (read_loop_for_each e body fin st) as [-> _].
  apply keeps_for_each. intros c s. unfold process_chunk, process_lines.
  apply keeps_for_each. intros line s0. apply keeps_process_line.
Qed.

End Keeps.

Section Equations.

(** [createNewChat], step by step. *)
Lemma createNewChat_eq e st :
  let chatId := lit "chat_" ++ decimal (clock e (ticks st)) in
  let c := {| id := chatId; title := lit "New Chat"; messages := [];
              createdAt := clock e (S (ticks st)); model := modelSelector st;
              pinned := false |} in
  let method := if bool_decide (is_Some (chats st !! chatId)) then PUT else POST in
  let st1 := set_requests (requests st ++ [SaveChat method c []])
               (set_ticks (S (S (ticks st))) st) in
  createNewChat e st =
  if store_ok e (length (requests st))
  then Returns tt
         (set_modelSelector
            (select_value (modelOptions st) (model_or_first c (availableModels st)))
            (set_currentChatId (Some chatId)
               (set_chats (<[chatId := c]> (chats st)) st1)))
  else Returns tt (set_alerts (S (alerts st))
                     (set_console (console st ++ [ErrorSavingChat; ErrorCreatingChat]) st1)).
Proof.
  cbn zeta. unfold createNewChat, renderCurrentChat, try_catch, bind, read_clock,
    gets, modify, saveChatToBackend, console_error, alert, current_chat, ret.
  cbn [ticks set_ticks modelSelector requests chats id messages snapshot omap].
  destruct (store_ok e (length (requests st))); cbn.
  - by rewrite lookup_insert_eq.
  - by rewrite <- app_assoc.
Qed.

Lemma addMessageToChat_unfold e r text :
  addMessageToChat e r text =
  (cid <- gets currentChatId ;;
   (if truthy_id cid then ret tt else createNewChat e) ;;;
   addMessageToChat_tail e r text).
Proof. reflexivity. Qed.

(** With a current chat, [addMessageToChat] is its tail. *)
Lemma addMessageToChat_with_chat e r text st :
  truthy_id (currentChatId st) = true ->
  addMessageToChat e r text st = addMessageToChat_tail e r text st.
Proof.
  intros Ht. rewrite addMessageToChat_unfold. unfold bind at 1, gets at 1.
  rewrite Ht. reflexivity.
Qed.

(** Without one, it is its tail after [createNewChat]. *)
Lemma addMessageToChat_without_chat e r text st :
  truthy_id (currentChatId st) = false ->
  addMessageToChat e r text st =
  addMessageToChat_tail e r text (final (createNewChat e st)).
Proof.
  intros Ht. rewrite addMessageToChat_unfold. unfold bind at 1, gets at 1.
  rewrite Ht. cbn beta iota. unfold bind at 1.
  rewrite createNewChat_eq. cbn zeta.
  by destruct (store_ok e (length (requests st))).
Qed.

Lemma addMessageToChat_tail_none e r text st :
  current_chat st = None -> addMessageToChat_tail e r text st = Returns tt st.
Proof.
  intros Hc. unfold addMessageToChat_tail, bind, gets. rewrite Hc.
  by destruct (currentChatId st).
Qed.

Lemma addMessageToChat_tail_some e r text st k c :
  currentChatId st = Some k -> chats st !! k = Some c ->
  let l := length (objects st) in
  let m := {| role := r; content := text; timestamp := clock e (ticks st);
              liked := None |} in
  let c1 := push_message l c in
  let c2 :=
    if bool_decide (r = user) && bool_decide (length (messages c1) = 1%nat)
    then with_title
           (substring0 30 text
              ++ (if (30 <? length text)%nat then lit "..." else [])) c1
    else c1 in
  let st1 := set_chats (<[k := c2]> (chats st))
               (set_objects (objects st ++ [m]) (set_ticks (S (ticks st)) st)) in
  let method :=
    if bool_decide (is_Some (<[k := c2]> (chats st) !! id c2)) then PUT else POST in
  let st2 := set_requests (requests st ++ [SaveChat method c2 (snapshot st1 c2)]) st1 in
  addMessageToChat_tail e r text st =
  if store_ok e (length (requests st)) then Returns tt st2
  else Throws (set_console (console st ++ [ErrorSavingChat]) st2).
Proof.
  intros Hk Hc. cbn zeta.
  unfold addMessageToChat_tail, bind, gets, current_chat.
  rewrite Hk, Hc.
  unfold read_clock, new_message, modify, saveChatToBackend, ret.
  cbn [ticks set_ticks objects set_objects chats set_chats requests set_requests console].
  by destruct (store_ok e (length (requests st))).
Qed.

(** The title a chat takes from its first message. *)
Lemma addMessageToChat_current e r text st k c :
  currentChatId st = Some k -> k <> [] -> chats st !! k = Some c ->
  let l := length (objects st) in
  let m := {| role := r; content := text; timestamp := clock e (ticks st);
              liked := None |} in
  let c1 := push_message l c in
  let c2 :=
    if bool_decide (r = user) && bool_decide (length (messages c1) = 1%nat)
    then with_title
           (substring0 30 text
              ++ (if (30 <? length text)%nat then lit "..." else [])) c1
    else c1 in
  let st1 := set_chats (<[k := c2]> (chats st))
               (set_objects (objects st ++ [m]) (set_ticks (S (ticks st)) st)) in
  let method :=
    if bool_decide (is_Some (<[k := c2]> (chats st) !! id c2)) then PUT else POST in
  let st2 := set_requests (requests st ++ [SaveChat method c2 (snapshot st1 c2)]) st1 in
  addMessageToChat e r text st =
  if store_ok e (length (requests st)) then Returns tt st2
  else Throws (set_console (console st ++ [ErrorSavingChat]) st2).
Proof.
  intros Hk Hne Hc. cbn zeta.
  unfold addMessageToChat, bind, gets, current_chat.
  rewrite Hk, (truthy_id_Some k Hne). unfold ret at 1. rewrite Hk, Hc.
  unfold read_clock, new_message, modify, saveChatToBackend, ret.
  cbn [ticks set_ticks objects set_objects chats set_chats requests set_requests console].
  by destruct (store_ok e (length (requests st))).
Qed.

End Equations.

Section Unblocking.

Lemma chat_requests_store r st :
  is_chat_request r = false ->
  chat_requests (set_requests (requests st ++ [r]) st) = chat_requests st.
Proof.
  intros Hr. unfold chat_requests. simpl. rewrite List.filter_app. simpl.
  rewrite Hr. apply app_nil_r.
Qed.

(** The error handler clears the flags, whatever else it does. *)
Lemma handler_flags e msg st :
  flags (final (handleSendMessageError e msg st)) = (false, false).
Proof.
  unfold handleSendMessageError. cbn zeta.
  unfold bind at 1. unfold console_error at 1, modify at 1. cbn beta iota.
  unfold bind at 1. unfold modify at 1. cbn beta iota.
  by rewrite (keeps_handler_rest flags).
Qed.

Lemma handler_events e msg st :
  events (final (handleSendMessageError e msg st)) = events st.
Proof. by apply (keeps_handleSendMessageError events). Qed.

Lemma handler_chat_requests e msg st :
  chat_requests (final (handleSendMessageError e msg st)) = chat_requests st.
Proof.
  apply (keeps_handleSendMessageError chat_requests); try done.
  apply chat_requests_store.
Qed.

Lemma process_line_untouched_or_clear e st0 line s :
  untouched_or_clear st0 s ->
  untouched_or_clear st0 (snd (process_line e line s))
  /\ (fst (process_line e line s) = Return ->
      flags (snd (process_line e line s)) = (false, false)).
Proof.
  intros H. rewrite process_line_classify.
  destruct (classify line) as [| | | |text|]; simpl; try done.
  - destruct (complete_busy e s) as [H1 H2].
    assert (flags (snd (complete e s)) = (false, false))
      by (unfold flags; by rewrite H1, H2).
    split; [by right|done].
  - destruct (deliver_frame text s) as (E & _ & _ & _ & F1 & F2).
    split; [|done]. destruct H as [[Hc Hf]|Hf]; [left|right].
    + split; [|unfold flags in *; by rewrite F1, F2].
      unfold completions in *. rewrite E, completions_app. simpl.
      unfold completions. lia.
    + unfold flags in *. by rewrite F1, F2.
Qed.

Lemma for_each_untouched_or_clear {A} (body : A -> state -> flow * state) st0 l s :
  (forall x s, untouched_or_clear st0 s ->
     untouched_or_clear st0 (snd (body x s))
     /\ (fst (body x s) = Return -> flags (snd (body x s)) = (false, false))) ->
  untouched_or_clear st0 s ->
  untouched_or_clear st0 (snd (for_each body l s))
  /\ (fst (for_each body l s) = Return ->
      flags (snd (for_each body l s)) = (false, false)).
Proof.
  intros Hb. revert s. induction l as [|x more IH]; intros s Hs; simpl; [done|].
  destruct (Hb x s Hs) as [H1 H2].
  destruct (body x s) as [[] s']; simpl in *; [by apply IH|auto].
Qed.

Lemma process_chunk_untouched_or_clear e st0 c s :
  untouched_or_clear st0 s ->
  untouched_or_clear st0 (snd (process_chunk e c s))
  /\ (fst (process_chunk e c s) = Return ->
      flags (snd (process_chunk e c s)) = (false, false)).
Proof.
  unfold process_chunk, process_lines. apply for_each_untouched_or_clear.
  intros line s0. apply process_line_untouched_or_clear.
Qed.

(** The loop leaves the flags set only when it met no completion and the
    stream ended. *)
Lemma read_loop_flags e body fin st b unread s :
  read_loop e body fin st = Finished b unread s ->
  flags s = (false, false)
  \/ (fin = EndOfStream /\ completions s = completions st /\ flags s = flags st).
Proof.
  intros Hr.
  destruct (read_loop_for_each e body fin st) as [He Ht].
  rewrite Hr in He, Ht. simpl in He, Ht.
  destruct (for_each_untouched_or_clear (process_chunk e) st body st) as [H1 H2].
  { intros c s0. apply process_chunk_untouched_or_clear. }
  { by left. }
  rewrite <- He in H1, H2.
  destruct (fst (for_each (process_chunk e) body st)) eqn:Hf.
  - destruct fin as [|msg]; [|done].
    destruct H1 as [[Hc Hfl]|Hfl]; [right|left]; done.
  - left. by apply H2.
Qed.

End Unblocking.

Section Sends.

(** X5. A send leaves a flag set only in one case: the response to
    its request was good, had a body, and the stream of the body ended
    without any completion. Then both flags are set. After a failed
    request, a bad status, a response without a body, a failed read or a
    completion the flags are clear. *)
Theorem only_a_silent_end_leaves_the_page_busy e st st' :
  isStreaming st = false -> isWaitingForResponse st = false ->
  trim (textInput st) <> [] ->
  sendMessage e st = Returns tt st' ->
  flags st' <> (false, false) ->
  flags st' = (true, true)
  /\ completions st' = completions st
  /\ exists status body,
       chat_api e (chat_request_number e st) = Response status body EndOfStream
       /\ response_ok status = true /\ null_body_status status = false.
Proof.
  intros Hs Hw Hmsg Hret Hbusy.
  rewrite (sendMessage_past_guard e st Hs Hw Hmsg) in Hret.
  assert (E1 : keeps events (addMessageToChat e user (trim (textInput st))))
    by (by apply keeps_addMessageToChat).
  specialize (E1 st).
  unfold chat_request_number.
  destruct (addMessageToChat e user (trim (textInput st)) st) as [[] s1|s1];
    [|done].
  cbn [final] in E1 |- *.
  rewrite transport_failures_run_the_handler in Hret. cbn zeta in Hret.
  cbn [requests set_currentStreamResponse set_busy set_currentFile
       set_textInput] in Hret.
  destruct (chat_api e (length (requests s1))) as [msg|status body fin] eqn:Hapi.
  - injection Hret as <-. by rewrite handler_flags in Hbusy.
  - destruct (response_ok status) eqn:Hok;
      [|injection Hret as <-; by rewrite handler_flags in Hbusy].
    destruct (null_body_status status) eqn:Hnull;
      [injection Hret as <-; by rewrite handler_flags in Hbusy|].
    match type of Hret with
    | context [read_loop e body fin ?s0] =>
        destruct (read_loop e body fin s0) as [b unread s3|msg s3] eqn:Hr
    end; [|injection Hret as <-; by rewrite handler_flags in Hbusy].
    injection Hret as <-.
    apply read_loop_flags in Hr as [Hf|(-> & Hc & Hf)]; [done|].
    split; [by rewrite Hf|]. split.
    + rewrite Hc. unfold completions, requesting. simpl. by rewrite E1.
    + eauto.
Qed.

Lemma omap_lookup_app (objs extra : list message) ls :
  forallb (fun l => (l <? length objs)%nat) ls = true ->
  omap (fun l => (objs ++ extra) !! l) ls = omap (fun l => objs !! l) ls.
Proof.
  induction ls as [|l ls IH]; [done|].
  cbn [forallb]. intros [Hl Hls]%andb_prop. apply Nat.ltb_lt in Hl.
  cbn [omap list_omap]. fold (omap (fun l => (objs ++ extra) !! l) ls).
  fold (omap (fun l => objs !! l) ls).
  by rewrite lookup_app_l, IH.
Qed.

Lemma messages_titled (b : bool) t c :
  messages (if b then with_title t c else c) = messages c.
Proof. by destruct b. Qed.

Lemma truthy_id_true cid :
  truthy_id cid = true -> exists k, cid = Some k /\ k <> [].
Proof. destruct cid as [[|x k]|]; try done. intros _. by eexists. Qed.

(** The history that [sendMessage] builds after it added the prompt is
    what the chat held before. *)
Lemma history_after_addMessageToChat e text st s1 :
  (forall c, current_chat st = Some c -> refers_to_messages st c = true) ->
  addMessageToChat e user text st = Returns tt s1 ->
  buildChatHistory s1 = history_before st.
Proof.
  intros Hwf. destruct (truthy_id (currentChatId st)) eqn:Ht.
  - rewrite addMessageToChat_with_chat by done.
    destruct (current_chat st) as [c|] eqn:Hc.
    + specialize (Hwf c eq_refl).
      destruct (truthy_id_true _ Ht) as (k & Hk & Hne).
      unfold current_chat in Hc. rewrite Hk in Hc.
      rewrite (addMessageToChat_tail_some e user text st k c Hk Hc).
      destruct (store_ok e (length (requests st))); [|done].
      intros [= <-].
      unfold buildChatHistory, history_before, current_chat.
      cbn [currentChatId set_requests set_chats set_objects set_ticks chats objects].
      rewrite Ht, Hk, Hc, lookup_insert_eq, messages_titled.
      cbn [messages push_message].
      rewrite removelast_last. unfold snapshot.
      by rewrite omap_lookup_app.
    + rewrite addMessageToChat_tail_none by done. intros [= <-].
      unfold buildChatHistory, history_before. by rewrite Ht, Hc.
  - rewrite addMessageToChat_without_chat by done.
    unfold history_before. rewrite Ht.
    rewrite createNewChat_eq. cbn zeta.
    destruct (store_ok e (length (requests st))); cbn [final].
    + erewrite addMessageToChat_tail_some;
        [|reflexivity|cbn [chats set_currentChatId set_chats]; apply lookup_insert_eq].
      match goal with |- context [store_ok e ?n] => destruct (store_ok e n) end;
        [|done].
      intros [= <-].
      unfold buildChatHistory, current_chat.
      cbn [currentChatId set_requests set_chats set_objects set_ticks
           set_currentChatId set_modelSelector chats objects].
      rewrite lookup_insert_eq. reflexivity.
    + intros Hs1.
      assert (Hk : keeps currentChatId (addMessageToChat_tail e user text))
        by (by apply keeps_addMessageToChat_tail).
      match type of Hs1 with _ ?s = _ => specialize (Hk s) end.
      rewrite Hs1 in Hk. cbn in Hk.
      unfold buildChatHistory. by rewrite Hk, Ht.
Qed.

(** The selector after [addMessageToChat]: a chat that is opened takes
    it over. *)
Lemma addMessageToChat_selector e r text st :
  modelSelector (final (addMessageToChat e r text st)) = selector_at_request e st.
Proof.
  assert (Hk : keeps modelSelector (addMessageToChat_tail e r text))
    by (by apply keeps_addMessageToChat_tail).
  unfold selector_at_request.
  destruct (truthy_id (currentChatId st)) eqn:Ht.
  - rewrite addMessageToChat_with_chat by done. apply Hk.
  - rewrite addMessageToChat_without_chat by done. rewrite Hk.
    rewrite createNewChat_eq. cbn zeta.
    by destruct (store_ok e (length (requests st))).
Qed.

(** X3. A send that passes the guard and returns has sent exactly one
    request to the chat endpoint: its prompt is the trimmed input, its
    model the value of the selector when the request is made (the value on
    the page, unless the send opens a chat, which assigns the selector),
    and its history the messages the current chat held before the send
    (the prompt is not repeated in the history; without a current chat the
    history is empty). *)
Theorem one_send_one_chat_request e st st' :
  isStreaming st = false -> isWaitingForResponse st = false ->
  trim (textInput st) <> [] ->
  (forall c, current_chat st = Some c -> refers_to_messages st c = true) ->
  sendMessage e st = Returns tt st' ->
  chat_requests st' =
  chat_requests st
    ++ [ChatRequest (trim (textInput st)) (selector_at_request e st)
          (history_before st)].
Proof.
  intros Hs Hw Hmsg Hwf Hret.
  rewrite (sendMessage_past_guard e st Hs Hw Hmsg) in Hret.
  pose proof (history_after_addMessageToChat e (trim (textInput st)) st) as Hh.
  assert (E1 : keeps chat_requests (addMessageToChat e user (trim (textInput st))))
    by (apply keeps_addMessageToChat; try done; apply chat_requests_store).
  pose proof (addMessageToChat_selector e user (trim (textInput st)) st) as E2.
  specialize (E1 st).
  destruct (addMessageToChat e user (trim (textInput st)) st) as [[] s1|s1];
    [|done].
  cbn [final] in E1, E2. specialize (Hh s1 Hwf eq_refl).
  rewrite transport_failures_run_the_handler in Hret. cbn zeta in Hret.
  match type of Hret with
  | context [requesting e ?p ?s0] =>
      assert (Hq : chat_requests (requesting e p s0) =
                   chat_requests st ++
                   [ChatRequest p (selector_at_request e st) (history_before st)])
  end.
  { unfold requesting, chat_requests.
    cbn [requests set_requests set_currentStreamMessage set_objects set_ticks
         set_currentStreamResponse set_busy set_currentFile set_textInput
         modelSelector].
    rewrite List.filter_app. cbn [List.filter is_chat_request].
    rewrite E2. fold (chat_requests s1). rewrite E1. do 3 f_equal.
    rewrite <- Hh. reflexivity. }
  rewrite <- Hq.
  match type of Hret with
  | context [chat_api e ?n] => destruct (chat_api e n) as [msg|status body fin]
  end.
  - injection Hret as <-. apply handler_chat_requests.
  - destruct (response_ok status);
      [|injection Hret as <-; apply handler_chat_requests].
    destruct (null_body_status status);
      [injection Hret as <-; apply handler_chat_requests|].
    match type of Hret with
    | context [read_loop e body fin ?s0] =>
        assert (Hl : chat_requests (end_state (read_loop e body fin s0))
                     = chat_requests s0)
          by (apply (keeps_read_loop chat_requests); try done;
              apply chat_requests_store);
        destruct (read_loop e body fin s0) as [b unread s3|msg s3]
    end; injection Hret as <-; cbn [end_state] in Hl.
    + done.
    + by rewrite handler_chat_requests.
Qed.

End Sends.

Section Guard.

Lemma trim_nil : trim [] = [].
Proof. reflexivity. Qed.

Lemma request_and_consume_returns e prompt st s' :
  request_and_consume e prompt st <> Throws s'.
Proof.
  intros Hret.
  rewrite transport_failures_run_the_handler in Hret. cbn zeta in Hret.
  destruct (chat_api e (length (requests st))) as [msg|status body fin];
    [discriminate Hret|].
  destruct (response_ok status); [|discriminate Hret].
  destruct (null_body_status status); [discriminate Hret|].
  destruct (read_loop e body fin (requesting e prompt st)); discriminate Hret.
Qed.

Lemma handler_textInput e msg st :
  textInput (final (handleSendMessageError e msg st)) = textInput st.
Proof. apply (keeps_handleSendMessageError textInput); reflexivity. Qed.

Lemma request_and_consume_textInput e prompt st s' :
  request_and_consume e prompt st = Returns tt s' ->
  textInput s' = textInput st.
Proof.
  intros Hret.
  rewrite transport_failures_run_the_handler in Hret. cbn zeta in Hret.
  destruct (chat_api e (length (requests st))) as [msg|status body fin];
    [injection Hret as <-; by rewrite handler_textInput|].
  destruct (response_ok status);
    [|injection Hret as <-; by rewrite handler_textInput].
  destruct (null_body_status status);
    [injection Hret as <-; by rewrite handler_textInput|].
  assert (Hl : textInput (end_state (read_loop e body fin (requesting e prompt st)))
               = textInput st)
    by (rewrite (keeps_read_loop textInput); reflexivity).
  destruct (read_loop e body fin (requesting e prompt st)) as [b u s3|msg s3];
    injection Hret as <-; cbn [end_state] in Hl.
  - exact Hl.
  - rewrite handler_textInput. exact Hl.
Qed.

(** X11. [updateSendButtonState] disables the send button exactly
    when [sendMessage] would return at once and leave the page as it is. *)
Theorem send_button_mirrors_the_guard e st :
  updateSendButtonState st = true <-> sendMessage e st = Returns tt st.
Proof.
  unfold updateSendButtonState. cbn zeta. split.
  - intros H. unfold sendMessage.
    destruct (isWaitingForResponse st); [by rewrite orb_true_r|].
    destruct (isStreaming st); [by rewrite orb_true_r|].
    rewrite !orb_false_r in H. apply negb_true_iff, Nat.ltb_ge in H.
    destruct (trim (textInput st)); [done|simpl in H; lia].
  - intros Hret.
    destruct (isWaitingForResponse st) eqn:Hw; [by rewrite orb_true_r|].
    destruct (isStreaming st) eqn:Hs; [by rewrite orb_true_r|].
    rewrite !orb_false_r. apply negb_true_iff, Nat.ltb_ge.
    destruct (trim (textInput st)) as [|x t] eqn:Hmsg; [simpl; lia|exfalso].
    assert (Hne : trim (textInput st) <> []) by (by rewrite Hmsg).
    rewrite (sendMessage_past_guard e st Hs Hw Hne) in Hret.
    destruct (addMessageToChat e user (trim (textInput st)) st) as [[] s1|s1];
      [|done].
    apply request_and_consume_textInput in Hret. cbn in Hret.
    rewrite Hret in Hmsg. discriminate Hmsg.
Qed.

End Guard.

Section RefusedSaves.

(** X9. When the store refuses to save the prompt, [sendMessage]
    throws there: nothing goes to the chat endpoint, no event is emitted,
    the flags stay clear and the input keeps its text; the chat on the page
    has the prompt all the same, which the store has not. *)
Theorem refused_save_aborts_the_send e st k c :
  isStreaming st = false -> isWaitingForResponse st = false ->
  trim (textInput st) <> [] ->
  currentChatId st = Some k -> k <> [] -> chats st !! k = Some c ->
  store_ok e (length (requests st)) = false ->
  exists st',
    sendMessage e st = Throws st'
    /\ chat_requests st' = chat_requests st
    /\ events st' = events st
    /\ flags st' = (false, false)
    /\ textInput st' = textInput st
    /\ console st' = console st ++ [ErrorSavingChat]
    /\ exists c' m,
         chats st' !! k = Some c'
         /\ messages c' = messages c ++ [length (objects st)]
         /\ objects st' !! length (objects st) = Some m
         /\ role m = user /\ content m = trim (textInput st).
Proof.
  intros Hs Hw Hmsg Hk Hne Hc Hno.
  rewrite (sendMessage_past_guard e st Hs Hw Hmsg).
  rewrite (addMessageToChat_current e user _ st k c Hk Hne Hc). cbn zeta.
  rewrite Hno. eexists. split; [reflexivity|].
  unfold chat_requests, flags.
  cbn [events textInput console chats objects requests
       isStreaming isWaitingForResponse
       set_console set_requests set_chats set_objects set_ticks].
  split; [apply filter_chat_requests_save|]. split; [reflexivity|].
  split; [by rewrite Hs, Hw|]. split; [reflexivity|]. split; [reflexivity|].
  eexists _, _. rewrite lookup_insert_eq, lookup_app_r, Nat.sub_diag by done.
  split; [reflexivity|]. rewrite messages_titled. by cbn.
Qed.

End RefusedSaves.

Section Chatless.

(** What holds of every state of the loop, and of the state it leaves. *)
Lemma read_loop_invariant (I R : state -> Prop) e body fin st :
  (forall line s, I s ->
     match process_line e line s with
     | (Continue, s') => I s'
     | (Return, s') => R s'
     end) ->
  I st ->
  match read_loop e body fin st with
  | Finished true _ s => R s
  | Finished false _ s => I s /\ fin = EndOfStream
  | ReadThrew msg s => I s /\ fin = ReadFails msg
  end.
Proof.
  intros Hb. revert st. induction body as [|c rest IH]; intros st Hi; simpl.
  - by destruct fin.
  - pose proof (for_each_invariant I R (process_line e) (split_nl (decode c)) st Hb Hi) as H.
    unfold process_chunk, process_lines.
    destruct (for_each (process_line e) (split_nl (decode c)) st) as [[] s'];
      [by apply IH|done].
Qed.

Lemma process_line_chatless e st0 line s :
  chatless st0 true s ->
  match process_line e line s with
  | (Continue, s') => chatless st0 true s'
  | (Return, s') => chatless st0 false s'
  end.
Proof.
  intros (Hk & Hc & Hr & Ha & Ho & Hl). rewrite process_line_classify.
  destruct (classify line) as [| | | |text|];
    try (repeat split; try done; exact Hl).
  - unfold complete. rewrite finalize_nothing.
    + by repeat split.
    + unfold can_persist. cbn [currentChatId set_events set_busy]. by rewrite Hk.
  - unfold deliver. cbn [currentStreamMessage set_events set_currentStreamResponse].
    destruct (Hl eq_refl) as [l Hl']. rewrite Hl'.
    repeat split; try done.
    cbn [objects set_objects set_events set_currentStreamResponse].
    by rewrite length_alter.
Qed.

(** The error handler on a page that has a streaming message and no
    chat. *)
Lemma handler_without_chat e msg st l :
  currentStreamMessage st = Some l -> current_chat st = None ->
  let text := lit "Connection error: " ++ msg in
  handleSendMessageError e msg st =
  Returns tt
    (set_currentStreamResponse []
       (set_currentStreamMessage None
          (set_objects
             (alter (with_content text) l (alter (with_content text) l (objects st)))
             (set_busy false
                (set_console (console st ++ [SendMessageFailed msg]) st))))).
Proof.
  intros Hl Hc. cbn zeta. unfold handleSendMessageError. cbn zeta.
  generalize (lit "Connection error: " ++ msg). intros text.
  unfold bind, modify, gets, console_error, updateStreamingMessage, ret.
  simpl. repeat (first [rewrite Hl | rewrite Hc]; simpl).
  assert (Hc' : forall o1 o2 b c0,
    current_chat
      (set_objects o1 (set_objects o2 (set_busy b (set_console c0 st)))) = None)
    by (intros; exact Hc).
  rewrite !Hc'. by destruct (currentChatId st).
Qed.

(** X10. When the store refuses to create the chat of a first
    message, the send goes on without a chat: the prompt goes to the chat
    endpoint with an empty history, one alert is shown, and the page ends
    with no chat, whatever the endpoint answers; the only message made is
    the reply. *)
Theorem refused_creation_sends_without_a_chat e st :
  isStreaming st = false -> isWaitingForResponse st = false ->
  trim (textInput st) <> [] ->
  currentChatId st = None ->
  store_ok e (length (requests st)) = false ->
  exists st' method c0,
    sendMessage e st = Returns tt st'
    /\ chats st' = chats st
    /\ currentChatId st' = None
    /\ requests st' =
       requests st
         ++ [SaveChat method c0 [];
             ChatRequest (trim (textInput st)) (modelSelector st) []]
    /\ alerts st' = S (alerts st)
    /\ length (objects st') = S (length (objects st)).
Proof.
  intros Hs Hw Hmsg Hk Hno.
  rewrite (sendMessage_past_guard e st Hs Hw Hmsg).
  rewrite addMessageToChat_without_chat by (by rewrite Hk).
  rewrite createNewChat_eq. cbn zeta. rewrite Hno. cbn [final].
  rewrite addMessageToChat_tail_none
    by (unfold current_chat; cbn [currentChatId set_alerts set_console
          set_requests set_ticks]; by rewrite Hk).
  match goal with
  | |- context [request_and_consume e ?p ?s0] =>
      destruct (request_and_consume e p s0) as [[] st'|st'] eqn:Hret;
        [|by apply request_and_consume_returns in Hret];
      pose proof (read_loop_invariant
                    (chatless (requesting e p s0) true)
                    (chatless (requesting e p s0) false) e) as Hinv;
      assert (Hq : chatless (requesting e p s0) true (requesting e p s0))
        by (repeat split; eauto)
  end.
  eexists st', _, _. split; [reflexivity|].
  rewrite transport_failures_run_the_handler in Hret. cbn zeta in Hret.
  match type of Hret with
  | context [requesting e ?p ?s0] =>
      assert (Hfail : forall msg s, chatless (requesting e p s0) true s ->
                chatless (requesting e p s0) false
                  (final (handleSendMessageError e msg s)))
  end.
  { intros msg s (Q1 & Q2 & Q3 & Q4 & Q5 & Q6).
    destruct (Q6 eq_refl) as [l Hl].
    rewrite (handler_without_chat e msg s l Hl)
      by (unfold current_chat; by rewrite Q1).
    repeat split; try done. cbn. by rewrite !length_alter. }
  match type of Hret with
  | context [requesting e ?p ?s0] =>
      assert (Hend : chatless (requesting e p s0) false st')
  end.
  { match type of Hret with
    | context [chat_api e ?n] => destruct (chat_api e n) as [msg|status body fin]
    end.
    - injection Hret as <-. by apply Hfail.
    - destruct (response_ok status); [|injection Hret as <-; by apply Hfail].
      destruct (null_body_status status); [injection Hret as <-; by apply Hfail|].
      specialize (Hinv body fin _ (process_line_chatless e _) Hq).
      match type of Hret with
      | context [read_loop e body fin ?s0] =>
          destruct (read_loop e body fin s0) as [[] unread s3|msg s3]
      end; injection Hret as <-.
      + done.
      + destruct Hinv as [(Q1 & Q2 & Q3 & Q4 & Q5 & _) _]. by repeat split.
      + apply Hfail. by destruct Hinv. }
  destruct Hend as (Q1 & Q2 & Q3 & Q4 & Q5 & _).
  rewrite Q1, Q2, Q3, Q4, Q5. unfold requesting, buildChatHistory.
  cbn. rewrite Hk. cbn. rewrite length_app, Nat.add_comm, <- app_assoc. done.
Qed.

End Chatless.

Section Exchange.

Lemma process_line_exchanging e st0 k lu la c line s :
  (forall n, store_ok e n = true) ->
  k <> [] -> lu <> la -> chats st0 !! k = Some c ->
  exchanging st0 k lu la true s ->
  match process_line e line s with
  | (Continue, s') => exchanging st0 k lu la true s'
  | (Return, s') => exchanging st0 k lu la false s'
  end.
Proof.
  intros Hok Hne Hll Hc (Hk & Hu & Ha & Hch & Hl & Hcomp).
  rewrite process_line_classify.
  destruct (classify line) as [| | | |text|]; try (by repeat split).
  - unfold complete.
    rewrite (finalize_persists e _ k la c);
      [|done|done|done|cbn [chats set_events set_busy]; by rewrite Hch].
    rewrite Hok. cbn zeta.
    repeat split; try done. exists c. split; [done|].
    cbn [chats set_currentStreamResponse set_currentStreamMessage set_requests
         set_chats set_events set_busy]. by rewrite Hch.
  - destruct (deliver_frame text s) as (E & _).
    unfold deliver in *.
    cbn [currentStreamMessage set_events set_currentStreamResponse] in *.
    rewrite Hl in *.
    repeat split; try done.
    + cbn [objects set_objects set_events set_currentStreamResponse].
      by rewrite list_lookup_alter_ne.
    + cbn [objects set_objects set_events set_currentStreamResponse].
      rewrite list_lookup_alter_eq.
      destruct (objects s !! la) as [m|]; [|done]. simpl in *. done.
    + unfold completions in *. rewrite E, completions_app. simpl.
      unfold completions. lia.
Qed.

Lemma handler_completions e msg s :
  completions (final (handleSendMessageError e msg s)) = completions s.
Proof. unfold completions. by rewrite handler_events. Qed.

(** X2. A send on a page with a current chat, in a world whose store
    accepts every save: once the loop has emitted a completion, the chat
    holds two more messages, the prompt ([user], the trimmed input) and
    then the reply ([assistant], the concatenation of the deltas of this
    send); both flags are clear and no streaming message is left. *)
Theorem exchange_is_recorded e st k c st' :
  isStreaming st = false -> isWaitingForResponse st = false ->
  trim (textInput st) <> [] ->
  currentChatId st = Some k -> k <> [] -> chats st !! k = Some c ->
  (forall n, store_ok e n = true) ->
  sendMessage e st = Returns tt st' ->
  completions st' <> completions st ->
  let lu := length (objects st) in
  exists c' mu ma,
    chats st' !! k = Some c'
    /\ messages c' = messages c ++ [lu; S lu]
    /\ objects st' !! lu = Some mu
    /\ role mu = user /\ content mu = trim (textInput st)
    /\ objects st' !! S lu = Some ma
    /\ role ma = assistant
    /\ content ma = delta_text (drop (length (events st)) (events st'))
    /\ flags st' = (false, false)
    /\ currentStreamMessage st' = None.
Proof.
  intros Hs Hw Hmsg Hk Hne Hc Hok Hret Hdone. cbn zeta.
  rewrite (sendMessage_past_guard e st Hs Hw Hmsg) in Hret.
  rewrite (addMessageToChat_current e user _ st k c Hk Hne Hc) in Hret.
  cbn zeta in Hret. rewrite Hok in Hret.
  rewrite transport_failures_run_the_handler in Hret. cbn zeta in Hret.
  set (lu := length (objects st)) in *.
  match type of Hret with
  | context [requesting e ?p ?s0] => set (st0 := requesting e p s0) in *
  end.
  set (I going s := exchanging st0 k lu (S lu) going s
                    /\ holds_reply st0 (S lu) going s).
  assert (Hev : events st0 = events st) by reflexivity.
  assert (Hla : objects st0 !! S lu =
                Some {| role := assistant; content := [];
                        timestamp := clock e (S (ticks st)); liked := None |}).
  { subst st0. unfold requesting.
    cbn [objects set_requests set_currentStreamMessage set_objects set_ticks
         set_currentStreamResponse set_busy set_currentFile set_textInput
         set_chats ticks].
    rewrite lookup_app_r; rewrite length_app, Nat.add_comm; cbn [length plus];
      [|done].
    by rewrite Nat.sub_diag. }
  assert (Hlu : exists mu, objects st0 !! lu = Some mu /\ role mu = user
                           /\ content mu = trim (textInput st)).
  { subst st0. unfold requesting.
    cbn [objects set_requests set_currentStreamMessage set_objects set_ticks
         set_currentStreamResponse set_busy set_currentFile set_textInput
         set_chats ticks].
    eexists. rewrite lookup_app_l by (rewrite length_app; cbn; lia).
    rewrite lookup_app_r by done. subst lu. rewrite Nat.sub_diag. by cbn. }
  assert (Hch : exists c2, chats st0 !! k = Some c2
                           /\ messages c2 = messages c ++ [lu]).
  { subst st0. unfold requesting.
    cbn [chats set_requests set_currentStreamMessage set_objects set_ticks
         set_currentStreamResponse set_busy set_currentFile set_textInput
         set_chats].
    eexists. rewrite lookup_insert_eq. split; [reflexivity|].
    by rewrite messages_titled. }
  destruct Hch as (c2 & Hc2 & Hm2).
  assert (Hcid : currentChatId st0 = currentChatId st) by reflexivity.
  assert (Hcsm : currentStreamMessage st0 = Some (S lu)).
  { subst st0. unfold requesting.
    cbn [currentStreamMessage set_requests set_currentStreamMessage
         objects set_objects set_ticks set_currentStreamResponse set_busy
         set_currentFile set_textInput set_chats].
    by rewrite length_app, Nat.add_comm. }
  assert (Hcsr : currentStreamResponse st0 = []) by reflexivity.
  clearbody st0.
  assert (H0 : I true st0).
  { split.
    - unfold exchanging. rewrite Hcid, Hk, Hla. done.
    - exists [], {| role := assistant; content := [];
                    timestamp := clock e (S (ticks st)); liked := None |}.
      rewrite !app_nil_r, Hcsr. done. }
  assert (Hstep : forall line s, I true s ->
            match process_line e line s with
            | (Continue, s') => I true s'
            | (Return, s') => I false s'
            end).
  { intros line s [H1 H2].
    pose proof (process_line_exchanging e st0 k lu (S lu) c2 line s Hok Hne
                  (n_Sn lu) Hc2 H1) as P1.
    pose proof (process_line_holds_reply e st0 (S lu) line s H2) as P2.
    by destruct (process_line e line s) as [[] s']. }
  assert (Hgoing : forall s, I true s -> completions s = completions st).
  { intros s [(_ & _ & _ & _ & _ & Hcs) _]. rewrite Hcs.
    unfold completions. by rewrite Hev. }
  assert (Hend : I false st').
  { match type of Hret with
    | context [chat_api e ?n] => destruct (chat_api e n) as [msg|status body fin]
    end.
    - injection Hret as <-. exfalso. apply Hdone.
      rewrite handler_completions. by apply Hgoing.
    - destruct (response_ok status).
      2: { injection Hret as <-. exfalso. apply Hdone.
           rewrite handler_completions. by apply Hgoing. }
      destruct (null_body_status status).
      1: { injection Hret as <-. exfalso. apply Hdone.
           rewrite handler_completions. by apply Hgoing. }
      pose proof (read_loop_invariant (I true) (I false) e body fin st0 Hstep H0)
        as Hinv.
      destruct (read_loop e body fin st0) as [[] unread s3|msg s3];
        injection Hret as <-.
      + done.
      + exfalso. apply Hdone. apply Hgoing. by destruct Hinv.
      + exfalso. apply Hdone. rewrite handler_completions.
        apply Hgoing. by destruct Hinv. }
  destruct Hend as [(E1 & E2 & E3 & (c3 & Hc3 & E4) & E5 & E6)
                    (evs & ma & R1 & R2 & R3 & _)].
  destruct Hlu as (mu & Hmu & Hru & Hcu).
  rewrite Hc2 in Hc3. injection Hc3 as <-.
  exists (push_message (S lu) c2), mu, ma.
  rewrite E4, lookup_insert_eq, E2, Hmu, R2.
  rewrite R2 in E3. injection E3 as E3.
  rewrite R1, Hev, drop_app_length.
  cbn [messages push_message]. rewrite Hm2, <- app_assoc.
  rewrite Hcsr in R3. repeat split; done.
Qed.

End Exchange.

Section Titles.

(** X12. [addMessageToChat] appends the message to the current chat.
    The chat takes its title from its first message when the user wrote it:
    the first thirty code units, followed by three dots when there are
    more (at most 33 code units, the whole text when it has no more than
    thirty). A message of the assistant, or a message that is not the
    first, leaves the title. *)
Theorem first_message_titles_the_chat e r text st k c :
  currentChatId st = Some k -> k <> [] -> chats st !! k = Some c ->
  exists c',
    chats (final (addMessageToChat e r text st)) !! k = Some c'
    /\ messages c' = messages c ++ [length (objects st)]
    /\ (r = user -> messages c = [] ->
        title c' = take 30 text ++ (if (30 <? length text)%nat then lit "..." else [])
        /\ (length (title c') <= 33)%nat
        /\ ((length text <= 30)%nat -> title c' = text))
    /\ (r = assistant \/ messages c <> [] -> title c' = title c).
Proof.
  intros Hk Hne Hc.
  rewrite (addMessageToChat_current e r text st k c Hk Hne Hc). cbn zeta.
  eexists. split.
  { destruct (store_ok e (length (requests st))); cbn [final chats set_console
      set_requests set_chats]; apply lookup_insert_eq. }
  split; [by rewrite messages_titled|]. split.
  - intros -> Hm. cbn [messages push_message]. rewrite Hm.
    cbn [app length]. rewrite !bool_decide_eq_true_2 by done.
    cbn [andb title with_title]. unfold substring0. split; [done|]. split.
    + rewrite length_app, length_take.
      destruct (30 <? length text)%nat;
        [change (length (lit "...")) with 3%nat|cbn [length]]; lia.
    + intros Hlen. rewrite take_ge by done.
      replace (30 <? length text)%nat with false; [apply app_nil_r|].
      symmetry. apply Nat.ltb_ge. lia.
  - intros [-> | Hm].
    + done.
    + cbn [messages push_message].
      rewrite (bool_decide_eq_false_2 (length (messages c ++ [_]) = 1%nat)).
      * by rewrite andb_false_r.
      * rewrite length_app. simpl. destruct (messages c); [done|simpl; lia].
Qed.

End Titles.

Section Identifiers.

Lemma digits_value_cons d ds :
  digits_value (d :: ds) = (d - 48) * 10 ^ N.of_nat (length ds) + digits_value ds.
Proof.
  unfold digits_value. simpl. generalize (d - 48). intros a.
  assert (H : forall acc,
    fold_left (fun acc c => acc * 10 + (c - 48)) ds acc
    = acc * 10 ^ N.of_nat (length ds)
      + fold_left (fun acc c => acc * 10 + (c - 48)) ds 0).
  { induction ds as [|x ds IH]; intros acc.
    - simpl. lia.
    - cbn [fold_left length]. rewrite IH, (IH (0 * 10 + (x - 48))).
      rewrite Nat2N.inj_succ, N.pow_succ_r'. lia. }
  apply H.
Qed.

Lemma digits_fuel_value fuel n acc :
  n < 2 ^ N.of_nat fuel ->
  digits_value (digits_fuel fuel n acc)
  = n * 10 ^ N.of_nat (length acc) + digits_value acc.
Proof.
  revert n acc. induction fuel as [|f IH]; intros n acc Hn.
  - simpl in *. assert (n = 0) as -> by lia. lia.
  - cbn [digits_fuel]. rewrite Nat2N.inj_succ, N.pow_succ_r' in Hn.
    destruct (n <? 10) eqn:Hlt.
    + apply N.ltb_lt in Hlt. rewrite digits_value_cons.
      rewrite N.mod_small by exact Hlt.
      replace (48 + n - 48) with n by lia. reflexivity.
    + apply N.ltb_ge in Hlt. rewrite IH.
      * rewrite digits_value_cons. cbn [length].
        rewrite Nat2N.inj_succ, N.pow_succ_r'.
        replace (48 + n mod 10 - 48) with (n mod 10)
          by (by rewrite N.add_comm, N.add_sub).
        pose proof (N.div_mod n 10 ltac:(lia)) as Hd.
        generalize dependent (10 ^ N.of_nat (length acc)). intros p.
        rewrite Hd at 3. lia.
      * assert (n / 10 <= n / 2) by (apply N.div_le_compat_l; lia).
        assert (n / 2 < 2 ^ N.of_nat f) by (apply N.Div0.div_lt_upper_bound; lia).
        lia.
Qed.

(** The digits that [String(n)] prints read back as [n]. *)
Lemma digits_value_decimal n : digits_value (decimal n) = n.
Proof.
  unfold decimal. rewrite digits_fuel_value.
  - simpl. unfold digits_value. simpl. lia.
  - rewrite Nat2N.inj_succ, N2Nat.id.
    destruct (N.eq_dec n 0) as [->|Hn]; [done|].
    apply N.log2_spec. lia.
Qed.

(** X13. [createNewChat] names a chat after the instant it reads
    from the clock: chats created at different instants get different
    identifiers. *)
Theorem chats_created_at_different_instants_differ e st e' st' :
  store_ok e (length (requests st)) = true ->
  store_ok e' (length (requests st')) = true ->
  clock e (ticks st) <> clock e' (ticks st') ->
  currentChatId (final (createNewChat e st))
  <> currentChatId (final (createNewChat e' st')).
Proof.
  intros Hok Hok' Hne. rewrite !createNewChat_eq. cbn zeta.
  rewrite Hok, Hok'. cbn [final currentChatId set_currentChatId].
  intros [= H]. apply Hne.
  rewrite <- (digits_value_decimal (clock e (ticks st))),
          <- (digits_value_decimal (clock e' (ticks st'))).
  by rewrite H.
Qed.

End Identifiers.

Section ChatList.

Lemma deleteChat_eq e k st :
  let st1 := set_requests (requests st ++ [DeleteChat k]) st in
  deleteChat e k st =
  if store_ok e (length (requests st))
  then Returns tt
         (let st2 := set_chats (delete k (chats st)) st1 in
          if bool_decide (currentChatId st = Some k)
          then set_currentChatId None st2 else st2)
  else Returns tt
         (set_alerts (S (alerts st))
            (set_console
               (console st ++ [ErrorDeletingChatFromBackend; ErrorDeletingChat])
               st1)).
Proof.
  cbn zeta. unfold deleteChat, try_catch, bind, deleteChatFromBackend, modify,
    console_error, alert.
  destruct (store_ok e (length (requests st))); cbn.
  - reflexivity.
  - by rewrite <- app_assoc.
Qed.

(** X14. A chat that is created and then deleted, the store accepting
    both requests, leaves the chat list as it was and no current chat; the
    store got a POST and a DELETE. *)
Theorem new_chat_deleted_again e st :
  let chatId := lit "chat_" ++ decimal (clock e (ticks st)) in
  chats st !! chatId = None ->
  store_ok e (length (requests st)) = true ->
  store_ok e (S (length (requests st))) = true ->
  let st' := final (deleteChat e chatId (final (createNewChat e st))) in
  chats st' = chats st
  /\ currentChatId st' = None
  /\ exists c, requests st' = requests st ++ [SaveChat POST c []; DeleteChat chatId].
Proof.
  cbn zeta. intros Hfresh Hok1 Hok2.
  rewrite createNewChat_eq. cbn zeta. rewrite Hok1. cbn [final].
  rewrite deleteChat_eq. cbn zeta.
  cbn [requests set_currentChatId set_chats set_requests set_ticks
       set_modelSelector].
  rewrite length_app, Nat.add_comm. cbn [length plus]. rewrite Hok2.
  cbn [final currentChatId set_currentChatId set_chats set_requests set_ticks
       set_modelSelector chats].
  rewrite bool_decide_eq_true_2 by done.
  cbn [chats currentChatId requests set_currentChatId set_chats set_requests
       set_modelSelector].
  split; [by rewrite delete_insert_id|]. split; [done|].
  eexists. rewrite <- app_assoc.
  rewrite bool_decide_eq_false_2; [reflexivity|].
  rewrite Hfresh. by intros [? ?].
Qed.

Lemma pinChat_eq e k st c :
  chats st !! k = Some c ->
  let c1 := with_pinned (negb (pinned c)) c in
  let st1 := set_chats (<[k := c1]> (chats st)) st in
  let method :=
    if bool_decide (is_Some (<[k := c1]> (chats st) !! id c1)) then PUT else POST in
  let st2 := set_requests (requests st ++ [SaveChat method c1 (snapshot st c1)]) st1 in
  pinChat e k st =
  if store_ok e (length (requests st)) then Returns tt st2
  else Throws (set_console (console st ++ [ErrorSavingChat]) st2).
Proof.
  intros Hc. cbn zeta. unfold pinChat, bind, gets. rewrite Hc.
  unfold modify, saveChatToBackend, ret.
  cbn [chats set_chats requests set_requests console].
  by destruct (store_ok e (length (requests st))).
Qed.

Lemma with_pinned_twice c :
  with_pinned (negb (pinned (with_pinned (negb (pinned c)) c)))
    (with_pinned (negb (pinned c)) c) = c.
Proof. destruct c as [? ? ? ? ? []]; reflexivity. Qed.

(** X15. [pinChat] turns the pin of the chat and saves it. Called
    twice, the store accepting both saves, it gives back the chat list; the
    store was sent the chat pinned the other way, then the chat as it
    was. *)
Theorem pinning_twice_restores_the_chat e k st c :
  chats st !! k = Some c ->
  store_ok e (length (requests st)) = true ->
  store_ok e (S (length (requests st))) = true ->
  exists st1 st2 m1 m2,
    pinChat e k st = Returns tt st1
    /\ pinChat e k st1 = Returns tt st2
    /\ (pinned <$> chats st1 !! k) = Some (negb (pinned c))
    /\ chats st2 = chats st
    /\ requests st2 =
       requests st
         ++ [SaveChat m1 (with_pinned (negb (pinned c)) c) (snapshot st c);
             SaveChat m2 c (snapshot st c)].
Proof.
  intros Hc Hok1 Hok2.
  rewrite (pinChat_eq e k st c Hc). cbn zeta. rewrite Hok1.
  eexists _, _, _, _. split; [reflexivity|].
  erewrite pinChat_eq by (cbn [chats set_requests set_chats]; apply lookup_insert_eq).
  cbn zeta. cbn [requests set_requests set_chats].
  rewrite length_app, Nat.add_comm. cbn [length plus]. rewrite Hok2.
  split; [reflexivity|].
  cbn [chats set_requests set_chats requests].
  rewrite lookup_insert_eq. split; [done|].
  rewrite insert_insert_eq, with_pinned_twice, insert_id by done.
  split; [done|]. rewrite <- app_assoc. reflexivity.
Qed.

End ChatList.

Section Rating.

Lemma find_by_timestamp_first objs t before l after m :
  objs !! l = Some m -> timestamp m = t ->
  (forall l' m', l' ∈ before -> objs !! l' = Some m' -> timestamp m' <> t) ->
  find_by_timestamp objs t (before ++ l :: after) = Some l.
Proof.
  intros Hm Ht Hb. unfold find_by_timestamp.
  induction before as [|x before IH]; cbn [app List.find].
  - by rewrite Hm, Ht, N.eqb_refl.
  - destruct (objs !! x) as [mx|] eqn:Hx.
    + rewrite (proj2 (N.eqb_neq _ _)).
      * apply IH. intros l' m' Hin. apply Hb. by right.
      * apply (Hb x mx); [by left|done].
    + apply IH. intros l' m' Hin. apply Hb. by right.
Qed.

Lemma find_by_timestamp_none objs t ls :
  (forall l m, l ∈ ls -> objs !! l = Some m -> timestamp m <> t) ->
  find_by_timestamp objs t ls = None.
Proof.
  intros Hb. unfold find_by_timestamp.
  induction ls as [|x ls IH]; cbn [List.find]; [done|].
  destruct (objs !! x) as [mx|] eqn:Hx.
  - rewrite (proj2 (N.eqb_neq _ _)).
    + apply IH. intros l m Hin. apply Hb. by right.
    + apply (Hb x mx); [by left|done].
  - apply IH. intros l m Hin. apply Hb. by right.
Qed.

Lemma rateMessage_eq e t v st k c :
  currentChatId st = Some k -> k <> [] -> chats st !! k = Some c ->
  rateMessage e t v st =
  match find_by_timestamp (objects st) t (messages c) with
  | Some l =>
      let st1 := set_objects (alter (with_liked (Some v)) l (objects st)) st in
      let method := if bool_decide (is_Some (chats st !! id c)) then PUT else POST in
      let st2 := set_requests (requests st ++ [SaveChat method c (snapshot st1 c)]) st1 in
      if store_ok e (length (requests st)) then Returns tt st2
      else Throws (set_console (console st ++ [ErrorSavingChat]) st2)
  | None => Returns tt st
  end.
Proof.
  intros Hk Hne Hc. unfold rateMessage, bind, gets, current_chat.
  rewrite Hk, Hc, (truthy_id_Some k Hne).
  destruct (find_by_timestamp (objects st) t (messages c)) as [l|]; [|done].
  unfold modify, saveChatToBackend, ret.
  cbn [chats set_objects requests set_requests console].
  by destruct (store_ok e (length (requests st))).
Qed.

(** X16. [rateMessage] marks the first message of the current chat
    that bears the timestamp, and no other message, then sends the chat to
    the store. When no message of the chat bears the timestamp it changes
    nothing and sends nothing. *)
Theorem rating_marks_the_first_message_with_the_timestamp e t v st k c :
  currentChatId st = Some k -> k <> [] -> chats st !! k = Some c ->
  (forall before l after m,
     messages c = before ++ l :: after ->
     objects st !! l = Some m -> timestamp m = t ->
     (forall l' m', l' ∈ before -> objects st !! l' = Some m' -> timestamp m' <> t) ->
     let st' := final (rateMessage e t v st) in
     objects st' = alter (with_liked (Some v)) l (objects st)
     /\ objects st' !! l = Some (with_liked (Some v) m)
     /\ chats st' = chats st
     /\ exists method,
          requests st' = requests st ++ [SaveChat method c (snapshot st' c)])
  /\ ((forall l m, l ∈ messages c -> objects st !! l = Some m -> timestamp m <> t) ->
      rateMessage e t v st = Returns tt st).
Proof.
  intros Hk Hne Hc. rewrite (rateMessage_eq e t v st k c Hk Hne Hc). split.
  - intros before l after m Hm Hl Ht Hb. cbn zeta.
    rewrite Hm, (find_by_timestamp_first _ t before l after m Hl Ht Hb).
    destruct (store_ok e (length (requests st)));
      cbn [final objects chats requests set_console set_requests set_objects];
      rewrite list_lookup_alter_eq, Hl; repeat split; try done; by eexists.
  - intros Hnone. by rewrite find_by_timestamp_none.
Qed.

End Rating.

Section Renaming.

Lemma trimStart_head s c :
  head (trimStart s) = Some c -> is_trim_space c = false.
Proof.
  induction s as [|x s IH]; cbn [trimStart]; [done|].
  destruct (is_trim_space x) eqn:Hx; [done|].
  by intros [= <-].
Qed.

Lemma trimStart_suffix s : exists p, s = p ++ trimStart s.
Proof.
  induction s as [|x s [p IH]]; [by exists []|]. cbn [trimStart].
  destruct (is_trim_space x).
  - exists (x :: p). cbn. by rewrite <- IH.
  - by exists [].
Qed.

Lemma head_rev {A} (l : list A) : head (rev l) = last l.
Proof.
  destruct l as [|x l] using rev_ind; [done|].
  by rewrite rev_unit, last_snoc.
Qed.

Lemma last_rev {A} (l : list A) : last (rev l) = head l.
Proof. destruct l as [|x l]; [done|]. cbn [rev]. by rewrite last_snoc. Qed.

(** What [trim] leaves neither begins nor ends with white space. *)
Lemma trim_ends s a b :
  head (trim s) = Some a -> last (trim s) = Some b ->
  is_trim_space a = false /\ is_trim_space b = false.
Proof.
  unfold trim. set (t := trimStart s). set (u := trimStart (rev t)).
  rewrite head_rev, last_rev. intros Ha Hb. split.
  - destruct (trimStart_suffix (rev t)) as [p Hp]. fold u in Hp.
    assert (Hl : last (rev t) = Some a).
    { rewrite Hp. destruct u as [|y u] using rev_ind; [done|].
      rewrite app_assoc, !last_snoc in *. done. }
    rewrite last_rev in Hl. by apply (trimStart_head s).
  - by apply (trimStart_head (rev t)).
Qed.

Lemma confirmRename_eq e d st k c :
  currentEditingChat d = Some k -> k <> [] -> chats st !! k = Some c ->
  let t := trim (renameInput d) in
  confirmRename e d st =
  if jsstring_eqb t [] then Returns (closeRenameModal d) st
  else
    let c1 := with_title t c in
    let st1 := set_chats (<[k := c1]> (chats st)) st in
    let method :=
      if bool_decide (is_Some (<[k := c1]> (chats st) !! id c1)) then PUT else POST in
    let st2 := set_requests (requests st ++ [SaveChat method c1 (snapshot st c1)]) st1 in
    if store_ok e (length (requests st)) then Returns (closeRenameModal d) st2
    else Throws (set_console (console st ++ [ErrorSavingChat]) st2).
Proof.
  intros Hk Hne Hc. cbn zeta. unfold confirmRename. rewrite Hk.
  rewrite (truthy_id_Some k Hne). unfold bind at 1. unfold bind at 1, gets at 1.
  rewrite Hc. destruct (jsstring_eqb (trim (renameInput d)) []); [done|].
  unfold bind, modify, saveChatToBackend, ret.
  cbn [chats set_chats requests set_requests console].
  by destruct (store_ok e (length (requests st))).
Qed.

(** X17. [confirmRename] takes the trimmed input for title. A blank
    input changes nothing, sends nothing and closes the dialog. Any other
    input gives the chat a title that neither begins nor ends with white
    space; the dialog is closed when the store accepts the save, and the
    call throws, the title changed all the same, when it refuses. *)
Theorem rename_takes_the_trimmed_input e d st k c :
  currentEditingChat d = Some k -> k <> [] -> chats st !! k = Some c ->
  let t := trim (renameInput d) in
  (t = [] -> confirmRename e d st = Returns (closeRenameModal d) st)
  /\ (t <> [] ->
      (exists a b, head t = Some a /\ last t = Some b
                   /\ is_trim_space a = false /\ is_trim_space b = false)
      /\ chats (final (confirmRename e d st)) = <[k := with_title t c]> (chats st)
      /\ exists st',
           confirmRename e d st =
           if store_ok e (length (requests st))
           then Returns (closeRenameModal d) st' else Throws st').
Proof.
  intros Hk Hne Hc. cbn zeta.
  rewrite (confirmRename_eq e d st k c Hk Hne Hc). cbn zeta.
  unfold jsstring_eqb. split.
  - intros Ht. by rewrite Ht, bool_decide_eq_true_2.
  - intros Ht. rewrite bool_decide_eq_false_2 by done. split; [|split].
    + destruct (trim (renameInput d)) as [|a t'] eqn:E; [done|].
      destruct (last (a :: t')) as [b|] eqn:Hb.
      * exists a, b. split; [done|]. split; [done|].
        apply (trim_ends (renameInput d)); by rewrite E.
      * by apply last_None in Hb.
    + by destruct (store_ok e (length (requests st))).
    + destruct (store_ok e (length (requests st))); by eexists.
Qed.

End Renaming.

Section QuietHandlers.

Lemma keeps_quiet {A} (c : M A) :
  keeps events c -> keeps isStreaming c -> keeps isWaitingForResponse c ->
  keeps chat_requests c -> quiet c.
Proof. intros H1 H2 H3 H4 st. by repeat split. Qed.

(** X18. Pinning, rating and renaming a chat leave the stream alone:
    whatever the page holds and however they end, they emit no event,
    assign neither flag and send nothing to the chat endpoint. *)
Theorem chat_list_handlers_leave_the_stream_alone e :
  (forall k, quiet (pinChat e k))
  /\ (forall t v, quiet (rateMessage e t v))
  /\ (forall d, quiet (confirmRename e d)).
Proof.
  split; [|split]; intros; apply keeps_quiet;
    first [apply keeps_pinChat | apply keeps_rateMessage | apply keeps_confirmRename];
    try reflexivity; apply chat_requests_store.
Qed.

End QuietHandlers.

Section Handler.

(** X6. Whatever the page holds and whatever the store answers,
    [handleSendMessageError] leaves both flags clear, emits no event and
    sends nothing to the chat endpoint. *)
Theorem error_handler_always_unblocks e msg st :
  let st' := final (handleSendMessageError e msg st) in
  flags st' = (false, false)
  /\ events st' = events st
  /\ chat_requests st' = chat_requests st.
Proof.
  cbn zeta. split; [apply handler_flags|].
  split; [apply handler_events|apply handler_chat_requests].
Qed.

(** X7. On a page without a current chat the error handler only
    shows the error: the streaming message takes the text, no chat changes,
    nothing is sent to the store and nothing is alerted. *)
Theorem transport_failure_without_a_chat_is_only_shown e msg st l m :
  currentStreamMessage st = Some l -> objects st !! l = Some m ->
  current_chat st = None ->
  let st' := final (handleSendMessageError e msg st) in
  objects st' !! l = Some (with_content (lit "Connection error: " ++ msg) m)
  /\ chats st' = chats st
  /\ requests st' = requests st
  /\ alerts st' = alerts st
  /\ currentStreamMessage st' = None.
Proof.
  intros Hl Hm Hc. cbn zeta.
  rewrite (handler_without_chat e msg st l Hl Hc). cbn zeta.
  cbn [final objects chats requests alerts currentStreamMessage
       set_currentStreamResponse set_currentStreamMessage set_objects set_busy
       set_console].
  rewrite !list_lookup_alter_eq, Hm. by repeat split.
Qed.

End Handler.

Section TwoCopies.

(** The [catch] block in place and the error handler leave the same page,
    console apart, whenever there is a streaming message and the current
    chat is not named by the empty string. *)
Lemma catch_in_place_final e msg st l :
  currentStreamMessage st = Some l -> currentChatId st <> Some [] ->
  set_console [] (final (catch_in_place e msg st))
  = set_console [] (final (handleSendMessageError e msg st)).
Proof.
  intros Hl Hne.
  destruct (current_chat st) as [c|] eqn:Hc.
  - unfold current_chat in Hc.
    destruct (currentChatId st) as [k|] eqn:Hk; [|done].
    destruct k as [|k0 k1]; [done|].
    unfold catch_in_place, handleSendMessageError. cbn zeta.
    generalize (lit "Connection error: " ++ msg). intros text.
    unfold bind, modify, gets, console_error, updateStreamingMessage,
      current_chat, ret, saveChatToBackend.
    simpl.
    repeat (first [rewrite Hl | rewrite Hk | rewrite Hc]; simpl).
    by destruct (store_ok e (length (requests st))).
  - rewrite (handler_without_chat e msg st l Hl Hc). cbn zeta.
    unfold catch_in_place. cbn zeta.
    generalize (lit "Connection error: " ++ msg). intros text.
    unfold bind, modify, gets, updateStreamingMessage, ret.
    simpl. repeat (first [rewrite Hl | rewrite Hc]; simpl).
    assert (Hc' : forall o1 o2 b,
      current_chat (set_objects o1 (set_objects o2 (set_busy b st))) = None)
      by (intros; exact Hc).
    destruct (currentChatId st) as [[|k0 k1]|]; simpl; rewrite ?Hc'; done.
Qed.

Lemma refers_to_messages_snoc st c (m : message) :
  refers_to_messages st c = true ->
  forallb (fun l => (l <? length (objects st ++ [m]))%nat)
    (messages c ++ [length (objects st)]) = true.
Proof.
  intros Hv.
  rewrite forallb_app. apply andb_true_intro. split.
  - unfold refers_to_messages in Hv. rewrite forallb_forall in *.
    intros l Hl. specialize (Hv l Hl). apply Nat.ltb_lt in Hv.
    apply Nat.ltb_lt. rewrite length_app. lia.
  - cbn [forallb]. rewrite andb_true_r. apply Nat.ltb_lt.
    rewrite length_app. cbn [length]. lia.
Qed.

(** [addMessageToChat] keeps the current chat of a page from being named
    by the empty string, and its messages in the store of objects. *)
Lemma addMessageToChat_sound e r text st s1 :
  currentChatId st <> Some [] ->
  (forall c, current_chat st = Some c -> refers_to_messages st c = true) ->
  addMessageToChat e r text st = Returns tt s1 ->
  currentChatId s1 <> Some []
  /\ (forall c, current_chat s1 = Some c -> refers_to_messages s1 c = true).
Proof.
  intros Hne Hwf.
  assert (Htail : forall s k c,
    currentChatId s = Some k -> k <> [] -> chats s !! k = Some c ->
    refers_to_messages s c = true ->
    addMessageToChat_tail e r text s = Returns tt s1 ->
    currentChatId s1 <> Some []
    /\ (forall c, current_chat s1 = Some c -> refers_to_messages s1 c = true)).
  { intros s k c Hk Hkne Hc Hv.
    rewrite (addMessageToChat_tail_some e r text s k c Hk Hc). cbn zeta.
    destruct (store_ok e (length (requests s))); [|done].
    intros [= <-]. unfold current_chat, refers_to_messages.
    cbn [currentChatId chats objects set_requests set_chats set_objects set_ticks].
    rewrite Hk. split; [congruence|].
    intros c'. rewrite lookup_insert_eq. intros [= <-].
    rewrite messages_titled. cbn [messages push_message].
    by apply refers_to_messages_snoc. }
  destruct (truthy_id (currentChatId st)) eqn:Ht.
  - rewrite addMessageToChat_with_chat by done.
    destruct (truthy_id_true _ Ht) as (k & Hk & Hkne).
    destruct (chats st !! k) as [c|] eqn:Hc.
    + apply (Htail st k c Hk Hkne Hc). apply Hwf.
      unfold current_chat. by rewrite Hk.
    + rewrite addMessageToChat_tail_none
        by (unfold current_chat; by rewrite Hk).
      by intros [= <-].
  - rewrite addMessageToChat_without_chat by done.
    assert (Hk : currentChatId st = None)
      by (destruct (currentChatId st) as [[|]|]; done).
    rewrite createNewChat_eq. cbn zeta.
    destruct (store_ok e (length (requests st))); cbn [final].
    + eapply Htail.
      * reflexivity.
      * done.
      * cbn [chats set_currentChatId set_chats]. apply lookup_insert_eq.
      * reflexivity.
    + rewrite addMessageToChat_tail_none
        by (unfold current_chat; cbn [currentChatId set_alerts set_console
              set_requests set_ticks]; by rewrite Hk).
      intros [= <-]. unfold current_chat.
      cbn [currentChatId set_alerts set_console set_requests set_ticks].
      rewrite Hk. done.
Qed.

Lemma forallb_removelast {A} (f : A -> bool) l :
  forallb f l = true -> forallb f (removelast l) = true.
Proof.
  induction l as [|x l IH]; [done|]. cbn [forallb].
  intros [Hx Hl]%andb_prop. destruct l as [|y l]; [done|].
  change (removelast (x :: y :: l)) with (x :: removelast (y :: l)).
  cbn [forallb]. by rewrite Hx, IH.
Qed.

(** The history does not see the streaming message that was just made. *)
Lemma buildChatHistory_new_message st (m : message) v t :
  (forall c, current_chat st = Some c -> refers_to_messages st c = true) ->
  buildChatHistory
    (set_currentStreamMessage v (set_objects (objects st ++ [m]) (set_ticks t st)))
  = buildChatHistory st.
Proof.
  intros Hwf. unfold buildChatHistory, current_chat.
  cbn [currentChatId chats objects set_currentStreamMessage set_objects set_ticks].
  destruct (truthy_id (currentChatId st)); [|done].
  destruct (currentChatId st) as [k|] eqn:Hk; [|done].
  destruct (chats st !! k) as [c|] eqn:Hc; [|done].
  rewrite omap_lookup_app; [done|].
  apply forallb_removelast. apply Hwf. unfold current_chat. by rewrite Hk.
Qed.

(** The [try] block of the second copy, step by step. *)
Lemma request_and_consume_in_place_eq e prompt st :
  (forall c, current_chat st = Some c -> refers_to_messages st c = true) ->
  let st2 := requesting e prompt st in
  request_and_consume_in_place e prompt st =
  match chat_api e (length (requests st)) with
  | FetchFails msg => catch_in_place e msg st2
  | Response status body fin =>
      if response_ok status then
        if null_body_status status then catch_in_place e (getReader_of_null e) st2
        else
          match read_loop e body fin st2 with
          | Finished _ _ st3 => Returns tt st3
          | ReadThrew msg st3 => catch_in_place e msg st3
          end
      else catch_in_place e (lit "HTTP error! status: " ++ decimal status) st2
  end.
Proof.
  intros Hwf. cbn zeta. unfold request_and_consume_in_place.
  unfold bind, read_clock, new_message, modify. cbn zeta beta iota.
  cbn [modelSelector requests set_currentStreamMessage set_objects set_ticks
       objects ticks].
  rewrite (buildChatHistory_new_message st _ _ _ Hwf).
  reflexivity.
Qed.

Lemma process_line_streaming_into e st0 line s :
  streaming_into st0 true s ->
  match process_line e line s with
  | (Continue, s') => streaming_into st0 true s'
  | (Return, s') => streaming_into st0 false s'
  end.
Proof.
  intros (Hk & Hl). rewrite process_line_classify.
  destruct (classify line) as [| | | |text|]; try (by split).
  - unfold complete.
    pose proof (finalize_frame e (set_events (events s ++ [Completion]) (set_busy false s)))
      as (_ & _ & _ & F4 & _ & F6 & _).
    cbn zeta in F4, F6.
    destruct (finalize e _) as [[] s'|s']; cbn [final] in F4, F6.
    + split; [|done].
      cbn [currentChatId set_currentStreamResponse set_currentStreamMessage].
      by rewrite F6.
    + split.
      * unfold report. cbn [currentChatId set_console]. by rewrite F6.
      * unfold report. cbn [currentStreamMessage set_console].
        rewrite F4. exact Hl.
  - unfold deliver. cbn [currentStreamMessage set_events set_currentStreamResponse].
    destruct (Hl eq_refl) as [l Hl']. rewrite Hl'. split; [done|].
    intros _. by exists l.
Qed.

(** Past the save of the prompt the two copies leave the same page,
    console apart. *)
Lemma request_and_consume_in_place_final e prompt st o s' :
  currentChatId st <> Some [] ->
  (forall c, current_chat st = Some c -> refers_to_messages st c = true) ->
  request_and_consume_in_place e prompt st = o ->
  request_and_consume e prompt st = Returns tt s' ->
  set_console [] (final o) = set_console [] s'.
Proof.
  intros Hne Hwf Ho Hr.
  rewrite (request_and_consume_in_place_eq e prompt st Hwf) in Ho.
  rewrite transport_failures_run_the_handler in Hr. cbn zeta in Ho, Hr.
  assert (Hq : streaming_into (requesting e prompt st) true (requesting e prompt st))
    by (split; [done|]; intros _; by eexists).
  assert (Hcatch : forall msg s, streaming_into (requesting e prompt st) true s ->
    set_console [] (final (catch_in_place e msg s))
    = set_console [] (final (handleSendMessageError e msg s))).
  { intros msg s [Hk Hl]. destruct (Hl eq_refl) as [l Hl'].
    apply (catch_in_place_final e msg s l Hl'). by rewrite Hk. }
  destruct (chat_api e (length (requests st))) as [msg|status body fin].
  - subst o. injection Hr as <-. by apply Hcatch.
  - destruct (response_ok status).
    2: { subst o. injection Hr as <-. by apply Hcatch. }
    destruct (null_body_status status).
    1: { subst o. injection Hr as <-. by apply Hcatch. }
    pose proof (read_loop_invariant
                  (streaming_into (requesting e prompt st) true)
                  (streaming_into (requesting e prompt st) false)
                  e body fin (requesting e prompt st)
                  (process_line_streaming_into e _) Hq) as Hinv.
    destruct (read_loop e body fin (requesting e prompt st))
      as [b unread s3|msg s3]; subst o; injection Hr as <-.
    + reflexivity.
    + apply Hcatch. by destruct Hinv.
Qed.

Lemma sendMessage_in_place_past_guard e st :
  isStreaming st = false -> isWaitingForResponse st = false ->
  trim (textInput st) <> [] ->
  sendMessage_in_place e st =
  match addMessageToChat e user (trim (textInput st)) st with
  | Returns _ s1 =>
      request_and_consume_in_place e (trim (textInput st))
        (set_currentStreamResponse []
           (set_busy true (set_currentFile false (set_textInput [] s1))))
  | Throws s1 => Throws s1
  end.
Proof.
  intros Hs Hw Hmsg. unfold sendMessage_in_place. rewrite Hs, Hw.
  unfold jsstring_eqb. rewrite bool_decide_eq_false_2 by done.
  cbn [orb]. unfold bind at 1.
  by destruct (addMessageToChat e user (trim (textInput st)) st) as [[] s1|s1].
Qed.

(** X22. The two copies of [sendMessage] leave the same page, console
    apart: on a page whose current chat is not named by the empty string
    and refers to messages that exist, the copy whose helpers are written
    in place leaves the chats, the messages, the requests, the events, the
    flags and the input that the first copy leaves. Only the console
    differs, and whether the call throws: the first copy does not await its
    handler. *)
Theorem two_copies_leave_the_same_page e st :
  currentChatId st <> Some [] ->
  (forall c, current_chat st = Some c -> refers_to_messages st c = true) ->
  set_console [] (final (sendMessage_in_place e st))
  = set_console [] (final (sendMessage e st)).
Proof.
  intros Hne Hwf.
  remember (sendMessage e st) as o1 eqn:H1.
  remember (sendMessage_in_place e st) as o2 eqn:H2.
  symmetry in H1, H2.
  destruct (jsstring_eqb (trim (textInput st)) [] || isWaitingForResponse st
            || isStreaming st) eqn:Hg.
  - unfold sendMessage in H1. unfold sendMessage_in_place in H2.
    cbn zeta in H1, H2. rewrite Hg in H1, H2. by subst o1 o2.
  - apply orb_false_elim in Hg as [Hg Hs]. apply orb_false_elim in Hg as [Hg Hw].
    assert (Hmsg : trim (textInput st) <> []).
    { unfold jsstring_eqb in Hg. by apply bool_decide_eq_false in Hg. }
    rewrite (sendMessage_past_guard e st Hs Hw Hmsg) in H1.
    rewrite (sendMessage_in_place_past_guard e st Hs Hw Hmsg) in H2.
    pose proof (addMessageToChat_sound e user (trim (textInput st)) st) as Hsound.
    destruct (addMessageToChat e user (trim (textInput st)) st) as [[] s1|s1].
    + destruct (Hsound s1 Hne Hwf eq_refl) as [Hne1 Hwf1].
      match type of H1 with
      | request_and_consume e ?p ?s0 = _ =>
          destruct (request_and_consume e p s0) as [[] s'|s'] eqn:Hr;
            [|by apply request_and_consume_returns in Hr];
          pose proof (request_and_consume_in_place_final e p s0 o2 s' Hne1 Hwf1 H2 Hr)
      end.
      by subst o1.
    + by subst o1 o2.
Qed.

(** On the page that asks its second question while the chat endpoint
    cannot be reached, the two copies differ by the console only. *)
Lemma two_copies_leave_the_same_page_witness :
  set_console [] (final (sendMessage_in_place (offline []) asking))
  = set_console [] (final (sendMessage (offline []) asking))
  /\ console (final (sendMessage_in_place (offline []) asking))
     <> console (final (sendMessage (offline []) asking)).
Proof.
  split.
  - apply two_copies_leave_the_same_page.
    + intros H; vm_compute in H; discriminate H.
    + intros c Hc. vm_compute in Hc. injection Hc as <-.
      vm_compute; reflexivity.
  - intros H; vm_compute in H; discriminate H.
Defined.

End TwoCopies.

Section Keyed.

Lemma posts_snoc st s r :
  requests s = requests st ++ [r] ->
  posts s = (posts st + (if is_post r then 1 else 0))%nat.
Proof.
  unfold posts. intros ->. rewrite List.filter_app, length_app.
  cbn [List.filter]. by destruct (is_post r).
Qed.

Lemma posts_requests st s : requests s = requests st -> posts s = posts st.
Proof. unfold posts. by intros ->. Qed.

Lemma keyed_chats st s : chats s = chats st -> keyed st -> keyed s.
Proof. unfold keyed. by intros ->. Qed.

Lemma keyed_insert st s k c1 :
  keyed st -> id c1 = k -> chats s = <[k := c1]> (chats st) -> keyed s.
Proof.
  intros Hk Hid Hs k' c'. rewrite Hs.
  destruct (decide (k = k')) as [<-|Hne].
  - rewrite lookup_insert_eq. by intros [= <-].
  - rewrite lookup_insert_ne by done. apply Hk.
Qed.

Lemma keyed_delete st s k :
  keyed st -> chats s = delete k (chats st) -> keyed s.
Proof.
  intros Hk Hs k' c'. rewrite Hs. intros Hc.
  apply lookup_delete_Some in Hc as [_ Hc]. by apply Hk.
Qed.

(** A chat that is put back under its key and saved is saved with PUT. *)
Lemma update_and_save e k c1 st :
  keyed st -> id c1 = k ->
  let o := (modify (fun st => set_chats (<[k := c1]> (chats st)) st) ;;;
            saveChatToBackend e c1 ;;; ret tt) st in
  keyed (final o) /\ posts (final o) = posts st
  /\ currentStreamMessage (final o) = currentStreamMessage st.
Proof.
  intros Hk Hid. cbn zeta. unfold bind, modify, saveChatToBackend, ret.
  cbn [chats set_chats requests]. rewrite Hid, lookup_insert_eq.
  rewrite bool_decide_eq_true_2 by eauto.
  destruct (store_ok e (length (requests st))); cbn [final].
  - split; [by eapply keyed_insert|]. split; [|done].
    by erewrite posts_snoc by reflexivity.
  - split; [by eapply keyed_insert|]. split; [|done].
    by erewrite posts_snoc by reflexivity.
Qed.

(** The steps of the proofs below: a chat found under a key has that key
    for id, so that the page knows the id of the chat it saves. *)
Ltac known_chats Hk :=
  repeat match goal with
  | H : chats _ !! ?k = Some ?c |- _ =>
      lazymatch goal with
      | _ : id c = k |- _ => fail
      | _ => pose proof (Hk k c H)
      end
  end.

Ltac never_posted :=
  match goal with
  | H : bool_decide (is_Some _) = false |- _ =>
      exfalso; apply bool_decide_eq_false in H; apply H;
      cbn [chats set_chats set_objects id push_message with_title with_model
           with_pinned];
      match goal with Hid : id _ = _ |- _ => rewrite Hid end;
      first [rewrite lookup_insert_eq
            |match goal with Hc : _ !! _ = Some _ |- _ => rewrite Hc end];
      eauto
  end.

Ltac saved_in_place Hk :=
  known_chats Hk; try never_posted;
  repeat split;
  first
    [ exact Hk
    | eapply keyed_insert; [exact Hk| |reflexivity]; eassumption
    | eapply keyed_delete; [exact Hk|reflexivity]
    | reflexivity
    | erewrite posts_snoc by reflexivity; cbn [is_post]; lia
    | assumption ].

Lemma finalize_saves_in_place e st :
  keyed st ->
  keyed (final (finalize e st))
  /\ posts (final (finalize e st)) = posts st
  /\ currentStreamMessage (final (finalize e st)) = currentStreamMessage st.
Proof.
  intros Hk. unfold finalize, saveChatToBackend, bind, gets, modify, ret, current_chat.
  repeat case_match; simplify_eq; cbn [final]; try saved_in_place Hk.
  all: match goal with |- ?G => idtac G end. all: fail.
Qed.

Lemma process_line_saves_in_place e st0 line s :
  saving_in_place st0 true s ->
  match process_line e line s with
  | (Continue, s') => saving_in_place st0 true s'
  | (Return, s') => saving_in_place st0 false s'
  end.
Proof.
  intros (Hk & Hp & Hl). rewrite process_line_classify.
  destruct (classify line) as [| | | |text|]; try (by repeat split).
  - unfold complete.
    pose proof (finalize_saves_in_place e
                  (set_events (events s ++ [Completion]) (set_busy false s)) Hk)
      as (F1 & F2 & F3).
    destruct (finalize e _) as [[] s'|s']; cbn [final] in F1, F2, F3.
    + split; [exact F1|]. split; [by rewrite <- Hp|done].
    + split; [exact F1|]. split; [by rewrite <- Hp|].
      unfold report. cbn [currentStreamMessage set_console]. rewrite F3. exact Hl.
  - unfold deliver. cbn [currentStreamMessage set_events set_currentStreamResponse].
    destruct (Hl eq_refl) as [l Hl']. rewrite Hl'.
    split; [exact Hk|]. split; [exact Hp|]. intros _. by exists l.
Qed.

Lemma handler_saves_in_place e msg st l :
  currentStreamMessage st = Some l -> keyed st ->
  keyed (final (handleSendMessageError e msg st))
  /\ posts (final (handleSendMessageError e msg st)) = posts st.
Proof.
  intros Hl Hk.
  unfold handleSendMessageError, console_error, updateStreamingMessage,
    saveChatToBackend, bind, gets, modify, ret, current_chat.
  cbn [currentStreamMessage currentChatId chats set_console set_busy set_objects].
  rewrite Hl.
  repeat case_match; simplify_eq; cbn [final]; saved_in_place Hk.
Qed.

Lemma createNewChat_keyed e st :
  keyed st ->
  keyed (final (createNewChat e st))
  /\ (posts (final (createNewChat e st)) <= posts st + 1)%nat.
Proof.
  intros Hk. rewrite createNewChat_eq. cbn zeta.
  destruct (store_ok e (length (requests st))); cbn [final]; split.
  - eapply keyed_insert; [exact Hk| |]; [|reflexivity]; reflexivity.
  - erewrite posts_snoc by reflexivity. cbn [is_post].
    destruct (bool_decide _); lia.
  - exact Hk.
  - erewrite posts_snoc by reflexivity. cbn [is_post].
    destruct (bool_decide _); lia.
Qed.

Lemma addMessageToChat_tail_saves_in_place e r text st :
  keyed st ->
  keyed (final (addMessageToChat_tail e r text st))
  /\ posts (final (addMessageToChat_tail e r text st)) = posts st.
Proof.
  intros Hk.
  unfold addMessageToChat_tail, read_clock, new_message, saveChatToBackend,
    bind, gets, modify, ret, current_chat.
  cbn [chats set_ticks set_objects].
  repeat case_match; simplify_eq; cbn [final]; saved_in_place Hk.
Qed.

Lemma addMessageToChat_keyed e r text st :
  keyed st ->
  keyed (final (addMessageToChat e r text st))
  /\ (posts (final (addMessageToChat e r text st))
      <= posts st + (if truthy_id (currentChatId st) then 0 else 1))%nat.
Proof.
  intros Hk. destruct (truthy_id (currentChatId st)) eqn:Ht.
  - rewrite addMessageToChat_with_chat by done.
    destruct (addMessageToChat_tail_saves_in_place e r text st Hk) as [H1 H2].
    split; [exact H1|lia].
  - rewrite addMessageToChat_without_chat by done.
    destruct (createNewChat_keyed e st Hk) as [C1 C2].
    destruct (addMessageToChat_tail_saves_in_place e r text _ C1) as [H1 H2].
    split; [exact H1|lia].
Qed.

Lemma request_and_consume_saves_in_place e prompt st s' :
  keyed st ->
  request_and_consume e prompt st = Returns tt s' ->
  keyed s' /\ posts s' = posts st.
Proof.
  intros Hk Hr.
  rewrite transport_failures_run_the_handler in Hr. cbn zeta in Hr.
  assert (Hq : saving_in_place st true (requesting e prompt st)).
  { split; [exact Hk|]. split; [|intros _; by eexists].
    unfold requesting. by erewrite posts_snoc by reflexivity. }
  assert (Hh : forall msg s, saving_in_place st true s ->
    keyed (final (handleSendMessageError e msg s))
    /\ posts (final (handleSendMessageError e msg s)) = posts st).
  { intros msg s (Hks & Hps & Hl). destruct (Hl eq_refl) as [l Hl'].
    destruct (handler_saves_in_place e msg s l Hl' Hks) as [H1 H2].
    split; [exact H1|]. by rewrite H2. }
  destruct (chat_api e (length (requests st))) as [msg|status body fin].
  - injection Hr as <-. by apply Hh.
  - destruct (response_ok status); [|injection Hr as <-; by apply Hh].
    destruct (null_body_status status); [injection Hr as <-; by apply Hh|].
    pose proof (read_loop_invariant (saving_in_place st true)
                  (saving_in_place st false) e body fin (requesting e prompt st)
                  (process_line_saves_in_place e st) Hq) as Hinv.
    destruct (read_loop e body fin (requesting e prompt st))
      as [b unread s3|msg s3]; injection Hr as <-.
    + destruct b.
      * destruct Hinv as (H1 & H2 & _). by split.
      * destruct Hinv as [(H1 & H2 & _) _]. by split.
    + apply Hh. by destruct Hinv.
Qed.

Lemma sendMessage_saves_in_place e st :
  keyed st ->
  keyed (final (sendMessage e st))
  /\ (posts (final (sendMessage e st))
      <= posts st + (if truthy_id (currentChatId st) then 0 else 1))%nat.
Proof.
  intros Hk.
  remember (sendMessage e st) as o eqn:Ho. symmetry in Ho.
  destruct (jsstring_eqb (trim (textInput st)) [] || isWaitingForResponse st
            || isStreaming st) eqn:Hg.
  - unfold sendMessage in Ho. cbn zeta in Ho. rewrite Hg in Ho. subst o.
    split; [exact Hk|cbn [final]; lia].
  - apply orb_false_elim in Hg as [Hg Hs]. apply orb_false_elim in Hg as [Hg Hw].
    assert (Hmsg : trim (textInput st) <> []).
    { unfold jsstring_eqb in Hg. by apply bool_decide_eq_false in Hg. }
    rewrite (sendMessage_past_guard e st Hs Hw Hmsg) in Ho.
    destruct (addMessageToChat_keyed e user (trim (textInput st)) st Hk) as [A1 A2].
    destruct (addMessageToChat e user (trim (textInput st)) st) as [[] s1|s1];
      cbn [final] in A1, A2.
    + match type of Ho with
      | request_and_consume e ?p ?s0 = _ =>
          destruct (request_and_consume e p s0) as [[] s'|s'] eqn:Hr;
            [|by apply request_and_consume_returns in Hr];
          destruct (request_and_consume_saves_in_place e p s0 s' A1 Hr) as [R1 R2]
      end.
      subst o. cbn [final]. split; [exact R1|].
      rewrite R2. exact A2.
    + subst o. by split.
Qed.

Lemma selectModel_saves_in_place e m st :
  keyed st ->
  keyed (final (selectModel e m st))
  /\ posts (final (selectModel e m st)) = posts st.
Proof.
  intros Hk.
  unfold selectModel, saveChatToBackend, bind, gets, modify, ret, current_chat.
  cbn [currentChatId chats set_modelSelector].
  repeat case_match; simplify_eq; cbn [final]; saved_in_place Hk.
Qed.

Lemma deleteChat_saves_in_place e k st :
  keyed st ->
  keyed (final (deleteChat e k st))
  /\ posts (final (deleteChat e k st)) = posts st.
Proof.
  intros Hk.
  unfold deleteChat, deleteChatFromBackend, try_catch, console_error, alert,
    bind, gets, modify, ret.
  repeat case_match; simplify_eq; cbn [final]; saved_in_place Hk.
Qed.

Lemma pinChat_saves_in_place e k st :
  keyed st ->
  keyed (final (pinChat e k st))
  /\ posts (final (pinChat e k st)) = posts st.
Proof.
  intros Hk.
  unfold pinChat, saveChatToBackend, bind, gets, modify, ret.
  repeat case_match; simplify_eq; cbn [final]; saved_in_place Hk.
Qed.

Lemma confirmRename_saves_in_place e d st :
  keyed st ->
  keyed (final (confirmRename e d st))
  /\ posts (final (confirmRename e d st)) = posts st.
Proof.
  intros Hk.
  unfold confirmRename, saveChatToBackend, bind, gets, modify, ret.
  repeat case_match; simplify_eq; cbn [final]; saved_in_place Hk.
Qed.

Lemma rateMessage_saves_in_place e t v st :
  keyed st ->
  keyed (final (rateMessage e t v st))
  /\ posts (final (rateMessage e t v st)) = posts st.
Proof.
  intros Hk.
  unfold rateMessage, saveChatToBackend, bind, gets, modify, ret, current_chat.
  cbn [chats set_objects].
  repeat case_match; simplify_eq; cbn [final]; saved_in_place Hk.
Qed.

Lemma respond_saves_in_place e g st :
  keyed st ->
  keyed (respond e g st)
  /\ (posts (respond e g st)
      <= posts st + (if asks_for_chat g then 1 else 0))%nat.
Proof.
  intros Hk. destruct g as [[text|m| |k|]|k|t v|d]; cbn [respond perform asks_for_chat].
  - split; [exact Hk|]. rewrite (posts_requests st) by reflexivity. lia.
  - destruct (selectModel_saves_in_place e m st Hk) as [H1 H2]. split; [exact H1|lia].
  - by apply createNewChat_keyed.
  - destruct (deleteChat_saves_in_place e k st Hk) as [H1 H2]. split; [exact H1|lia].
  - destruct (sendMessage_saves_in_place e st Hk) as [H1 H2]. split; [exact H1|].
    destruct (truthy_id (currentChatId st)); lia.
  - destruct (pinChat_saves_in_place e k st Hk) as [H1 H2]. split; [exact H1|lia].
  - destruct (rateMessage_saves_in_place e t v st Hk) as [H1 H2]. split; [exact H1|lia].
  - destruct (confirmRename_saves_in_place e d st Hk) as [H1 H2]. split; [exact H1|lia].
Qed.

(** X23. On a page whose chats are under their ids, [sendMessage]
    creates at most one chat on the server, and none when the page has a
    current chat: the saves of the prompt, of the reply and of the text of
    an error are sent with PUT. *)
Theorem send_creates_at_most_one_chat e st :
  keyed st ->
  (posts (final (sendMessage e st))
   <= posts st + (if truthy_id (currentChatId st) then 0 else 1))%nat.
Proof.
  intros Hk. destruct (sendMessage_saves_in_place e st Hk) as [_ H]. exact H.
Qed.

(** X24. Whatever the user does (typing, selecting a model, asking
    for a new chat, deleting, sending, pinning, rating, renaming), the
    chats of the page stay under their ids, and the page creates no more
    chats on the server than the user asked for new chats or sent
    messages. The store answers a save with the chat it was sent. *)
Theorem visits_keep_chats_under_their_ids e gs st :
  keyed st ->
  keyed (visit e gs st)
  /\ (posts (visit e gs st)
      <= posts st + length (List.filter asks_for_chat gs))%nat.
Proof.
  revert st. induction gs as [|g gs IH]; intros st Hk.
  - split; [exact Hk|]. cbn [visit fold_left List.filter length]. lia.
  - destruct (respond_saves_in_place e g st Hk) as [R1 R2].
    destruct (IH _ R1) as [V1 V2].
    change (visit e (g :: gs) st) with (visit e gs (respond e g st)).
    split; [exact V1|].
    cbn [List.filter]. destruct (asks_for_chat g); cbn [length]; lia.
Qed.

Lemma keyed_initial : keyed initial.
Proof.
  intros k c H. change (chats initial) with (∅ : gmap jsstring chat) in H.
  by rewrite lookup_empty in H.
Qed.

(** The first message of a page creates its chat; the second creates
    none. *)
Lemma send_creates_at_most_one_chat_witness :
  truthy_id (currentChatId asking) = true
  /\ (posts (final (sendMessage (greeting []) asking))
      <= posts asking + (if truthy_id (currentChatId asking) then 0 else 1))%nat.
Proof.
  split; [vm_compute; reflexivity|].
  apply send_creates_at_most_one_chat.
  apply (keyed_chats answered_page asking);
    [vm_compute; reflexivity|].
  unfold answered_page.
  apply (sendMessage_saves_in_place (greeting []) (typed (lit "hi"))).
  apply (keyed_chats initial); [reflexivity|exact keyed_initial].
Defined.

(** A visit in which the user sends two messages, pins the chat, renames
    it and rates the first reply. *)
Lemma visits_keep_chats_under_their_ids_witness :
  let gs := [Act (TypeText (lit "hi")); Act Send; Pin first_chat;
             Rename renaming; Rate 1700000000003 true;
             Act (TypeText (lit " and then? ")); Act Send] in
  keyed (visit (greeting []) gs initial)
  /\ (posts (visit (greeting []) gs initial)
      <= posts initial + length (List.filter asks_for_chat gs))%nat.
Proof.
  intros gs. apply visits_keep_chats_under_their_ids. exact keyed_initial.
Defined.

End Keyed.

Section Anchored.

(** The steps of the proofs below: the current chat is as it was and still
    has its key, or it is the chat that was just stored. *)
Ltac stays_anchored Ha :=
  let k' := fresh "k" in
  let Hk' := fresh "Hk" in
  intros k' Hk';
  first
    [ apply Ha; exact Hk'
    | apply lookup_insert_is_Some'; right; apply Ha; exact Hk'
    | discriminate Hk' ].

Lemma finalize_anchored e st :
  anchored st -> anchored (final (finalize e st)).
Proof.
  intros Ha. unfold finalize, saveChatToBackend, bind, gets, modify, ret, current_chat.
  repeat case_match; simplify_eq; cbn [final]; stays_anchored Ha.
Qed.

Lemma process_line_anchored e line s :
  anchored s ->
  match process_line e line s with
  | (Continue, s') => anchored s'
  | (Return, s') => anchored s'
  end.
Proof.
  intros Ha. rewrite process_line_classify.
  destruct (classify line) as [| | | |text|]; try exact Ha.
  - unfold complete.
    pose proof (finalize_anchored e
                  (set_events (events s ++ [Completion]) (set_busy false s)) Ha) as F.
    destruct (finalize e _) as [[] s'|s']; cbn [final] in F; exact F.
  - unfold deliver. cbn [currentStreamMessage set_events set_currentStreamResponse].
    destruct (currentStreamMessage s); exact Ha.
Qed.

Lemma createNewChat_anchored e st :
  anchored st -> anchored (final (createNewChat e st)).
Proof.
  intros Ha. rewrite createNewChat_eq. cbn zeta.
  destruct (store_ok e (length (requests st))); cbn [final].
  - intros k Hk. injection Hk as <-.
    cbn [chats set_currentChatId set_chats set_modelSelector].
    rewrite lookup_insert_eq. eauto.
  - exact Ha.
Qed.

Lemma addMessageToChat_tail_anchored e r text st :
  anchored st -> anchored (final (addMessageToChat_tail e r text st)).
Proof.
  intros Ha.
  unfold addMessageToChat_tail, read_clock, new_message, saveChatToBackend,
    bind, gets, modify, ret, current_chat.
  cbn [chats set_ticks set_objects].
  repeat case_match; simplify_eq; cbn [final]; stays_anchored Ha.
Qed.

Lemma addMessageToChat_anchored e r text st :
  anchored st -> anchored (final (addMessageToChat e r text st)).
Proof.
  intros Ha. destruct (truthy_id (currentChatId st)) eqn:Ht.
  - rewrite addMessageToChat_with_chat by done.
    by apply addMessageToChat_tail_anchored.
  - rewrite addMessageToChat_without_chat by done.
    by apply addMessageToChat_tail_anchored, createNewChat_anchored.
Qed.

Lemma handler_anchored e msg st :
  anchored st -> anchored (final (handleSendMessageError e msg st)).
Proof.
  intros Ha.
  destruct (currentStreamMessage st) as [l|] eqn:Hl.
  - unfold handleSendMessageError, console_error, updateStreamingMessage,
      saveChatToBackend, bind, gets, modify, ret, current_chat.
    cbn [currentStreamMessage currentChatId chats set_console set_busy set_objects].
    rewrite Hl.
    repeat case_match; simplify_eq; cbn [final]; stays_anchored Ha.
  - unfold handleSendMessageError, console_error.
    unfold bind at 1 2 3, modify at 1 2, gets at 1.
    cbn [currentStreamMessage set_console set_busy]. rewrite Hl.
    unfold bind at 1.
    match goal with |- context [addMessageToChat e assistant ?text ?s] =>
      pose proof (addMessageToChat_anchored e assistant text s Ha) as H;
      destruct (addMessageToChat e assistant text s) as [[] s'|s']
    end; exact H.
Qed.

Lemma request_and_consume_anchored e prompt st s' :
  anchored st ->
  request_and_consume e prompt st = Returns tt s' -> anchored s'.
Proof.
  intros Ha Hr.
  rewrite transport_failures_run_the_handler in Hr. cbn zeta in Hr.
  assert (Hq : anchored (requesting e prompt st)) by exact Ha.
  destruct (chat_api e (length (requests st))) as [msg|status body fin].
  - injection Hr as <-. by apply handler_anchored.
  - destruct (response_ok status); [|injection Hr as <-; by apply handler_anchored].
    destruct (null_body_status status);
      [injection Hr as <-; by apply handler_anchored|].
    pose proof (read_loop_invariant anchored anchored e body fin
                  (requesting e prompt st) (process_line_anchored e) Hq) as Hinv.
    destruct (read_loop e body fin (requesting e prompt st))
      as [b unread s3|msg s3]; injection Hr as <-.
    + destruct b; [exact Hinv|by destruct Hinv].
    + apply handler_anchored. by destruct Hinv.
Qed.

Lemma sendMessage_anchored e st :
  anchored st -> anchored (final (sendMessage e st)).
Proof.
  intros Ha.
  remember (sendMessage e st) as o eqn:Ho. symmetry in Ho.
  destruct (jsstring_eqb (trim (textInput st)) [] || isWaitingForResponse st
            || isStreaming st) eqn:Hg.
  - unfold sendMessage in Ho. cbn zeta in Ho. rewrite Hg in Ho. by subst o.
  - apply orb_false_elim in Hg as [Hg Hs]. apply orb_false_elim in Hg as [Hg Hw].
    assert (Hmsg : trim (textInput st) <> []).
    { unfold jsstring_eqb in Hg. by apply bool_decide_eq_false in Hg. }
    rewrite (sendMessage_past_guard e st Hs Hw Hmsg) in Ho.
    pose proof (addMessageToChat_anchored e user (trim (textInput st)) st Ha) as A.
    destruct (addMessageToChat e user (trim (textInput st)) st) as [[] s1|s1];
      cbn [final] in A.
    + match type of Ho with
      | request_and_consume e ?p ?s0 = _ =>
          destruct (request_and_consume e p s0) as [[] s'|s'] eqn:Hr;
            [|by apply request_and_consume_returns in Hr];
          pose proof (request_and_consume_anchored e p s0 s' A Hr) as R
      end.
      by subst o.
    + by subst o.
Qed.

Lemma selectModel_anchored e m st :
  anchored st -> anchored (final (selectModel e m st)).
Proof.
  intros Ha.
  unfold selectModel, saveChatToBackend, bind, gets, modify, ret, current_chat.
  cbn [currentChatId chats set_modelSelector].
  repeat case_match; simplify_eq; cbn [final]; stays_anchored Ha.
Qed.

Lemma deleteChat_anchored e k st :
  anchored st -> anchored (final (deleteChat e k st)).
Proof.
  intros Ha.
  unfold deleteChat, deleteChatFromBackend, try_catch, console_error, alert,
    bind, gets, modify, ret.
  destruct (store_ok e (length (requests st))); cbn [final]; [|exact Ha].
  cbn [currentChatId set_chats set_requests].
  destruct (bool_decide (currentChatId st = Some k)) eqn:Hc; intros k' Hk'.
  - discriminate Hk'.
  - apply bool_decide_eq_false in Hc.
    cbn [chats set_chats set_requests].
    apply lookup_delete_is_Some. split; [|by apply Ha].
    intros ->. by apply Hc.
Qed.

Lemma pinChat_anchored e k st :
  anchored st -> anchored (final (pinChat e k st)).
Proof.
  intros Ha.
  unfold pinChat, saveChatToBackend, bind, gets, modify, ret.
  repeat case_match; simplify_eq; cbn [final]; stays_anchored Ha.
Qed.

Lemma confirmRename_anchored e d st :
  anchored st -> anchored (final (confirmRename e d st)).
Proof.
  intros Ha.
  unfold confirmRename, saveChatToBackend, bind, gets, modify, ret.
  repeat case_match; simplify_eq; cbn [final]; stays_anchored Ha.
Qed.

Lemma rateMessage_anchored e t v st :
  anchored st -> anchored (final (rateMessage e t v st)).
Proof.
  intros Ha.
  unfold rateMessage, saveChatToBackend, bind, gets, modify, ret, current_chat.
  cbn [chats set_objects].
  repeat case_match; simplify_eq; cbn [final]; stays_anchored Ha.
Qed.

(** X25. Whatever the user does, the current chat of the page is one
    of its chats: no handler leaves [state.currentChatId] on a chat that
    was deleted or was never stored. *)
Theorem visits_keep_the_current_chat_known e gs st :
  anchored st -> anchored (visit e gs st).
Proof.
  revert st. induction gs as [|g gs IH]; intros st Ha; [exact Ha|].
  change (visit e (g :: gs) st) with (visit e gs (respond e g st)).
  apply IH. destruct g as [[text|m| |k|]|k|t v|d]; cbn [respond perform].
  - exact Ha.
  - by apply selectModel_anchored.
  - by apply createNewChat_anchored.
  - by apply deleteChat_anchored.
  - by apply sendMessage_anchored.
  - by apply pinChat_anchored.
  - by apply rateMessage_anchored.
  - by apply confirmRename_anchored.
Qed.

Lemma anchored_initial : anchored initial.
Proof. intros k Hk. discriminate Hk. Qed.

(** A visit in which the user opens a chat, deletes it and sends a
    message: the deletion leaves no current chat, the message opens one. *)
Lemma visits_keep_the_current_chat_known_witness :
  currentChatId (visit (greeting []) [Act NewChat; Act (Delete first_chat)] initial)
  = None
  /\ anchored (visit (greeting [])
                [Act NewChat; Act (Delete first_chat);
                 Act (TypeText (lit "hi")); Act Send] initial).
Proof.
  split; [vm_compute; reflexivity|].
  apply visits_keep_the_current_chat_known. exact anchored_initial.
Defined.

End Anchored.

Section Messages.

Lemma below_ne (l n : nat) : (l < n)%nat -> n <> l.
Proof. lia. Qed.

Lemma keeps_messages_refl st : keeps_messages st st.
Proof. intros l m H. by exists m. Qed.

Lemma keeps_messages_trans s1 s2 s3 :
  keeps_messages s1 s2 -> keeps_messages s2 s3 -> keeps_messages s1 s3.
Proof.
  intros H12 H23 l m H.
  destruct (H12 l m H) as (m2 & H2 & R2 & C2 & T2).
  destruct (H23 l m2 H2) as (m3 & H3 & R3 & C3 & T3).
  exists m3. split; [exact H3|]. repeat split; congruence.
Qed.

Lemma keeps_messages_objects st s :
  objects s = objects st -> keeps_messages st s.
Proof. intros Ho l m H. exists m. rewrite Ho. by split. Qed.

(** Messages that are where they were say what they said. *)
Lemma keeps_messages_below st s :
  (forall l, (l < length (objects st))%nat -> objects s !! l = objects st !! l) ->
  keeps_messages st s.
Proof.
  intros Ho l m H. exists m. split; [|done].
  rewrite Ho; [exact H|]. by apply lookup_lt_Some in H.
Qed.

Lemma finalize_streaming_after n st0 e st :
  (forall l, (l < n)%nat -> objects st !! l = objects st0 !! l) ->
  (forall l, (l < n)%nat -> objects (final (finalize e st)) !! l = objects st0 !! l)
  /\ currentStreamMessage (final (finalize e st)) = currentStreamMessage st.
Proof.
  intros Ho. pose proof (finalize_frame e st) as (_ & _ & _ & F4 & _ & _ & F7 & _).
  cbn zeta in F4, F7. rewrite F7. by split.
Qed.

Lemma process_line_streaming_after n st0 e line s :
  streaming_after n st0 true s ->
  match process_line e line s with
  | (Continue, s') => streaming_after n st0 true s'
  | (Return, s') => streaming_after n st0 false s'
  end.
Proof.
  intros (Ho & Hl). rewrite process_line_classify.
  destruct (classify line) as [| | | |text|]; try (by split).
  - unfold complete.
    pose proof (finalize_streaming_after n st0 e
                  (set_events (events s ++ [Completion]) (set_busy false s)) Ho)
      as (F1 & F2).
    destruct (finalize e _) as [[] s'|s']; cbn [final] in F1, F2.
    + by split.
    + split; [exact F1|]. unfold report. cbn [currentStreamMessage set_console].
      rewrite F2. exact Hl.
  - unfold deliver. cbn [currentStreamMessage set_events set_currentStreamResponse].
    rewrite (Hl eq_refl). split; [|intros _; exact (Hl eq_refl)].
    intros l Hlt. cbn [objects set_objects set_events set_currentStreamResponse].
    rewrite list_lookup_alter_ne by (by apply below_ne). by apply Ho.
Qed.

Lemma handler_streaming_after n st0 e msg st :
  streaming_after n st0 true st ->
  forall l, (l < n)%nat ->
    objects (final (handleSendMessageError e msg st)) !! l = objects st0 !! l.
Proof.
  intros (Ho & Hl) l Hlt. specialize (Hl eq_refl).
  unfold handleSendMessageError, console_error, updateStreamingMessage,
    saveChatToBackend, bind, gets, modify, ret, current_chat.
  cbn [currentStreamMessage currentChatId chats set_console set_busy set_objects].
  rewrite Hl.
  repeat case_match; simplify_eq; cbn [final];
    cbn [objects currentStreamMessage set_currentStreamResponse
         set_currentStreamMessage set_console set_requests set_chats
         set_objects set_busy] in *;
    simplify_eq;
    rewrite ?list_lookup_alter_ne by (by apply below_ne); by apply Ho.
Qed.

Lemma createNewChat_objects e st :
  objects (final (createNewChat e st)) = objects st.
Proof.
  rewrite createNewChat_eq. cbn zeta.
  by destruct (store_ok e (length (requests st))).
Qed.

Lemma addMessageToChat_tail_objects e r text st l :
  (l < length (objects st))%nat ->
  objects (final (addMessageToChat_tail e r text st)) !! l = objects st !! l.
Proof.
  intros Hlt.
  unfold addMessageToChat_tail, read_clock, new_message, saveChatToBackend,
    bind, gets, modify, ret, current_chat.
  cbn [chats set_ticks set_objects].
  repeat case_match; simplify_eq; cbn [final];
    cbn [objects set_console set_requests set_chats set_objects set_ticks];
    first [reflexivity | by rewrite lookup_app_l].
Qed.

Lemma addMessageToChat_objects e r text st l :
  (l < length (objects st))%nat ->
  objects (final (addMessageToChat e r text st)) !! l = objects st !! l.
Proof.
  intros Hlt. destruct (truthy_id (currentChatId st)) eqn:Ht.
  - rewrite addMessageToChat_with_chat by done.
    by apply addMessageToChat_tail_objects.
  - rewrite addMessageToChat_without_chat by done.
    rewrite addMessageToChat_tail_objects
      by (by rewrite createNewChat_objects).
    by rewrite createNewChat_objects.
Qed.

Lemma request_and_consume_objects e prompt st s' l :
  request_and_consume e prompt st = Returns tt s' ->
  (l < length (objects st))%nat ->
  objects s' !! l = objects st !! l.
Proof.
  intros Hr Hlt.
  rewrite transport_failures_run_the_handler in Hr. cbn zeta in Hr.
  assert (Hq : streaming_after (length (objects st)) st true (requesting e prompt st)).
  { split; [|done]. intros l' Hl'. unfold requesting.
    cbn [objects set_requests set_currentStreamMessage set_objects].
    by rewrite lookup_app_l. }
  destruct (chat_api e (length (requests st))) as [msg|status body fin].
  - injection Hr as <-.
    by apply (handler_streaming_after (length (objects st)) st).
  - destruct (response_ok status);
      [|injection Hr as <-;
        by apply (handler_streaming_after (length (objects st)) st)].
    destruct (null_body_status status);
      [injection Hr as <-;
       by apply (handler_streaming_after (length (objects st)) st)|].
    pose proof (read_loop_invariant
                  (streaming_after (length (objects st)) st true)
                  (streaming_after (length (objects st)) st false)
                  e body fin (requesting e prompt st)
                  (process_line_streaming_after (length (objects st)) st e) Hq)
      as Hinv.
    destruct (read_loop e body fin (requesting e prompt st))
      as [b unread s3|msg s3]; injection Hr as <-.
    + destruct b.
      * destruct Hinv as [H _]. by apply H.
      * destruct Hinv as [[H _] _]. by apply H.
    + apply (handler_streaming_after (length (objects st)) st);
        [by destruct Hinv|done].
Qed.

(** [sendMessage] leaves the messages of the page where they were and as
    they were. *)
Lemma sendMessage_objects e st l :
  (l < length (objects st))%nat ->
  objects (final (sendMessage e st)) !! l = objects st !! l.
Proof.
  intros Hlt.
  remember (sendMessage e st) as o eqn:Ho. symmetry in Ho.
  destruct (jsstring_eqb (trim (textInput st)) [] || isWaitingForResponse st
            || isStreaming st) eqn:Hg.
  - unfold sendMessage in Ho. cbn zeta in Ho. rewrite Hg in Ho. by subst o.
  - apply orb_false_elim in Hg as [Hg Hs]. apply orb_false_elim in Hg as [Hg Hw].
    assert (Hmsg : trim (textInput st) <> []).
    { unfold jsstring_eqb in Hg. by apply bool_decide_eq_false in Hg. }
    rewrite (sendMessage_past_guard e st Hs Hw Hmsg) in Ho.
    pose proof (addMessageToChat_objects e user (trim (textInput st)) st l Hlt) as A.
    destruct (addMessageToChat e user (trim (textInput st)) st) as [[] s1|s1];
      cbn [final] in A.
    + assert (Hlt1 : (l < length (objects s1))%nat).
      { apply lookup_lt_is_Some. rewrite A. by apply lookup_lt_is_Some. }
      match type of Ho with
      | request_and_consume e ?p ?s0 = _ =>
          destruct (request_and_consume e p s0) as [[] s'|s'] eqn:Hr;
            [|by apply request_and_consume_returns in Hr];
          pose proof (request_and_consume_objects e p s0 s' l Hr Hlt1) as R
      end.
      subst o. cbn [final]. rewrite R. exact A.
    + by subst o.
Qed.

Lemma rateMessage_keeps_messages e t v st :
  keeps_messages st (final (rateMessage e t v st)).
Proof.
  assert (Hrated : forall l0, keeps_messages st
            (set_objects (alter (with_liked (Some v)) l0 (objects st)) st)).
  { intros l0 l m H. cbn [objects set_objects].
    destruct (decide (l0 = l)) as [->|Hne].
    - exists (with_liked (Some v) m). split; [|by unfold same_words].
      rewrite list_lookup_alter, H. by rewrite decide_True.
    - exists m. split; [|by unfold same_words]. by rewrite list_lookup_alter_ne. }
  unfold rateMessage, saveChatToBackend, bind, gets, modify, ret, current_chat.
  cbn [chats set_objects].
  repeat case_match; simplify_eq; cbn [final];
    first [apply keeps_messages_refl | apply (Hrated _)].
Qed.

Lemma respond_keeps_messages e g st :
  keeps_messages st (respond e g st).
Proof.
  destruct g as [[text|m| |k|]|k|t v|d]; cbn [respond perform].
  - by apply keeps_messages_objects.
  - apply keeps_messages_objects.
    unfold selectModel, saveChatToBackend, bind, gets, modify, ret, current_chat.
    cbn [currentChatId chats set_modelSelector].
    repeat case_match; simplify_eq; reflexivity.
  - apply keeps_messages_objects, createNewChat_objects.
  - apply keeps_messages_objects.
    unfold deleteChat, deleteChatFromBackend, try_catch, console_error, alert,
      bind, gets, modify, ret.
    repeat case_match; simplify_eq; reflexivity.
  - apply keeps_messages_below. intros l Hl. by apply sendMessage_objects.
  - apply keeps_messages_objects.
    unfold pinChat, saveChatToBackend, bind, gets, modify, ret.
    repeat case_match; simplify_eq; reflexivity.
  - apply rateMessage_keeps_messages.
  - apply keeps_messages_objects.
    unfold confirmRename, saveChatToBackend, bind, gets, modify, ret.
    repeat case_match; simplify_eq; reflexivity.
Qed.

(** X26. Whatever the user does, no message of the page is lost or
    rewritten: it keeps its place, its role, its content and its
    timestamp. A send writes only into the messages it makes, the error
    handler only into the streaming message of the send that failed, and a
    rating changes the rating alone. *)
Theorem visits_never_rewrite_a_message e gs st l m :
  objects st !! l = Some m ->
  exists m', objects (visit e gs st) !! l = Some m' /\ same_words m m'.
Proof.
  revert st l m. induction gs as [|g gs IH]; intros st l m H.
  - by apply keeps_messages_refl.
  - change (visit e (g :: gs) st) with (visit e gs (respond e g st)).
    destruct (respond_keeps_messages e g st l m H) as (m1 & H1 & W1).
    destruct (IH _ l m1 H1) as (m2 & H2 & W2).
    exists m2. split; [exact H2|].
    destruct W1 as (R1 & C1 & T1), W2 as (R2 & C2 & T2).
    repeat split; congruence.
Qed.

(** The reply of the first exchange, after the user has sent a second
    message, rated the reply and deleted the chat. *)
Lemma visits_never_rewrite_a_message_witness :
  exists m m',
    objects asking !! 1%nat = Some m
    /\ objects (visit (greeting [])
                  [Act Send; Rate 1700000000003 false; Act (Delete first_chat)]
                  asking) !! 1%nat = Some m'
    /\ same_words m m'.
Proof.
  assert (H : exists m, objects asking !! 1%nat = Some m)
    by (vm_compute; eauto).
  destruct H as [m H].
  destruct (visits_never_rewrite_a_message (greeting [])
              [Act Send; Rate 1700000000003 false; Act (Delete first_chat)]
              asking 1%nat m H) as (m' & H' & W).
  exists m, m'. split; [exact H|]. split; [exact H'|exact W].
Defined.

End Messages.

Section TransportFailure.

(** A line that is no frame with a truthy [done] leaves the chats, the
    requests and the streaming message; it may deliver a delta into the
    streaming message and report a frame that fails to parse. *)
Lemma process_line_before_done e k c lu la prompt line s :
  classify line <> Done -> awaiting k c lu la prompt s ->
  exists s',
    process_line e line s = (Continue, s')
    /\ awaiting k c lu la prompt s'
    /\ events s' = events s
         ++ match classify line with
            | Delta text => [ContentDelta text]
            | _ => []
            end
    /\ requests s' = requests s
    /\ exists log, console s' = console s ++ log
                   /\ forall m, SendMessageFailed m ∉ log.
Proof.
  intros Hnd (Hk & Hc & Hl & (m0 & Hm0 & Hr0) & (mu & Hmu & Hru & Hcu) & Hne).
  rewrite process_line_classify.
  destruct (classify line) as [| | | |text|] eqn:Hcl; try done.
  - exists s. split; [done|]. split; [by repeat split; eauto|].
    rewrite app_nil_r. split; [done|]. split; [done|].
    exists []. rewrite app_nil_r. split; [done|]. intros m H. by apply not_elem_of_nil in H.
  - exists s. split; [done|]. split; [by repeat split; eauto|].
    rewrite app_nil_r. split; [done|]. split; [done|].
    exists []. rewrite app_nil_r. split; [done|]. intros m H. by apply not_elem_of_nil in H.
  - exists (report s). split; [done|]. split; [by repeat split; eauto|].
    rewrite app_nil_r. split; [done|]. split; [done|].
    exists [ErrorParsingStreamData]. split; [done|].
    intros m H. apply list_elem_of_singleton in H. done.
  - exists (deliver text s). split; [done|].
    unfold deliver.
    cbn [currentStreamMessage set_events set_currentStreamResponse]. rewrite Hl.
    split.
    + unfold awaiting.
      cbn [currentChatId chats currentStreamMessage objects set_objects
           set_events set_currentStreamResponse].
      split; [done|]. split; [done|]. split; [done|]. split; [|split; [|done]].
      * eexists. rewrite list_lookup_alter, decide_True, Hm0 by done.
        split; [reflexivity|exact Hr0].
      * exists mu. by rewrite list_lookup_alter_ne.
    + split; [done|]. split; [done|].
      exists []. rewrite app_nil_r. split; [done|].
      intros m H. by apply not_elem_of_nil in H.
  - exists s. split; [done|]. split; [by repeat split; eauto|].
    rewrite app_nil_r. split; [done|]. split; [done|].
    exists []. rewrite app_nil_r. split; [done|]. intros m H. by apply not_elem_of_nil in H.
Qed.

Lemma process_lines_before_done e k c lu la prompt lines s :
  Forall (fun l => classify l <> Done) lines -> awaiting k c lu la prompt s ->
  exists s',
    for_each (process_line e) lines s = (Continue, s')
    /\ awaiting k c lu la prompt s'
    /\ events s' = events s
         ++ flat_map (fun l => match classify l with
                               | Delta text => [ContentDelta text]
                               | _ => []
                               end) lines
    /\ requests s' = requests s
    /\ exists log, console s' = console s ++ log
                   /\ forall m, SendMessageFailed m ∉ log.
Proof.
  intros H. revert s. induction H as [|line lines Hl _ IH]; intros s Ha.
  - exists s. split; [done|]. split; [done|]. rewrite app_nil_r.
    split; [done|]. split; [done|]. exists []. rewrite app_nil_r.
    split; [done|]. intros m H. by apply not_elem_of_nil in H.
  - destruct (process_line_before_done e k c lu la prompt line s Hl Ha)
      as (s0 & Hs0 & A0 & E0 & R0 & log0 & C0 & N0).
    destruct (IH s0 A0) as (s1 & Hs1 & A1 & E1 & R1 & log1 & C1 & N1).
    exists s1. cbn [for_each]. rewrite Hs0. split; [exact Hs1|].
    split; [exact A1|]. split; [|split].
    + rewrite E1, E0. cbn [flat_map]. by rewrite app_assoc.
    + by rewrite R1.
    + exists (log0 ++ log1). split; [by rewrite C1, C0, app_assoc|].
      intros m [H|H]%elem_of_app; [by apply (N0 m)|by apply (N1 m)].
Qed.

(** The handler on such a page: the streaming message takes the text of
    the error and the place after the prompt in the chat. *)
Lemma handler_after_the_prompt e msg k c lu la prompt s :
  k <> [] -> awaiting k c lu la prompt s ->
  let s' := final (handleSendMessageError e msg s) in
  let text := lit "Connection error: " ++ msg in
  events s' = events s
  /\ (exists rest, console s' = console s ++ SendMessageFailed msg :: rest
        /\ forall m, SendMessageFailed m ∉ rest)
  /\ isStreaming s' = false /\ isWaitingForResponse s' = false
  /\ exists mu ma method,
       chats s' !! k = Some (push_message la c)
       /\ objects s' !! lu = Some mu /\ role mu = user /\ content mu = prompt
       /\ objects s' !! la = Some ma /\ role ma = assistant /\ content ma = text
       /\ requests s' = requests s ++
            [SaveChat method (push_message la c) (snapshot s' (push_message la c))].
Proof.
  intros Hne (Hk & Hc & Hl & (m0 & Hm0 & Hr0) & (mu & Hmu & Hru & Hcu) & Hd).
  cbn zeta. unfold handleSendMessageError. cbn zeta.
  generalize (lit "Connection error: " ++ msg). intros text.
  unfold bind, modify, gets, console_error, updateStreamingMessage,
    current_chat, ret, saveChatToBackend.
  simpl.
  repeat (first [rewrite Hl | rewrite Hk | rewrite Hc]; simpl).
  destruct (store_ok e (length (requests s))); simpl.
  - split; [done|]. split.
    { exists []. split; [done|]. intros m Hin. by apply not_elem_of_nil in Hin. }
    split; [done|]. split; [done|].
    exists mu, (with_content text m0). eexists.
    rewrite lookup_insert_eq, !list_lookup_alter_ne by done.
    rewrite (alter_content_lookup _ _ _ _ Hm0).
    repeat split; try done.
  - split; [done|]. split.
    { exists [ErrorSavingChat]. split; [by rewrite <- app_assoc|].
      intros m Hin. apply list_elem_of_singleton in Hin. done. }
    split; [done|]. split; [done|].
    exists mu, (with_content text m0). eexists.
    rewrite lookup_insert_eq, !list_lookup_alter_ne by done.
    rewrite (alter_content_lookup _ _ _ _ Hm0).
    repeat split; try done.
Qed.

(** C7. On a transport failure of a send (its request fails, the response
    is not ok or has no body, or a read of the body fails before a frame
    with a truthy [done] came), on a page with a current chat whose store
    accepts the save of the prompt: [sendMessage] returns; the events are
    the deltas delivered before the failure, and none follows; the failure
    is reported once; both flags are clear; and the chat holds, after the
    prompt, a message of the assistant whose content is the text
    [Connection error: ] followed by the message of the error, sent to the
    store with the chat as a reply is. *)
Theorem transport_failure_is_persisted e st k c msg evs :
  isStreaming st = false -> isWaitingForResponse st = false ->
  trim (textInput st) <> [] ->
  currentChatId st = Some k -> k <> [] -> chats st !! k = Some c ->
  store_ok e (length (requests st)) = true ->
  transport_failure e st msg evs ->
  let st' := final (sendMessage e st) in
  let lu := length (objects st) in
  sendMessage e st = Returns tt st'
  /\ events st' = events st ++ evs
  /\ (exists log rest,
        console st' = console st ++ log ++ SendMessageFailed msg :: rest
        /\ forall m, SendMessageFailed m ∉ log ++ rest)
  /\ isStreaming st' = false /\ isWaitingForResponse st' = false
  /\ exists c' mu ma method,
       chats st' !! k = Some c'
       /\ messages c' = messages c ++ [lu; S lu]
       /\ objects st' !! lu = Some mu
       /\ role mu = user /\ content mu = trim (textInput st)
       /\ objects st' !! S lu = Some ma
       /\ role ma = assistant
       /\ content ma = lit "Connection error: " ++ msg
       /\ last (requests st') = Some (SaveChat method c' (snapshot st' c')).
Proof.
  intros Hs Hw Hmsg Hk Hne Hc Hok Hfail. cbn zeta.
  remember (sendMessage e st) as o eqn:Ho. symmetry in Ho.
  unfold transport_failure, chat_request_number in Hfail.
  rewrite (sendMessage_past_guard e st Hs Hw Hmsg) in Ho.
  rewrite (addMessageToChat_current e user _ st k c Hk Hne Hc) in Hfail, Ho.
  cbn zeta in Hfail, Ho. rewrite Hok in Hfail, Ho. cbn [final] in Hfail.
  rewrite transport_failures_run_the_handler in Ho. cbn zeta in Ho.
  cbn [requests set_requests set_currentStreamResponse set_busy set_currentFile
       set_textInput] in Hfail, Ho.
  set (lu := length (objects st)) in *.
  set (prompt := trim (textInput st)) in *.
  match type of Ho with
  | context [requesting e prompt ?s] => set (s0 := requesting e prompt s) in *
  end.
  match type of Hfail with
  | context [<[k := ?x]> (chats st)] => set (c2 := x) in *
  end.
  assert (Hm2 : messages c2 = messages c ++ [lu]).
  { subst c2. by rewrite messages_titled. }
  assert (Ha : awaiting k c2 lu (S lu) prompt s0).
  { subst s0. unfold requesting, awaiting.
    cbn [currentChatId chats currentStreamMessage objects set_requests
         set_currentStreamMessage set_objects set_ticks set_chats
         set_currentStreamResponse set_busy set_currentFile set_textInput].
    match goal with
    | |- context [length (objects st ++ [?m])] =>
        assert (Hla : length (objects st ++ [m]) = S lu)
          by (rewrite length_app; cbn [length]; apply Nat.add_1_r)
    end.
    split; [done|]. split; [apply lookup_insert_eq|].
    split; [by rewrite Hla|].
    split; [|split; [|apply Nat.neq_succ_diag_r]].
    - eexists. split.
      + rewrite <- Hla. by apply list_lookup_middle.
      + reflexivity.
    - eexists. split.
      + rewrite <- app_assoc. by apply list_lookup_middle.
      + split; reflexivity. }
  assert (E0 : events s0 = events st) by reflexivity.
  assert (C0 : console s0 = console st) by reflexivity.
  clearbody s0 c2.
  match goal with |- ?G =>
    let P := eval pattern o in G in
    match P with ?Q _ => set (P0 := Q) end
  end.
  change (P0 o).
  assert (Hend : forall s log,
    awaiting k c2 lu (S lu) prompt s ->
    events s = events st ++ evs ->
    console s = console st ++ log -> (forall x, SendMessageFailed x ∉ log) ->
    P0 (Returns tt (final (handleSendMessageError e msg s)))).
  { intros s log Has Es Cs Nlog. subst P0. cbn beta. cbn [final].
    destruct (handler_after_the_prompt e msg k c2 lu (S lu) prompt s Hne Has)
      as (H1 & (rest & H2 & H2') & H3 & H4 & mu & ma & method & H5 & H6 & H7
          & H8 & H9 & H10 & H11 & H12).
    cbn zeta in H1, H2, H3, H4, H5, H6, H9, H12.
    generalize dependent (final (handleSendMessageError e msg s)). intros s'.
    intros H1 H2 H3 H4 H5 H6 H9 H12.
    split; [reflexivity|]. split; [by rewrite H1|]. split.
    { exists log, rest. split; [by rewrite H2, Cs, <- app_assoc|].
      intros x [H|H]%elem_of_app; [by apply (Nlog x)|by apply (H2' x)]. }
    split; [exact H3|]. split; [exact H4|].
    exists (push_message (S lu) c2), mu, ma, method.
    split; [exact H5|]. split.
    { cbn [messages push_message]. by rewrite Hm2, <- app_assoc. }
    split; [exact H6|]. split; [exact H7|]. split; [exact H8|].
    split; [exact H9|]. split; [exact H10|]. split; [exact H11|].
    rewrite H12. apply last_snoc. }
  assert (Hnil : forall x, SendMessageFailed x ∉ @nil console_entry)
    by (intros x H; by apply not_elem_of_nil in H).
  match type of Hfail with
  | context [chat_api e ?n] =>
      destruct (chat_api e n) as [m|status body fin]
  end.
  - destruct Hfail as [-> ->]. subst o.
    apply (Hend s0 []);
      [exact Ha|by rewrite app_nil_r|by rewrite app_nil_r|exact Hnil].
  - destruct (response_ok status).
    2: { destruct Hfail as [-> ->]. subst o.
         apply (Hend s0 []);
           [exact Ha|by rewrite app_nil_r|by rewrite app_nil_r|exact Hnil]. }
    destruct (null_body_status status).
    1: { destruct Hfail as [-> ->]. subst o.
         apply (Hend s0 []);
           [exact Ha|by rewrite app_nil_r|by rewrite app_nil_r|exact Hnil]. }
    destruct Hfail as (-> & Hnd & ->).
    destruct (process_lines_before_done e k c2 lu (S lu) prompt _ s0 Hnd Ha)
      as (s3 & Hs3 & A3 & E3 & R3 & log & C3 & N3).
    unfold lines_of in Hs3. rewrite <- for_each_flat_map in Hs3.
    rewrite (read_loop_to_the_end e body (ReadFails msg) s0 s3 Hs3) in Ho.
    subst o.
    apply (Hend s3 log);
      [exact A3|by rewrite E3, E0|by rewrite C3, C0|exact N3].
Qed.

(** The example of the specification: the read fails after two deltas
    were delivered. *)
Lemma transport_failure_is_persisted_witness :
  transport_failure breaking asking (lit "network error")
    [ContentDelta (lit "Hel"); ContentDelta (lit "lo")]
  /\ events (final (sendMessage breaking asking))
     = events asking ++ [ContentDelta (lit "Hel"); ContentDelta (lit "lo")]
  /\ exists log rest,
       console (final (sendMessage breaking asking))
       = console asking ++ log ++ SendMessageFailed (lit "network error") :: rest
       /\ forall m, SendMessageFailed m ∉ log ++ rest.
Proof.
  assert (Hf : transport_failure breaking asking (lit "network error")
                 [ContentDelta (lit "Hel"); ContentDelta (lit "lo")]).
  { unfold transport_failure.
    change (chat_api breaking (chat_request_number breaking asking))
      with (Response 200 [bytes "data: {'content':'Hel'}|";
                          bytes "data: {'content':'lo'}|"]
              (ReadFails (lit "network error"))).
    change (response_ok 200) with true. change (null_body_status 200) with false.
    cbn iota. split; [reflexivity|]. split; [|vm_compute; reflexivity].
    assert (Hl : lines_of [bytes "data: {'content':'Hel'}|";
                           bytes "data: {'content':'lo'}|"]
                 = [js "data: {'content':'Hel'}"; [];
                    js "data: {'content':'lo'}"; []])
      by (vm_compute; reflexivity).
    rewrite Hl.
    repeat constructor; intros H; vm_compute in H; discriminate H. }
  split; [exact Hf|].
  assert (Hc : exists c, chats asking !! first_chat = Some c)
    by (vm_compute; eauto).
  destruct Hc as [c Hc].
  destruct (transport_failure_is_persisted breaking asking first_chat c
              (lit "network error")
              [ContentDelta (lit "Hel"); ContentDelta (lit "lo")]
              ltac:(vm_compute; reflexivity) ltac:(vm_compute; reflexivity)
              ltac:(intros H; vm_compute in H; discriminate H)
              ltac:(vm_compute; reflexivity)
              ltac:(intros H; vm_compute in H; discriminate H)
              Hc ltac:(reflexivity) Hf) as (_ & H2 & H3 & _).
  split; [exact H2|exact H3].
Defined.

End TransportFailure.

Section Tracks.

Local Open Scope Z_scope.













End Tracks.

Section Instances.

Lemma completion_ends_processing_witness :
  store_ok answered (length (requests streaming)) = true
  /\ read_loop answered done_then_more EndOfStream streaming
     = Finished true [bytes "data: {'content':'r'}|"]
         (snd (complete answered streaming)).
Proof.
  assert (Hok : store_ok answered (length (requests streaming)) = true)
    by (vm_compute; reflexivity).
  split; [exact Hok|].
  refine (proj1 (completion_ends_processing answered
            (bytes "data: {'done':true}|data: {'content':'late'}|")
            (js "data: {'done':true}") [js "data: {'content':'late'}"; []]
            [bytes "data: {'content':'r'}|"] EndOfStream streaming
            _ _ (or_intror Hok)));
    vm_compute; reflexivity.
Defined.

Lemma reply_is_the_concatenation_of_the_deltas_witness :
  currentStreamMessage streaming = Some 1%nat
  /\ exists m,
       take (length (events streaming))
         (events (end_state (read_loop answered hello_lines EndOfStream streaming)))
       = events streaming
       /\ objects (end_state (read_loop answered hello_lines EndOfStream streaming))
            !! 1%nat = Some m
       /\ content m =
          currentStreamResponse streaming
            ++ delta_text
                 (drop (length (events streaming))
                    (events (end_state
                       (read_loop answered hello_lines EndOfStream streaming)))).
Proof.
  assert (Hl : currentStreamMessage streaming = Some 1%nat)
    by (vm_compute; reflexivity).
  split; [exact Hl|].
  refine (reply_is_the_concatenation_of_the_deltas answered hello_lines
            EndOfStream streaming 1%nat
            {| role := assistant; content := []; timestamp := 1700000000003;
               liked := None |} Hl _ _);
    vm_compute; reflexivity.
Defined.

(** A first message on a page whose selector is blank: the chat that is
    opened gives the selector the first of the models, and the request
    names that model. *)
Lemma one_send_one_chat_request_witness :
  modelSelector unpicked = []
  /\ selector_at_request (greeting []) unpicked = lit "openai/gpt-4o-mini"
  /\ chat_requests (final (sendMessage (greeting []) unpicked)) =
     chat_requests unpicked
       ++ [ChatRequest (trim (textInput unpicked))
             (selector_at_request (greeting []) unpicked)
             (history_before unpicked)].
Proof.
  split; [reflexivity|]. split; [vm_compute; reflexivity|].
  refine (one_send_one_chat_request (greeting []) unpicked _ ltac:(vm_compute; reflexivity) ltac:(vm_compute; reflexivity) _ _ _).
  - intros H; vm_compute in H; discriminate H.
  - intros c Hc. vm_compute in Hc. discriminate Hc.
  - vm_compute. reflexivity.
Defined.

Lemma refused_save_aborts_the_send_witness :
  store_ok (greeting [4%nat]) (length (requests asking)) = false
  /\ exists st',
       sendMessage (greeting [4%nat]) asking = Throws st'
       /\ chat_requests st' = chat_requests asking
       /\ textInput st' = textInput asking.
Proof.
  assert (Hno : store_ok (greeting [4%nat]) (length (requests asking)) = false)
    by (vm_compute; reflexivity).
  split; [exact Hno|].
  assert (Hc : exists c, chats asking !! first_chat = Some c)
    by (vm_compute; eauto).
  destruct Hc as [c Hc].
  destruct (refused_save_aborts_the_send (greeting [4%nat]) asking first_chat c
              ltac:(vm_compute; reflexivity) ltac:(vm_compute; reflexivity)
              ltac:(intros H; vm_compute in H; discriminate H)
              ltac:(vm_compute; reflexivity)
              ltac:(intros H; vm_compute in H; discriminate H)
              Hc Hno) as (st' & H1 & H2 & _ & _ & H5 & _).
  exists st'. auto.
Defined.

Lemma refused_creation_sends_without_a_chat_witness :
  store_ok (greeting [0%nat]) (length (requests (typed (lit "hi")))) = false
  /\ exists st',
       sendMessage (greeting [0%nat]) (typed (lit "hi")) = Returns tt st'
       /\ chats st' = chats (typed (lit "hi"))
       /\ alerts st' = 1%nat.
Proof.
  split; [vm_compute; reflexivity|].
  destruct (refused_creation_sends_without_a_chat (greeting [0%nat])
              (typed (lit "hi")) ltac:(vm_compute; reflexivity) ltac:(vm_compute; reflexivity)
              ltac:(intros H; vm_compute in H; discriminate H)
              ltac:(vm_compute; reflexivity) ltac:(vm_compute; reflexivity)) as (st' & method & c0 & H1 & H2 & _ & _ & H5 & _).
  exists st'. auto.
Defined.

Lemma only_a_silent_end_leaves_the_page_busy_witness :
  flags (final (sendMessage answered (typed (lit "hi")))) <> (false, false)
  /\ completions (final (sendMessage answered (typed (lit "hi"))))
     = completions (typed (lit "hi"))
  /\ exists status body,
       chat_api answered (chat_request_number answered (typed (lit "hi")))
       = Response status body EndOfStream
       /\ response_ok status = true /\ null_body_status status = false.
Proof.
  assert (Hb : flags (final (sendMessage answered (typed (lit "hi"))))
               <> (false, false))
    by (intros H; vm_compute in H; discriminate H).
  split; [exact Hb|].
  refine (proj2 (only_a_silent_end_leaves_the_page_busy answered
            (typed (lit "hi")) _ ltac:(vm_compute; reflexivity) ltac:(vm_compute; reflexivity) _ _ Hb)).
  - intros H; vm_compute in H; discriminate H.
  - vm_compute. reflexivity.
Defined.

Lemma exchange_is_recorded_witness :
  completions (final (sendMessage (greeting []) asking)) <> completions asking
  /\ exists c' mu ma,
       chats (final (sendMessage (greeting []) asking)) !! first_chat = Some c'
       /\ length (messages c') = 4%nat
       /\ objects (final (sendMessage (greeting []) asking)) !! 2%nat = Some mu
       /\ content mu = trim (textInput asking)
       /\ objects (final (sendMessage (greeting []) asking)) !! 3%nat = Some ma
       /\ role ma = assistant.
Proof.
  assert (Hd : completions (final (sendMessage (greeting []) asking))
               <> completions asking)
    by (intros H; vm_compute in H; discriminate H).
  split; [exact Hd|].
  assert (Hc : exists c, chats asking !! first_chat = Some c
                         /\ length (messages c) = 2%nat)
    by (vm_compute; eauto).
  destruct Hc as (c & Hc & Hlen).
  destruct (exchange_is_recorded (greeting []) asking first_chat c
              (final (sendMessage (greeting []) asking))
              ltac:(vm_compute; reflexivity) ltac:(vm_compute; reflexivity)
              ltac:(intros H; vm_compute in H; discriminate H)
              ltac:(vm_compute; reflexivity)
              ltac:(intros H; vm_compute in H; discriminate H)
              Hc
              ltac:(intros n; reflexivity)
              ltac:(vm_compute; reflexivity)
              Hd)
    as (c' & mu & ma & H1 & H2 & H3 & _ & H5 & H6 & H7 & _).
  exists c', mu, ma. rewrite H2, length_app, Hlen. auto 10.
Defined.

Lemma transport_failure_without_a_chat_is_only_shown_witness :
  current_chat orphaned = None
  /\ requests (final (handleSendMessageError (offline []) (lit "Failed to fetch")
                        orphaned))
     = requests orphaned.
Proof.
  assert (Hc : current_chat orphaned = None) by (vm_compute; reflexivity).
  split; [exact Hc|].
  refine (proj1 (proj2 (proj2
    (transport_failure_without_a_chat_is_only_shown (offline [])
       (lit "Failed to fetch") orphaned 0%nat
       {| role := assistant; content := []; timestamp := 1700000000002;
          liked := None |} _ _ Hc))));
    vm_compute; reflexivity.
Defined.

Lemma catch_in_place_agrees_witness :
  currentStreamMessage streaming = Some 1%nat
  /\ set_console [] (final (catch_in_place (offline []) (lit "Failed to fetch")
                              streaming))
     = set_console [] (final (handleSendMessageError (offline [])
                                (lit "Failed to fetch") streaming)).
Proof.
  assert (Hl : currentStreamMessage streaming = Some 1%nat)
    by (vm_compute; reflexivity).
  split; [exact Hl|].
  assert (Hc : exists c, chats streaming !! first_chat = Some c)
    by (vm_compute; eauto).
  destruct Hc as [c Hc].
  refine (proj1 (catch_in_place_agrees (offline []) (lit "Failed to fetch")
                   streaming first_chat 1%nat c _ _ Hc Hl)).
  - vm_compute. reflexivity.
  - intros H; vm_compute in H; discriminate H.
Defined.

Lemma first_message_titles_the_chat_witness :
  currentChatId fresh_chat = Some first_chat
  /\ exists c',
       chats (final (addMessageToChat (greeting []) user
                       (lit "What is the airspeed velocity of an unladen swallow?")
                       fresh_chat)) !! first_chat = Some c'
       /\ title c' = lit "What is the airspeed velocity ...".
Proof.
  assert (Hk : currentChatId fresh_chat = Some first_chat)
    by (vm_compute; reflexivity).
  split; [exact Hk|].
  assert (Hc : exists c, chats fresh_chat !! first_chat = Some c
                         /\ messages c = [])
    by (vm_compute; eauto).
  destruct Hc as (c & Hc & Hm).
  destruct (first_message_titles_the_chat (greeting []) user
              (lit "What is the airspeed velocity of an unladen swallow?")
              fresh_chat first_chat c Hk
              ltac:(intros H; vm_compute in H; discriminate H) Hc)
    as (c' & H1 & _ & H3 & _).
  exists c'. split; [exact H1|].
  destruct (H3 ltac:(vm_compute; reflexivity) Hm) as (H4 & _). rewrite H4. vm_compute. reflexivity.
Defined.

Lemma chats_created_at_different_instants_differ_witness :
  clock (greeting []) (ticks initial) <> clock (later (greeting [])) (ticks initial)
  /\ currentChatId (final (createNewChat (greeting []) initial))
     <> currentChatId (final (createNewChat (later (greeting [])) initial)).
Proof.
  assert (Hd : clock (greeting []) (ticks initial)
               <> clock (later (greeting [])) (ticks initial))
    by (intros H; vm_compute in H; discriminate H).
  split; [exact Hd|].
  exact (chats_created_at_different_instants_differ (greeting []) initial
           (later (greeting [])) initial ltac:(vm_compute; reflexivity) ltac:(vm_compute; reflexivity) Hd).
Defined.

Lemma new_chat_deleted_again_witness :
  chats initial !! first_chat = None
  /\ chats (final (deleteChat (greeting []) first_chat
                     (final (createNewChat (greeting []) initial))))
     = chats initial.
Proof.
  split; [vm_compute; reflexivity|].
  exact (proj1 (new_chat_deleted_again (greeting []) initial
                  ltac:(vm_compute; reflexivity) ltac:(vm_compute; reflexivity) ltac:(vm_compute; reflexivity))).
Defined.

Lemma pinning_twice_restores_the_chat_witness :
  is_Some (chats answered_page !! first_chat)
  /\ exists st1 st2,
       pinChat (greeting []) first_chat answered_page = Returns tt st1
       /\ pinChat (greeting []) first_chat st1 = Returns tt st2
       /\ chats st2 = chats answered_page.
Proof.
  assert (Hc : exists c, chats answered_page !! first_chat = Some c)
    by (vm_compute; eauto).
  split; [exact Hc|]. destruct Hc as [c Hc].
  destruct (pinning_twice_restores_the_chat (greeting []) first_chat
              answered_page c Hc ltac:(vm_compute; reflexivity) ltac:(vm_compute; reflexivity))
    as (st1 & st2 & m1 & m2 & H1 & H2 & _ & H4 & _).
  exists st1, st2. auto.
Defined.

Lemma rating_marks_the_first_message_with_the_timestamp_witness :
  currentChatId answered_page = Some first_chat
  /\ objects (final (rateMessage (greeting []) 1700000000003 true answered_page))
       !! 1%nat
     = Some {| role := assistant; content := lit "Hello";
               timestamp := 1700000000003; liked := Some true |}.
Proof.
  assert (Hk : currentChatId answered_page = Some first_chat)
    by (vm_compute; reflexivity).
  split; [exact Hk|].
  assert (Hc : exists c, chats answered_page !! first_chat = Some c
                         /\ messages c = [0%nat] ++ 1%nat :: [])
    by (vm_compute; eauto).
  destruct Hc as (c & Hc & Hm).
  refine (proj1 (proj2 (proj1
    (rating_marks_the_first_message_with_the_timestamp (greeting [])
       1700000000003 true answered_page first_chat c Hk
       ltac:(intros H; vm_compute in H; discriminate H) Hc)
    [0%nat] 1%nat []
    {| role := assistant; content := lit "Hello";
       timestamp := 1700000000003; liked := None |} Hm _ ltac:(vm_compute; reflexivity) _))).
  - vm_compute. reflexivity.
  - intros l' m' Hin Hl'. apply list_elem_of_singleton in Hin. subst l'.
    vm_compute in Hl'. injection Hl' as <-. vm_compute. discriminate.
Defined.

Lemma rename_takes_the_trimmed_input_witness :
  trim (renameInput renaming) = lit "Greetings"
  /\ exists c,
       chats answered_page !! first_chat = Some c
       /\ chats (final (confirmRename (greeting []) renaming answered_page))
          = <[first_chat := with_title (trim (renameInput renaming)) c]>
              (chats answered_page).
Proof.
  assert (Ht : trim (renameInput renaming) = lit "Greetings")
    by (vm_compute; reflexivity).
  split; [exact Ht|].
  assert (Hc : exists c, chats answered_page !! first_chat = Some c)
    by (vm_compute; eauto).
  destruct Hc as [c Hc]. exists c. split; [exact Hc|].
  refine (proj1 (proj2 (proj2
    (rename_takes_the_trimmed_input (greeting []) renaming answered_page
       first_chat c ltac:(vm_compute; reflexivity) _ Hc) _))).
  - intros H; vm_compute in H; discriminate H.
  - rewrite Ht. intros H; vm_compute in H; discriminate H.
Defined.




End Instances.
